(** * Verification of the bez numeric containers

    A shallow embedding of [basic_vector<T>] (include/basic_vector.h) and
    [basic_matrix<T>] (include/basic_matrix.h) and the properties of their
    constructors, accessors and operators.

    Conventions of the embedding.

    - [size_t] values (lengths, indices) are [nat]; the one subtraction the
      source performs on them, [n - 1], wraps at zero and is [size_sub].
    - An object is a record of its data members. A heap buffer is a list;
      a pointer member that the constructor never assigned is [None].
    - The [_Status] members are [mutable]: a call through a [const]
      reference can still change them. Every member function is therefore
      a computation on the objects it can reach, of type [method St A]
      (a state and error monad): it returns a result together with the
      objects as the call left them, or [None] where the source reads or
      writes outside a buffer.
    - A [T&] returned by an accessor is the slot it designates; reading and
      writing through it are [read] and [write].
    - The operands of a call are distinct objects. A function whose
      every [return] names one local builds that local in the object its
      caller receives (no copy is made on return; the status set on the
      local reaches the caller only so). Where the returns name different
      objects (the product of matrices), the caller's object is a copy,
      made by the copy constructor. *)

From Stdlib Require Import ZArith Lia.
From stdpp Require Import base option list sorting.
From Stdlib Require String.
Import String.StringSyntax.
Delimit Scope string_scope with string.

(** ** Error status (basic_vector.h, enum class STATUS) *)

Inductive STATUS : Set :=
  | BAD_ALLOCATOR
  | BOUND_ARRAY
  | BAD_INITIALIZED
  | GOOD_ALLOCATOR
  | DIVIDED_ZERO.

Global Instance STATUS_eq_dec : EqDecision STATUS.
Proof. solve_decision. Defined.

(** ** Element types (concept [number])

    The operations the containers use on [T]. Division is partial: an
    integral division has no result where the quotient is not defined (a
    zero divisor; for a signed type the least value by -1, whose quotient
    is not a value of the type). [num_to_long] and
    [num_of_long] are the conversions [T -> long] and
    [static_cast<T>(long)]; [num_unsigned] is [std::unsigned_integral<T>]. *)

Class number (T : Type) : Type := {
  num_zero : T;
  num_one : T;
  num_add : T → T → T;
  num_sub : T → T → T;
  num_mul : T → T → T;
  num_div : T → T → option T;
  num_eqb : T → T → bool;
  num_ltb : T → T → bool;
  num_to_long : T → Z;
  num_of_long : Z → T;
  num_unsigned : bool
}.

(** What the proofs use of an element type: [==] decides equality, [<] is
    a strict total order, division has no result on a zero divisor, and
    zero survives the round trip through [long]. *)
Class number_laws (T : Type) `{number T} : Prop := {
  num_eqb_eq : ∀ x y : T, num_eqb x y = true ↔ x = y;
  num_ltb_irrefl : ∀ x : T, num_ltb x x = false;
  num_ltb_trans : ∀ x y z : T,
    num_ltb x y = true → num_ltb y z = true → num_ltb x z = true;
  num_ltb_total : ∀ x y : T,
    num_ltb x y = false → num_ltb y x = false → x = y;
  num_div_zero : ∀ x : T, num_div x num_zero = None;
  num_long_zero : (0 <= num_to_long (num_zero : T))%Z ∧
                  num_of_long (num_to_long num_zero) = (num_zero : T)
}.

(** What the properties of [sum] use of the addition: it is commutative
    and associative, and zero plus zero is zero. *)
Class number_add_laws (T : Type) `{number T} : Prop := {
  num_add_comm : ∀ x y : T, num_add x y = num_add y x;
  num_add_assoc : ∀ x y z : T,
    num_add x (num_add y z) = num_add (num_add x y) z;
  num_add_zero_zero : num_add num_zero num_zero = (num_zero : T)
}.

(** [int]: 32-bit two's complement; arithmetic is shown wrapping into
    [-2^31, 2^31). Division truncates; [INT_MIN / -1], like a division
    by zero, has no result. *)
Inductive int : Set := Int (z : Z).

Definition int_val (x : int) : Z := let 'Int z := x in z.

Definition wrap_int (z : Z) : Z :=
  ((z + 2 ^ 31) mod 2 ^ 32 - 2 ^ 31)%Z.

(** [unsigned]: 32-bit, arithmetic modulo [2^32]. *)
Inductive unsigned : Set := Unsigned (z : Z).

Definition unsigned_val (x : unsigned) : Z := let 'Unsigned z := x in z.

Definition wrap_unsigned (z : Z) : Z := (z mod 2 ^ 32)%Z.

Global Instance int_number : number int := {|
  num_zero := Int 0;
  num_one := Int 1;
  num_add x y := Int (wrap_int (int_val x + int_val y));
  num_sub x y := Int (wrap_int (int_val x - int_val y));
  num_mul x y := Int (wrap_int (int_val x * int_val y));
  num_div x y :=
    if (int_val y =? 0)%Z then None
    else if (int_val x =? - 2 ^ 31)%Z && (int_val y =? -1)%Z then None
    else Some (Int (wrap_int (Z.quot (int_val x) (int_val y))));
  num_eqb x y := (int_val x =? int_val y)%Z;
  num_ltb x y := (int_val x <? int_val y)%Z;
  num_to_long x := int_val x;
  num_of_long z := Int (wrap_int z);
  num_unsigned := false
|}.

Global Instance unsigned_number : number unsigned := {|
  num_zero := Unsigned 0;
  num_one := Unsigned 1;
  num_add x y := Unsigned (wrap_unsigned (unsigned_val x + unsigned_val y));
  num_sub x y := Unsigned (wrap_unsigned (unsigned_val x - unsigned_val y));
  num_mul x y := Unsigned (wrap_unsigned (unsigned_val x * unsigned_val y));
  num_div x y :=
    if (unsigned_val y =? 0)%Z then None
    else Some (Unsigned (wrap_unsigned (unsigned_val x / unsigned_val y)));
  num_eqb x y := (unsigned_val x =? unsigned_val y)%Z;
  num_ltb x y := (unsigned_val x <? unsigned_val y)%Z;
  num_to_long x := unsigned_val x;
  num_of_long z := Unsigned (wrap_unsigned z);
  num_unsigned := true
|}.

(** ** Computations on objects *)

Definition method (St A : Type) : Type := St → option (A * St).

Definition ret {St A} (a : A) : method St A := λ s, Some (a, s).

Definition bind {St A B} (m : method St A) (k : A → method St B) : method St B :=
  λ s, match m s with
       | Some (a, s') => k a s'
       | None => None
       end.

Notation "x <- m ;; k" := (bind m (λ x, k))
  (at level 100, m at next level, right associativity, only parsing).
Notation "m1 ;;; m2" := (bind m1 (λ _, m2))
  (at level 100, right associativity, only parsing).

Definition get {St} : method St St := λ s, Some (s, s).
Definition put {St} (s : St) : method St () := λ _, Some ((), s).
Definition modify {St} (f : St → St) : method St () := λ s, Some ((), f s).

(** An lvalue path from the objects in scope [St] to a sub-object [P]:
    [view] finds the sub-object (nothing, when the path leaves an array)
    and [update] puts a new value of it back. *)
Record path (St P : Type) : Type := Path {
  view : St → option P;
  update : P → St → St
}.
Global Arguments Path {St P} _ _.
Global Arguments view {St P} _ _.
Global Arguments update {St P} _ _ _.

(** A call on the sub-object at the end of a path. *)
Definition on {St P A} (p : path St P) (m : method P A) : method St A :=
  λ s, match view p s with
       | Some o =>
           match m o with
           | Some (a, o') => Some (a, update p o' s)
           | None => None
           end
       | None => None
       end.

Definition fst_ {St1 St2} : path (St1 * St2) St1 :=
  Path (λ s, Some s.1) (λ o s, (o, s.2)).

Definition snd_ {St1 St2} : path (St1 * St2) St2 :=
  Path (λ s, Some s.2) (λ o s, (s.1, o)).

(** [q] below [p]. *)
Definition sub_ {St P Q} (p : path St P) (q : path P Q) : path St Q :=
  Path (λ s, o ← view p s; view q o)
       (λ x s, match view p s with
               | Some o => update p (update q x o) s
               | None => s
               end).

(** Two sub-objects side by side, as the two arguments of a call. *)
Definition pair_ {St P Q} (p : path St P) (q : path St Q) : path St (P * Q) :=
  Path (λ s, a ← view p s; b ← view q s; Some (a, b))
       (λ x s, update q x.2 (update p x.1 s)).

(** A call on the first or the second of two objects in scope. *)
Definition on_fst {St1 St2 A} (m : method St1 A) : method (St1 * St2) A :=
  on fst_ m.

Definition on_snd {St1 St2 A} (m : method St2 A) : method (St1 * St2) A :=
  on snd_ m.

(** A local object [l], alive for the scope [m]; its final value comes
    back with the result. *)
Definition with_local {L St A} (l : L) (m : method (L * St) A)
    : method St (A * L) :=
  λ s, match m (l, s) with
       | Some (a, (l', s')) => Some ((a, l'), s')
       | None => None
       end.

(** A temporary: a local whose final value nobody reads. *)
Definition with_temp {L St A} (l : L) (m : method (L * St) A) : method St A :=
  r <- with_local l m ;; ret r.1.

(** A friend function called with its two arguments exchanged. *)
Definition swap_args {St1 St2 A} (m : method (St2 * St1) A)
    : method (St1 * St2) A :=
  λ s, match m (s.2, s.1) with
       | Some (a, (s2, s1)) => Some (a, (s1, s2))
       | None => None
       end.

(** An expression that has a value or is undefined. *)
Definition lift_option {St A} (o : option A) : method St A :=
  λ s, match o with
       | Some a => Some (a, s)
       | None => None
       end.

(** [for (size_t i = start; i < start + count; i++) body(i)] *)
Fixpoint for_from {St} (start count : nat) (body : nat → method St ())
    : method St () :=
  match count with
  | 0 => ret ()
  | S count' => body start ;;; for_from (S start) count' body
  end.

Definition for_ {St} (n : nat) (body : nat → method St ()) : method St () :=
  for_from 0 n body.

(** The same loop with a body that may [return r]: [Some r] leaves the
    loop (and the function) with [r]. *)
Fixpoint for_return_from {St R} (start count : nat)
    (body : nat → method St (option R)) : method St (option R) :=
  match count with
  | 0 => ret None
  | S count' =>
      r <- body start ;;
      match r with
      | Some x => ret (Some x)
      | None => for_return_from (S start) count' body
      end
  end.

Definition for_return {St R} (n : nat) (body : nat → method St (option R))
    : method St (option R) :=
  for_return_from 0 n body.

(** Subtraction on [size_t] (64 bits): [a - b] modulo [2^64]. *)
Definition size_sub (a b : nat) : nat :=
  if b <=? a then a - b
  else Z.to_nat (2 ^ 64 + Z.of_nat a - Z.of_nat b).

(** ** basic_vector<T> (basic_vector.h) *)

Module vec.

(** The data members. [_Allocator] is [None] while the pointer has not
    been given a buffer; the static counter [ngen] takes no part in any
    result and is left out. *)
Record basic_vector (T : Type) : Type := mk {
  _Length : nat;
  _Allocator : option (list T);
  _Status : STATUS
}.
Global Arguments mk {T} _ _ _.
Global Arguments _Length {T} _.
Global Arguments _Allocator {T} _.
Global Arguments _Status {T} _.

Section methods.
Context {T : Type} `{number T}.

Implicit Types (v this other lhs rhs : basic_vector T).

Definition with_Status (st : STATUS) v : basic_vector T :=
  mk (_Length v) (_Allocator v) st.

Definition with_buffer (buf : list T) v : basic_vector T :=
  mk (_Length v) (Some buf) (_Status v).

(** [new T[n]]: the expression throws rather than return a null
    pointer, so the [BAD_ALLOCATOR] branches after it are never taken.
    The cells of a new buffer hold no defined value until written;
    they show as [num_zero] here and every constructor overwrites each
    of them before it returns. *)
Definition new_array (n : nat) : list T := replicate n num_zero.

(** Reading and writing the cell [_Allocator[i]]; undefined without a
    buffer or outside it. *)
Definition read (i : nat) : method (basic_vector T) T :=
  λ v, match _Allocator v with
       | Some buf =>
           match buf !! i with
           | Some x => Some (x, v)
           | None => None
           end
       | None => None
       end.

Definition write (i : nat) (x : T) : method (basic_vector T) () :=
  λ v, match _Allocator v with
       | Some buf =>
           if decide (i < length buf)
           then Some ((), with_buffer (<[i:=x]> buf) v)
           else None
       | None => None
       end.

(** *** Constructors *)

(** [basic_vector()] *)
Definition basic_vector_default : option (basic_vector T) :=
  snd <$> write 0 num_zero (mk 1 (Some (new_array 1)) GOOD_ALLOCATOR).

(** [basic_vector(size_t length)] *)
Definition basic_vector_sized (length : nat) : option (basic_vector T) :=
  snd <$> for_ length (λ i, write i num_zero)
            (mk length (Some (new_array length)) GOOD_ALLOCATOR).

(** [basic_vector(size_t length, long initializedValue)], the overload
    for unsigned element types. On a negative value only the status is
    assigned: no buffer is requested and [_Allocator] stays unset. *)
Definition basic_vector_long (length : nat) (initializedValue : Z)
    : option (basic_vector T) :=
  if (initializedValue <? 0)%Z
  then Some (mk length None BAD_INITIALIZED)
  else snd <$> for_ length (λ i, write i (num_of_long initializedValue))
                 (mk length (Some (new_array length)) GOOD_ALLOCATOR).

(** [basic_vector(size_t length, T initializedValue)], the overload for
    the other element types. *)
Definition basic_vector_value (length : nat) (initializedValue : T)
    : option (basic_vector T) :=
  snd <$> for_ length (λ i, write i initializedValue)
            (mk length (Some (new_array length)) GOOD_ALLOCATOR).

(** [basic_vector<T>(n, value)] with [value] of type [T], as
    basic_matrix writes it: overload resolution takes the [long]
    constructor for an unsigned [T] and the [T] constructor
    otherwise. *)
Definition basic_vector_fill (length : nat) (value : T)
    : option (basic_vector T) :=
  if num_unsigned (T:=T)
  then basic_vector_long length (num_to_long value)
  else basic_vector_value length value.

Definition length : method (basic_vector T) nat :=
  this <- get ;; ret (_Length this).

(** [basic_vector(const basic_vector<T> &other)]: a computation on
    [other] that yields the new object. The status starts from its
    default member initializer. *)
Definition copy : method (basic_vector T) (basic_vector T) :=
  n <- length ;;
  r <- with_local (mk n (Some (new_array n)) GOOD_ALLOCATOR)
         (for_ n (λ i, x <- on_snd (read i) ;; on_fst (write i x))) ;;
  ret r.2.

(** *** Element access *)

(** [T &operator[](size_t index)] *)
Definition operator_index (index : nat) : method (basic_vector T) nat :=
  this <- get ;;
  if (0 <=? index) && (index <? _Length this) then ret index
  else put (with_Status BOUND_ARRAY this) ;;;
       ret (size_sub (_Length this) 1).

(** [const T &operator[](size_t index) const] *)
Definition operator_index_const (index : nat)
    : method (basic_vector T) nat :=
  this <- get ;;
  if (0 <=? index) && (index <? _Length this) then ret index
  else put (with_Status BOUND_ARRAY this) ;;;
       ret (size_sub (_Length this) 1).

(** [if (_Allocator != nullptr) delete[] _Allocator;] of [operator=]:
    the test reads the pointer, so it has no defined result on a pointer
    member that was never assigned. An assigned one holds a buffer ([new]
    throws rather than return null); the buffer is freed here and the
    next statements replace it. *)
Definition delete_array : method (basic_vector T) () :=
  this <- get ;;
  lift_option (_Allocator this) ;;;
  ret ().

(** [operator=], on the pair [(this, other)] of distinct objects (for
    [this == &other] the source returns at once). *)
Definition operator_assign
    : method (basic_vector T * basic_vector T) () :=
  on_fst delete_array ;;;
  n <- on_snd length ;;
  on_fst (modify (λ this, mk n (Some (new_array n)) (_Status this))) ;;;
  for_ n (λ i,
    s <- on_snd (operator_index_const i) ;;
    x <- on_snd (read s) ;;
    on_fst (write i x)).

Definition setStatus (status : STATUS) : method (basic_vector T) () :=
  modify (with_Status status).

(** [void set(const T value, const size_t index = 0)] *)
Definition set (value : T) (index : nat) : method (basic_vector T) () :=
  write index value.

(** [const T &at(size_t) const] and [T &at(size_t)]: the designated
    cell is [_Allocator[index]], whatever the index. *)
Definition at_const (index : nat) : method (basic_vector T) nat :=
  ret index.

Definition at_ (index : nat) : method (basic_vector T) nat :=
  ret index.

(** [T sum() const] *)
Definition sum : method (basic_vector T) T :=
  this <- get ;;
  r <- with_local (num_zero : T)
         (for_ (_Length this) (λ i,
            x <- on_snd (read i) ;;
            on_fst (modify (λ total, num_add total x)))) ;;
  ret r.2.

Definition status : method (basic_vector T) STATUS :=
  this <- get ;; ret (_Status this).

(** [const std::string to_string_status()]: the [switch] on [_Status],
    with the spelling of the source. *)
Definition to_string_status : method (basic_vector T) String.string :=
  this <- get ;;
  ret (match _Status this with
       | BAD_ALLOCATOR => "BAD_ALLOCATOR"
       | BOUND_ARRAY => "BOUND_ARRAY"
       | BAD_INITIALIZED => "BAD_INITALIZED"
       | DIVIDED_ZERO => "DIVIDED_ZERO"
       | _ => "GOOD_ALLOCATOR"
       end)%string.

(** *** Scaling *)

(** [friend operator*(const basic_vector<T> &other, const T k)]. The
    returned local [vec] is the object the caller receives. *)
Definition operator_mul (k : T)
    : method (basic_vector T) (basic_vector T) :=
  vec <- copy ;;
  if num_eqb k num_one then ret vec
  else
    r <- with_local vec
           (n <- on_fst length ;;
            for_ n (λ i,
              s <- on_snd (operator_index_const i) ;;
              x <- on_snd (read s) ;;
              d <- on_fst (operator_index i) ;;
              on_fst (write d (num_mul x k)))) ;;
    ret r.2.

(** [operator*=(const T k)] *)
Definition operator_mul_assign (k : T) : method (basic_vector T) () :=
  if num_eqb k num_one then ret ()
  else
    this <- get ;;
    for_ (_Length this) (λ i,
      x <- read i ;; write i (num_mul x k)).

(** [friend operator/(const basic_vector<T> &other, const T k)] *)
Definition operator_div (k : T)
    : method (basic_vector T) (basic_vector T) :=
  vec <- copy ;;
  if num_eqb k num_zero
  then r <- with_local vec (on_fst (setStatus DIVIDED_ZERO)) ;; ret r.2
  else
    r <- with_local vec
           (n <- on_fst length ;;
            for_ n (λ i,
              s <- on_snd (operator_index_const i) ;;
              x <- on_snd (read s) ;;
              q <- lift_option (num_div x k) ;;
              d <- on_fst (operator_index i) ;;
              on_fst (write d q))) ;;
    ret r.2.

(** [operator/=(const T k)] *)
Definition operator_div_assign (k : T) : method (basic_vector T) () :=
  if num_eqb k num_zero
  then modify (with_Status DIVIDED_ZERO)
  else
    this <- get ;;
    for_ (_Length this) (λ i,
      x <- read i ;;
      q <- lift_option (num_div x k) ;;
      write i q).

(** *** Sum and difference

    For the friend functions the objects in scope are
    [(vec, (lhs, rhs))]. *)

Definition elementwise (f : T → T → T)
    : method (basic_vector T * basic_vector T) (basic_vector T) :=
  n <- on_fst length ;;
  vec <- lift_option (basic_vector_sized n) ;;
  m <- on_snd length ;;
  if negb (n =? m)
  then ret (with_Status BOUND_ARRAY vec)
  else
    r <- with_local vec
           (for_ n (λ i,
              sl <- on_snd (on_fst (operator_index_const i)) ;;
              sr <- on_snd (on_snd (operator_index_const i)) ;;
              x <- on_snd (on_fst (read sl)) ;;
              y <- on_snd (on_snd (read sr)) ;;
              d <- on_fst (operator_index i) ;;
              on_fst (write d (f x y)))) ;;
    ret r.2.

Definition elementwise_assign (f : T → T → T)
    : method (basic_vector T * basic_vector T) () :=
  this <- on_fst get ;;
  m <- on_snd length ;;
  if negb (_Length this =? m) then ret ()
  else
    for_ (_Length this) (λ i,
      s <- on_snd (operator_index_const i) ;;
      y <- on_snd (read s) ;;
      x <- on_fst (read i) ;;
      on_fst (write i (f x y))).

(** [friend operator+(lhs, rhs)] and [friend operator-(lhs, rhs)]:
    one body, with [+] and [-] on the elements. *)
Definition operator_add := elementwise num_add.
Definition operator_sub := elementwise num_sub.

(** [operator+=(other)] and [operator-=(other)], on [(this, other)]. *)
Definition operator_add_assign := elementwise_assign num_add.
Definition operator_sub_assign := elementwise_assign num_sub.

(** *** Comparisons *)

(** The order [std::sort] leaves a range in: no element is [<] its
    predecessor. *)
Definition num_le : relation T := λ x y, num_ltb y x = false.

Global Instance num_le_dec : RelDecision num_le.
Proof. intros x y. unfold num_le. apply _. Defined.

(** [std::sort(_Allocator, _Allocator + n)] from <algorithm>: the
    first [n] cells are rearranged into ascending order. *)
Definition std_sort (n : nat) : method (basic_vector T) () :=
  λ v, match _Allocator v with
       | Some buf =>
           if decide (n ≤ List.length buf)
           then Some ((), with_buffer
                            (merge_sort num_le (take n buf) ++ drop n buf)
                            v)
           else None
       | None => None
       end.

(** [friend operator==(lhs, rhs)]; inside the scope of the locals the
    objects are [((t1, t2), (lhs, rhs))]. *)
Definition operator_eq
    : method (basic_vector T * basic_vector T) bool :=
  n <- on_fst length ;;
  m <- on_snd length ;;
  if negb (n =? m) then ret false
  else
    t1 <- on_fst copy ;;
    t2 <- on_snd copy ;;
    r <- with_local (t1, t2)
           (on_fst (on_fst (l <- length ;; std_sort l)) ;;;
            on_fst (on_snd (l <- length ;; std_sort l)) ;;;
            for_return n (λ i,
              s1 <- on_fst (on_fst (operator_index i)) ;;
              s2 <- on_fst (on_snd (operator_index i)) ;;
              x <- on_fst (on_fst (read s1)) ;;
              y <- on_fst (on_snd (read s2)) ;;
              ret (if negb (num_eqb x y) then Some false else None))) ;;
    ret (default true r.1).

(** [friend operator!=(lhs, rhs)] *)
Definition operator_ne
    : method (basic_vector T * basic_vector T) bool :=
  lhs <- on_fst get ;;
  rhs <- on_snd get ;;
  if negb (_Length lhs =? _Length rhs) then ret true
  else b <- operator_eq ;; ret (negb b).

(** [friend operator<(lhs, rhs)] *)
Definition operator_lt
    : method (basic_vector T * basic_vector T) bool :=
  a <- on_fst sum ;;
  b <- on_snd sum ;;
  ret (num_ltb a b).

(** [friend operator>(lhs, rhs)]: [rhs < lhs] *)
Definition operator_gt
    : method (basic_vector T * basic_vector T) bool :=
  swap_args operator_lt.

(** [friend operator<=(lhs, rhs)]: [!(lhs > rhs)] *)
Definition operator_le
    : method (basic_vector T * basic_vector T) bool :=
  b <- operator_gt ;; ret (negb b).

(** [friend operator>=(lhs, rhs)]: [!(lhs < rhs)] *)
Definition operator_ge
    : method (basic_vector T * basic_vector T) bool :=
  b <- operator_lt ;; ret (negb b).

End methods.
End vec.

(** ** basic_matrix<T> (basic_matrix.h) *)

Module mat.

(** The data members. [_Columns] is [None] while no constructor or
    assignment has given it a value; [_Allocator] is the array of row
    vectors, which every constructor requests. *)
Record basic_matrix (T : Type) : Type := mk {
  _Rows : nat;
  _Columns : option nat;
  _Allocator : list (vec.basic_vector T);
  _Status : STATUS
}.
Global Arguments mk {T} _ _ _ _.
Global Arguments _Rows {T} _.
Global Arguments _Columns {T} _.
Global Arguments _Allocator {T} _.
Global Arguments _Status {T} _.

Section methods.
Context {T : Type} `{number T}.

Implicit Types (m this other lhs rhs : basic_matrix T).

Definition with_Status (st : STATUS) m : basic_matrix T :=
  mk (_Rows m) (_Columns m) (_Allocator m) st.

(** [new basic_vector<T>[n]]: [n] default-constructed vectors. *)
Definition new_rows (n : nat) : option (list (vec.basic_vector T)) :=
  d ← vec.basic_vector_default; Some (replicate n d).

(** The row object [_Allocator[i]]. *)
Definition row_ (i : nat) : path (basic_matrix T) (vec.basic_vector T) :=
  Path (λ m, _Allocator m !! i)
       (λ r m, mk (_Rows m) (_Columns m) (<[i:=r]> (_Allocator m))
                  (_Status m)).

(** Names for the objects in scope. With a local or a temporary the
    scope is [(local, outer)]; the outer scope of a friend function is
    [(lhs, rhs)] and that of a member taking [other] is
    [(this, other)]. *)
Definition local_ {L St} : path (L * St) L := fst_.
Definition outer_ {L St P} (p : path St P) : path (L * St) P :=
  sub_ snd_ p.

(** Reading the value of a member that may never have been assigned. *)
Definition columns_value : method (basic_matrix T) nat :=
  this <- get ;; lift_option (_Columns this).

(** [a && b], where [b] is evaluated only if [a] holds. *)
Definition and_then {St} (a : bool) (b : method St bool)
    : method St bool :=
  if a then b else ret false.

(** *** Constructors *)

(** [basic_matrix()] *)
Definition basic_matrix_default : option (basic_matrix T) :=
  rows ← new_rows 5;
  snd <$> for_ 5 (λ row,
            t <- lift_option (vec.basic_vector_sized 5) ;;
            with_temp t
              (on (pair_ (outer_ (row_ row)) local_) vec.operator_assign))
          (mk 5 (Some 5) rows GOOD_ALLOCATOR).

(** [basic_matrix(size_t size)] *)
Definition basic_matrix_sized (size : nat) : option (basic_matrix T) :=
  rows ← new_rows size;
  snd <$> for_ size (λ row,
            t <- lift_option (vec.basic_vector_sized size) ;;
            with_temp t
              (on (pair_ (outer_ (row_ row)) local_) vec.operator_assign))
          (mk size (Some size) rows GOOD_ALLOCATOR).

(** [basic_matrix(size_t rows, size_t columns, T value = 0)] *)
Definition basic_matrix_fill (rows columns : nat) (value : T)
    : option (basic_matrix T) :=
  array ← new_rows rows;
  snd <$> for_ rows (λ row,
            t <- lift_option (vec.basic_vector_fill columns value) ;;
            with_temp t
              (on (pair_ (outer_ (row_ row)) local_) vec.operator_assign))
          (mk rows (Some columns) array GOOD_ALLOCATOR).

(** [basic_matrix(const basic_matrix<T> &other)]: a computation on
    [other] that yields the new object. The body assigns [_Status],
    [_Rows] and [_Allocator]; it has no assignment to [_Columns]. *)
Definition copy : method (basic_matrix T) (basic_matrix T) :=
  other <- get ;;
  array <- lift_option (new_rows (_Rows other)) ;;
  r <- with_local (mk (_Rows other) None array (_Status other))
         (for_ (_Rows other) (λ row,
            on (pair_ (sub_ local_ (row_ row)) (outer_ (row_ row)))
               vec.operator_assign)) ;;
  ret r.2.

(** [operator=], on the pair [(this, other)] of distinct objects. *)
Definition operator_assign
    : method (basic_matrix T * basic_matrix T) () :=
  other <- on_snd get ;;
  array <- lift_option (new_rows (_Rows other)) ;;
  on_fst (put (mk (_Rows other) (_Columns other) array (_Status other))) ;;;
  for_ (_Rows other) (λ row,
    on (pair_ (sub_ fst_ (row_ row)) (sub_ snd_ (row_ row)))
       vec.operator_assign).

(** *** Element access

    A [T&] into a matrix is the row and the cell it designates. *)

Definition read (r : nat * nat) : method (basic_matrix T) T :=
  on (row_ r.1) (vec.read r.2).

Definition write (r : nat * nat) (x : T) : method (basic_matrix T) () :=
  on (row_ r.1) (vec.write r.2 x).

(** [void set(size_t row, size_t column, const T value = 0)] *)
Definition set (row column : nat) (value : T)
    : method (basic_matrix T) () :=
  s <- on (row_ row) (vec.operator_index column) ;;
  write (row, s) value.

(** [const T &at(size_t row, size_t column) const] *)
Definition at_const (row column : nat)
    : method (basic_matrix T) (nat * nat) :=
  this <- get ;;
  if (0 <=? row) && (row <? _Rows this)
  then s <- on (row_ row) (vec.operator_index_const column) ;;
       ret (row, s)
  else
    put (with_Status BOUND_ARRAY this) ;;;
    c <- columns_value ;;
    s <- on (row_ (size_sub (_Rows this) 1))
            (vec.operator_index_const (size_sub c 1)) ;;
    ret (size_sub (_Rows this) 1, s).

(** [T &at(size_t row, size_t column)] *)
Definition at_ (row column : nat)
    : method (basic_matrix T) (nat * nat) :=
  this <- get ;;
  if (0 <=? row) && (row <? _Rows this)
  then s <- on (row_ row) (vec.operator_index column) ;;
       ret (row, s)
  else
    put (with_Status BOUND_ARRAY this) ;;;
    c <- columns_value ;;
    s <- on (row_ (size_sub (_Rows this) 1))
            (vec.operator_index (size_sub c 1)) ;;
    ret (size_sub (_Rows this) 1, s).

(** [T &operator()(size_t row, size_t column)] *)
Definition operator_call (row column : nat)
    : method (basic_matrix T) (nat * nat) :=
  this <- get ;;
  if (0 <=? row) && (row <? _Rows this)
  then s <- on (row_ row) (vec.operator_index column) ;;
       ret (row, s)
  else
    put (with_Status BOUND_ARRAY this) ;;;
    c <- columns_value ;;
    s <- on (row_ (size_sub (_Rows this) 1))
            (vec.operator_index (size_sub c 1)) ;;
    ret (size_sub (_Rows this) 1, s).

(** [const T &operator()(size_t row, size_t column) const] *)
Definition operator_call_const (row column : nat)
    : method (basic_matrix T) (nat * nat) :=
  this <- get ;;
  if (0 <=? row) && (row <? _Rows this)
  then s <- on (row_ row) (vec.operator_index_const column) ;;
       ret (row, s)
  else
    put (with_Status BOUND_ARRAY this) ;;;
    c <- columns_value ;;
    s <- on (row_ (size_sub (_Rows this) 1))
            (vec.operator_index_const (size_sub c 1)) ;;
    ret (size_sub (_Rows this) 1, s).

Definition rows : method (basic_matrix T) nat :=
  this <- get ;; ret (_Rows this).

Definition columns : method (basic_matrix T) nat := columns_value.

Definition status : method (basic_matrix T) STATUS :=
  this <- get ;; ret (_Status this).

(** *** Sum and difference *)

(** The test [(a._Rows != b._Rows) && (a._Columns != b._Columns)] that
    guards [+], [-], [+=], [-=] and [==]. *)
Definition both_differ
    : method (basic_matrix T * basic_matrix T) bool :=
  a <- on_fst get ;;
  b <- on_snd get ;;
  and_then (negb (_Rows a =? _Rows b))
    (ca <- on_fst columns_value ;;
     cb <- on_snd columns_value ;;
     ret (negb (ca =? cb))).

(** [friend operator+(lhs, rhs)] and [friend operator-(lhs, rhs)]: one
    body, with the vector operator [op] on the rows. In the scope of
    the local the objects are [(matrix, (lhs, rhs))]. *)
Definition elementwise
    (op : method (vec.basic_vector T * vec.basic_vector T)
                 (vec.basic_vector T))
    : method (basic_matrix T * basic_matrix T) (basic_matrix T) :=
  matrix <- on_fst copy ;;
  lhs <- on_fst get ;;
  mismatch <- both_differ ;;
  if mismatch then ret (with_Status BOUND_ARRAY matrix)
  else
    r <- with_local matrix
           (for_ (_Rows lhs) (λ i,
              t <- on (outer_ (pair_ (sub_ fst_ (row_ i))
                                     (sub_ snd_ (row_ i)))) op ;;
              with_temp t
                (on (pair_ (outer_ (sub_ local_ (row_ i))) local_)
                    vec.operator_assign))) ;;
    ret r.2.

Definition operator_add := elementwise vec.operator_add.
Definition operator_sub := elementwise vec.operator_sub.

(** [operator+=(other)] and [operator-=(other)], on [(this, other)]. *)
Definition elementwise_assign
    (op : method (vec.basic_vector T * vec.basic_vector T) ())
    : method (basic_matrix T * basic_matrix T) () :=
  this <- on_fst get ;;
  mismatch <- both_differ ;;
  if mismatch then ret ()
  else
    for_ (_Rows this) (λ i,
      on (pair_ (sub_ fst_ (row_ i)) (sub_ snd_ (row_ i))) op).

Definition operator_add_assign :=
  elementwise_assign vec.operator_add_assign.
Definition operator_sub_assign :=
  elementwise_assign vec.operator_sub_assign.

(** *** Division by a scalar *)

(** The member functions of basic_matrix<T> that a call [other.name()]
    without arguments can name where a [size_t] is wanted: the class
    declares [rows] and [columns] ([status] returns a scoped enumeration
    and [to_string_status] a string). *)
Definition size_member (name : String.string)
    : option (method (basic_matrix T) nat) :=
  if String.eqb name "rows"%string then Some rows
  else if String.eqb name "columns"%string then Some columns
  else None.

(** [friend operator/(const basic_matrix<T> &other, const T k)]. The
    bound of its loop is [other.size()]. The function is a member of a
    template and is compiled when a program uses it: there is a function
    only if the class declares the member that the call names, whatever
    the divisor. *)
Definition operator_div
    : option (T → method (basic_matrix T) (basic_matrix T)) :=
  size ← size_member "size"%string;
  Some (λ k,
    matrix <- copy ;;
    if num_eqb k num_zero then ret (with_Status DIVIDED_ZERO matrix)
    else
      n <- size ;;
      r <- with_local matrix
             (for_ n (λ i,
                t <- on (outer_ (row_ i)) (vec.operator_div k) ;;
                with_temp t
                  (on (pair_ (outer_ (sub_ local_ (row_ i))) local_)
                      vec.operator_assign))) ;;
      ret r.2).

(** [operator/=(const T k)] *)
Definition operator_div_assign (k : T) : method (basic_matrix T) () :=
  if num_eqb k num_zero then modify (with_Status DIVIDED_ZERO)
  else
    this <- get ;;
    for_ (_Rows this) (λ i, on (row_ i) (vec.operator_div_assign k)).

(** *** Product *)

(** The test [a._Rows != b._Columns && a._Columns != b._Rows]. *)
Definition incompatible
    : method (basic_matrix T * basic_matrix T) bool :=
  a <- on_fst get ;;
  cb <- on_snd columns_value ;;
  and_then (negb (_Rows a =? cb))
    (ca <- on_fst columns_value ;;
     b <- on_snd get ;;
     ret (negb (ca =? _Rows b))).

(** The dimensions of the product: [(a._Rows, b._Columns)] if
    [a._Rows >= b._Columns], else [(a._Columns, b._Rows)]. *)
Definition product_size
    : method (basic_matrix T * basic_matrix T) (nat * nat) :=
  a <- on_fst get ;;
  cb <- on_snd columns_value ;;
  if cb <=? _Rows a then ret (_Rows a, cb)
  else
    ca <- on_fst columns_value ;;
    b <- on_snd get ;;
    ret (ca, _Rows b).

(** The statement [matrix(row, col) += a(row, inner) * b(inner, col)]
    in the scope [(matrix, (a, b))], where [call_a] is the overload of
    [operator()] that the left factor takes. The product is evaluated
    before the left operand of [+=]. *)
Definition multiply_add
    (call_a : nat → nat → method (basic_matrix T) (nat * nat))
    (row col inner : nat)
    : method (basic_matrix T * (basic_matrix T * basic_matrix T)) () :=
  ra <- on (outer_ fst_) (call_a row inner) ;;
  rb <- on (outer_ snd_) (operator_call_const inner col) ;;
  x <- on (outer_ fst_) (read ra) ;;
  y <- on (outer_ snd_) (read rb) ;;
  d <- on local_ (operator_call row col) ;;
  z <- on local_ (read d) ;;
  on local_ (write d (num_add z (num_mul x y))).

(** The three nested loops around it; the innermost one is bounded by
    [rows]. *)
Definition accumulate
    (call_a : nat → nat → method (basic_matrix T) (nat * nat))
    (rows columns : nat)
    : method (basic_matrix T * (basic_matrix T * basic_matrix T)) () :=
  for_ rows (λ row,
    for_ columns (λ col,
      for_ rows (λ inner, multiply_add call_a row col inner))).

(** [friend operator*(lhs, rhs)]. One [return] gives a temporary and
    the other the local [matrix], so the local cannot be built in the
    caller's object: [return matrix;] makes that object with the copy
    constructor (the class declares no move constructor), and the local
    ends with the call. *)
Definition operator_mul
    : method (basic_matrix T * basic_matrix T) (basic_matrix T) :=
  bad <- incompatible ;;
  if bad then lift_option (basic_matrix_fill 1 1 num_zero)
  else
    size <- product_size ;;
    matrix <- lift_option (basic_matrix_fill size.1 size.2 num_zero) ;;
    with_temp matrix
      (accumulate operator_call_const size.1 size.2 ;;;
       on local_ copy).

(** [operator*=(other)], on [(this, other)] *)
Definition operator_mul_assign
    : method (basic_matrix T * basic_matrix T) () :=
  bad <- incompatible ;;
  if bad then ret ()
  else
    size <- product_size ;;
    matrix <- lift_option (basic_matrix_fill size.1 size.2 num_zero) ;;
    r <- with_local matrix (accumulate operator_call size.1 size.2) ;;
    with_temp r.2 (on (pair_ (outer_ fst_) local_) operator_assign).

(** *** Comparisons *)

(** [friend operator==(lhs, rhs)] *)
Definition operator_eq
    : method (basic_matrix T * basic_matrix T) bool :=
  mismatch <- both_differ ;;
  if mismatch then ret false
  else
    n <- on_fst rows ;;
    r <- for_return n (λ row,
           b <- on (pair_ (sub_ fst_ (row_ row)) (sub_ snd_ (row_ row)))
                   vec.operator_ne ;;
           ret (if b then Some false else None)) ;;
    ret (default true r).

(** [friend operator!=(lhs, rhs)] *)
Definition operator_ne
    : method (basic_matrix T * basic_matrix T) bool :=
  b <- operator_eq ;; ret (negb b).

(** The sum of the sums of the rows. *)
Definition total : method (basic_matrix T) T :=
  n <- rows ;;
  r <- with_local (num_zero : T)
         (for_ n (λ row,
            x <- on (outer_ (row_ row)) vec.sum ;;
            on local_ (modify (λ sum, num_add sum x)))) ;;
  ret r.2.

(** [friend operator<(lhs, rhs)] *)
Definition operator_lt
    : method (basic_matrix T * basic_matrix T) bool :=
  sum1 <- on_fst total ;;
  sum2 <- on_snd total ;;
  ret (num_ltb sum1 sum2).

(** [friend operator>(lhs, rhs)]: [rhs < lhs] *)
Definition operator_gt
    : method (basic_matrix T * basic_matrix T) bool :=
  swap_args operator_lt.

(** [friend operator<=(lhs, rhs)]: [!(lhs > rhs)] *)
Definition operator_le
    : method (basic_matrix T * basic_matrix T) bool :=
  b <- operator_gt ;; ret (negb b).

(** [friend operator>=(lhs, rhs)]: [!(lhs < rhs)] *)
Definition operator_ge
    : method (basic_matrix T * basic_matrix T) bool :=
  b <- operator_lt ;; ret (negb b).

End methods.
End mat.

(** * Specification predicates *)

Section predicates.
Context {T : Type}.

(** The vector owns the buffer [buf], which has its length. *)
Definition vec_holds (v : vec.basic_vector T) (buf : list T) : Prop :=
  vec._Allocator v = Some buf ∧ length buf = vec._Length v.

(** The vector owns a buffer of [n] cells and has length [n]. *)
Definition vec_sized (n : nat) (v : vec.basic_vector T) : Prop :=
  vec._Length v = n ∧ ∃ buf, vec_holds v buf.

(** Two vectors that differ at most in their status. *)
Definition vec_same_cells (v w : vec.basic_vector T) : Prop :=
  vec._Length v = vec._Length w ∧ vec._Allocator v = vec._Allocator w.

(** The matrix has [r] rows, each a vector of [c] cells, and its
    dimension members are [r] and [c]. *)
Definition mat_shape (r c : nat) (m : mat.basic_matrix T) : Prop :=
  mat._Rows m = r ∧ mat._Columns m = Some c ∧
  length (mat._Allocator m) = r ∧ Forall (vec_sized c) (mat._Allocator m).

(** The invariant of section 3 of the specification: every row vector
    has the length [columnCount]. *)
Definition rows_match_columns (m : mat.basic_matrix T) : Prop :=
  ∃ c, mat._Columns m = Some c ∧
       Forall (λ row, vec._Length row = c) (mat._Allocator m).

(** The cell [(i, j)] of the matrix, read directly. *)
Definition entry (m : mat.basic_matrix T) (i j : nat) : option T :=
  row ← mat._Allocator m !! i; buf ← vec._Allocator row; buf !! j.
End predicates.

(** The quotients of the cells of [buf] by a divisor [k]. *)
Definition quotients {T} `{number T} (k : T) (buf : list T) : list T :=
  (λ i, default num_zero (buf !! i ≫= λ x, num_div x k))
    <$> seq 0 (length buf).

(** A row as a constructor of matrices leaves it after assigning to a
    default-constructed vector: length and cells of the source, status
    GOOD_ALLOCATOR. *)
Definition fresh_row {T} (r : vec.basic_vector T) : vec.basic_vector T :=
  vec.mk (vec._Length r) (vec._Allocator r) GOOD_ALLOCATOR.

(** A row after [/=] by a divisor [k]: its cells divided, the rest as it
    was. *)
Definition divided_row {T} `{number T} (k : T) (r : vec.basic_vector T)
    : vec.basic_vector T :=
  vec.mk (vec._Length r) (quotients k <$> vec._Allocator r) (vec._Status r).

(** The six comparison operators of each class. *)
Definition vector_comparisons {T} `{number T}
    : list (method (vec.basic_vector T * vec.basic_vector T) bool) :=
  [vec.operator_eq; vec.operator_ne; vec.operator_lt; vec.operator_gt;
   vec.operator_le; vec.operator_ge].

Definition matrix_comparisons {T} `{number T}
    : list (method (mat.basic_matrix T * mat.basic_matrix T) bool) :=
  [mat.operator_eq; mat.operator_ne; mat.operator_lt; mat.operator_gt;
   mat.operator_le; mat.operator_ge].

(** The value of the expression [m(i, j)]: the element designated by the
    reference that the [const] overload of [operator()] returns. *)
Definition value_at {T} `{number T} (m : mat.basic_matrix T) (i j : nat)
    : option T :=
  fst <$> (r <- mat.operator_call_const i j ;; mat.read r) m.

(** [a 0 * b 0 + ... + a (n-1) * b (n-1)], accumulated from zero in this
    order. *)
Definition sum_of_products {T} `{number T} (a b : nat → T) (n : nat) : T :=
  foldl (λ acc inner, num_add acc (num_mul (a inner) (b inner)))
        num_zero (seq 0 n).

(** The matrix with [c] columns whose rows hold [cells], all status
    members GOOD_ALLOCATOR. *)
Definition grid {T} (c : nat) (cells : list (list T)) : mat.basic_matrix T :=
  mat.mk (length cells) (Some c)
         ((λ buf, vec.mk c (Some buf) GOOD_ALLOCATOR) <$> cells)
         GOOD_ALLOCATOR.

(** Where [operator()] sends the indices [(i, j)] on a matrix of [rn]
    rows and [cn] columns, neither zero: a row index out of range goes to
    the last cell of the matrix, a column index out of range to the last
    cell of the row. *)
Definition clamp (rn cn i j : nat) : nat * nat :=
  if i <? rn then (i, if j <? cn then j else cn - 1) else (rn - 1, cn - 1).

(** The cell that [m(i, j)] designates on such a matrix. *)
Definition cell {T} `{number T} (m : mat.basic_matrix T) (rn cn i j : nat)
    : T :=
  default num_zero (entry m (clamp rn cn i j).1 (clamp rn cn i j).2).

(** [m] has the shape and the cells of [m0]. *)
Definition mat_like {T} (m0 : mat.basic_matrix T) (rn cn : nat)
    (m : mat.basic_matrix T) : Prop :=
  mat_shape rn cn m ∧ ∀ a b, entry m a b = entry m0 a b.

(** A vector that owns a buffer of its length. *)
Definition vec_allocated {T} (v : vec.basic_vector T) : Prop :=
  ∃ buf, vec_holds v buf.

(** A computation that leaves the part [f] of the objects in scope as it
    found it, whenever it returns; with [f] the identity, a computation
    that changes nothing. *)
Definition preserves {St X A} (f : St → X) (m : method St A) : Prop :=
  ∀ s a s', m s = Some (a, s') → f s' = f s.

(** A path that gives back the object when the sub-object it found is put
    back unchanged. *)
Definition lawful {St P} (p : path St P) : Prop :=
  ∀ s o, view p s = Some o → update p o s = s.

(** A computation that keeps the invariant [P] of the objects in scope:
    if [P] holds before the call and the call returns, [P] holds after
    it. *)
Definition keeps {St A} (P : St → Prop) (m : method St A) : Prop :=
  ∀ s a s', P s → m s = Some (a, s') → P s'.

(** [Q] of the first, respectively of the second, of two objects in
    scope. *)
Definition of_fst {St1 St2} (Q : St1 → Prop) : St1 * St2 → Prop :=
  λ s, Q s.1.

Definition of_snd {St1 St2} (Q : St2 → Prop) : St1 * St2 → Prop :=
  λ s, Q s.2.

(** The value of the expression [v[i]]: the call of [operator[]] and the
    read through the reference it returns. *)
Definition index_value {T} (i : nat) : method (vec.basic_vector T) T :=
  s <- vec.operator_index i ;; vec.read s.

(** The statement [v[i] = x]. *)
Definition index_store {T} (i : nat) (x : T) : method (vec.basic_vector T) () :=
  s <- vec.operator_index i ;; vec.write s x.

(** The value of [v.at(i)]. *)
Definition at_value {T} (i : nat) : method (vec.basic_vector T) T :=
  s <- vec.at_ i ;; vec.read s.

(** The cells of a row; none for a vector without a buffer. *)
Definition row_cells {T} (v : vec.basic_vector T) : list T :=
  default [] (vec._Allocator v).

(** The row that the vector operator [f] on the elements makes of two
    rows, with the status [st]. *)
Definition combined_row {T} (f : T → T → T) (st : STATUS)
    (a b : vec.basic_vector T) : vec.basic_vector T :=
  vec.mk (vec._Length a) (Some (zip_with f (row_cells a) (row_cells b))) st.

(** The sum of the sums of the rows, from the first row to the last. *)
Definition matrix_total {T} `{number T} (m : mat.basic_matrix T) : T :=
  foldl (λ acc row, num_add acc (foldl num_add num_zero (row_cells row)))
        num_zero (mat._Allocator m).

(** A status that records a fault. *)
Definition faulty (st : STATUS) : Prop := st ≠ GOOD_ALLOCATOR.

(** Every cell of [s] within [rn] rows and [cn] columns holds [f] of
    the cells of [a] and [b] at its place. *)
Definition pointwise {T} (f : T → T → T) (rn cn : nat)
    (a b s : mat.basic_matrix T) : Prop :=
  ∀ i j, i < rn → j < cn →
    ∃ x y, entry a i j = Some x ∧ entry b i j = Some y ∧
           entry s i j = Some (f x y).

(** Each of the first [n] rows of [a] holds the cells of the row of [b]
    at its place, in some order. *)
Definition rows_permuted {T} (n : nat) (a b : mat.basic_matrix T) : Prop :=
  ∀ i, i < n →
    ∃ ra rb, mat._Allocator a !! i = Some ra ∧
             mat._Allocator b !! i = Some rb ∧
             row_cells ra ≡ₚ row_cells rb.

(** The status members of the rows, from the first row to the last. *)
Definition row_statuses {T} (m : mat.basic_matrix T) : list STATUS :=
  vec._Status <$> mat._Allocator m.

(** * Properties *)

(** ** Loops *)

Ltac unfold_method :=
  unfold with_temp, with_local, on_fst, on_snd, swap_args, on, lift_option,
    modify, put, get, bind, ret;
  simpl.

Tactic Notation "unfold_method" "in" hyp(H) :=
  unfold with_temp, with_local, on_fst, on_snd, swap_args, on, lift_option,
    modify, put, get, bind, ret in H;
  simpl in H.

Section loops.
Context {St : Type}.

(** The invariant rule for [for_from]: the loop runs to its end, and
    what held before the first round holds after the last. *)
Lemma for_from_inv (I : nat → St → Prop) (body : nat → method St ())
    count start s :
  I start s →
  (∀ i s, start ≤ i < start + count → I i s →
     ∃ s', body i s = Some ((), s') ∧ I (S i) s') →
  ∃ s', for_from start count body s = Some ((), s') ∧ I (start + count) s'.
Proof.
  revert start s. induction count as [|count IH]; intros start s Hs Hbody.
  - exists s. split; [reflexivity|]. by rewrite Nat.add_0_r.
  - destruct (Hbody start s) as (s1 & Hrun & Hs1); [lia|done|].
    destruct (IH (S start) s1) as (s2 & Hrest & Hs2); [done| |].
    + intros i s' Hi. apply Hbody. lia.
    + exists s2. split.
      * simpl. unfold bind. by rewrite Hrun.
      * by replace (start + S count) with (S start + count) by lia.
Qed.

Lemma for_inv (I : nat → St → Prop) (body : nat → method St ()) n s :
  I 0 s →
  (∀ i s, i < n → I i s → ∃ s', body i s = Some ((), s') ∧ I (S i) s') →
  ∃ s', for_ n body s = Some ((), s') ∧ I n s'.
Proof.
  intros H0 Hbody. apply (for_from_inv I body n 0 s H0).
  intros i s' Hi. apply Hbody. lia.
Qed.

(** A loop whose round [i] stores [g i] in cell [i] of an array that is
    part of the state leaves the array [g 0, ..., g (n-1)]. The round
    may rely on the cells below [i] being written and the others still
    as at the start. *)
Lemma for_tabulate {E : Type} (arr : list E → St) (g : nat → E)
    (body : nat → method St ()) n (cells : list E) :
  length cells = n →
  (∀ i, i < n →
     body i (arr ((g <$> seq 0 i) ++ drop i cells))
     = Some ((), arr (<[i:=g i]> ((g <$> seq 0 i) ++ drop i cells)))) →
  for_ n body (arr cells) = Some ((), arr (g <$> seq 0 n)).
Proof.
  intros Hlen Hbody.
  destruct (for_inv
    (λ i s, s = arr ((g <$> seq 0 i) ++ drop i cells)) body n (arr cells))
    as (s' & Hrun & Hs').
  - by rewrite drop_0.
  - intros i s Hi ->. eexists. split; [by apply Hbody|].
    f_equal. rewrite seq_S, fmap_app. simpl.
    rewrite insert_app_r_alt by (rewrite length_fmap, length_seq; lia).
    rewrite length_fmap, length_seq, Nat.sub_diag.
    destruct (lookup_lt_is_Some_2 cells i) as [c Hc]; [lia|].
    rewrite (drop_S _ _ _ Hc). simpl. by rewrite <- app_assoc.
  - rewrite Hrun, Hs'. do 3 f_equal.
    rewrite drop_ge by lia. by rewrite app_nil_r.
Qed.

(** [for_tabulate] for a state that is described by a relation: the
    rounds may change the rest of the state as long as [arr] holds. *)
Lemma for_tabulate_rel {E : Type} (arr : list E → St → Prop) (g : nat → E)
    (body : nat → method St ()) n (cells : list E) s :
  length cells = n →
  arr cells s →
  (∀ i s, i < n →
     arr ((g <$> seq 0 i) ++ drop i cells) s →
     ∃ s', body i s = Some ((), s') ∧
           arr (<[i:=g i]> ((g <$> seq 0 i) ++ drop i cells)) s') →
  ∃ s', for_ n body s = Some ((), s') ∧ arr (g <$> seq 0 n) s'.
Proof.
  intros Hlen Hs Hbody.
  destruct (for_inv
    (λ i s, arr ((g <$> seq 0 i) ++ drop i cells) s) body n s)
    as (s' & Hrun & Hs').
  - by rewrite drop_0.
  - intros i s1 Hi Hs1.
    destruct (Hbody i s1 Hi Hs1) as (s2 & Hrun & Hs2).
    exists s2. split; [done|].
    rewrite seq_S, fmap_app. simpl.
    rewrite insert_app_r_alt in Hs2
      by (rewrite length_fmap, length_seq; lia).
    rewrite length_fmap, length_seq, Nat.sub_diag in Hs2.
    destruct (lookup_lt_is_Some_2 cells i) as [c Hc]; [lia|].
    rewrite (drop_S _ _ _ Hc) in Hs2. simpl in Hs2.
    by rewrite <- app_assoc.
  - exists s'. split; [done|].
    rewrite drop_ge in Hs' by lia. by rewrite app_nil_r in Hs'.
Qed.

(** A loop with [return]: [I] holds between the rounds and [Q] of the
    result, whether a round returned it or the loop ran to its end. *)
Lemma for_return_from_inv {R} (I : nat → St → Prop)
    (Q : option R → St → Prop)
    (body : nat → method St (option R)) count start s :
  I start s →
  (∀ i s, start ≤ i < start + count → I i s →
     ∃ r s', body i s = Some (r, s') ∧ (r = None → I (S i) s') ∧
             (∀ x, r = Some x → Q (Some x) s')) →
  (∀ s, I (start + count) s → Q None s) →
  ∃ r s', for_return_from start count body s = Some (r, s') ∧ Q r s'.
Proof.
  revert start s.
  induction count as [|count IH]; intros start s Hs Hbody Hend.
  - exists None, s. split; [reflexivity|]. apply Hend.
    by rewrite Nat.add_0_r.
  - destruct (Hbody start s) as (r & s1 & Hrun & Hnone & Hsome); [lia|done|].
    destruct r as [x|].
    + exists (Some x), s1. split; [|by apply Hsome].
      simpl. unfold bind. by rewrite Hrun.
    + destruct (IH (S start) s1) as (r2 & s2 & Hrest & Hs2).
      * by apply Hnone.
      * intros i s' Hi. apply Hbody. lia.
      * intros s' Hs'. apply Hend.
        by replace (start + S count) with (S start + count) by lia.
      * exists r2, s2. split; [|done].
        simpl. unfold bind. by rewrite Hrun.
Qed.

Lemma for_return_inv {R} (I : nat → St → Prop) (Q : option R → St → Prop)
    (body : nat → method St (option R)) n s :
  I 0 s →
  (∀ i s, i < n → I i s →
     ∃ r s', body i s = Some (r, s') ∧ (r = None → I (S i) s') ∧
             (∀ x, r = Some x → Q (Some x) s')) →
  (∀ s, I n s → Q None s) →
  ∃ r s', for_return n body s = Some (r, s') ∧ Q r s'.
Proof.
  intros H0 Hbody Hend.
  apply (for_return_from_inv I Q body n 0 s H0); [|done].
  intros i s' Hi. apply Hbody. lia.
Qed.
End loops.

(** ** Vectors: constructors and element access *)

Lemma size_sub_1 n : 1 ≤ n → size_sub n 1 = n - 1.
Proof.
  intros Hn. unfold size_sub.
  destruct (Nat.leb_spec 1 n); [done|lia].
Qed.

Lemma tabulate_lookup {E} (d : E) (l : list E) n :
  length l = n → (λ i, default d (l !! i)) <$> seq 0 n = l.
Proof.
  intros <-. apply list_eq. intros i. rewrite list_lookup_fmap.
  destruct (decide (i < length l)) as [Hi|Hi].
  - rewrite lookup_seq_lt by done. simpl.
    destruct (lookup_lt_is_Some_2 l i Hi) as [x ->]. done.
  - rewrite lookup_seq_ge by lia. simpl. symmetry.
    apply lookup_ge_None. lia.
Qed.

Lemma tabulate_const {E} (x : E) n : (λ _, x) <$> seq 0 n = replicate n x.
Proof.
  apply list_eq. intros i. rewrite list_lookup_fmap.
  destruct (decide (i < n)) as [Hi|Hi].
  - rewrite lookup_seq_lt by done. simpl. symmetry.
    by apply lookup_replicate_2.
  - rewrite lookup_seq_ge by lia. simpl. symmetry.
    apply lookup_ge_None. rewrite length_replicate. lia.
Qed.

Section vector_access.
Context {T : Type} `{number T}.
Implicit Types (v this other : vec.basic_vector T) (buf cells : list T).
Implicit Types (x : T).

Lemma read_holds v buf i x :
  vec._Allocator v = Some buf → buf !! i = Some x →
  vec.read i v = Some (x, v).
Proof. intros Hb Hx. unfold vec.read. by rewrite Hb, Hx. Qed.

Lemma read_mk n buf st i x :
  buf !! i = Some x →
  vec.read i (vec.mk n (Some buf) st) = Some (x, vec.mk n (Some buf) st).
Proof. by apply read_holds. Qed.

Lemma write_mk n buf st i x :
  i < length buf →
  vec.write i x (vec.mk n (Some buf) st)
  = Some ((), vec.mk n (Some (<[i:=x]> buf)) st).
Proof.
  intros Hi. unfold vec.write. simpl. by rewrite decide_True by done.
Qed.

Lemma operator_index_lt v i :
  i < vec._Length v → vec.operator_index i v = Some (i, v).
Proof.
  intros Hi. unfold vec.operator_index. unfold_method.
  destruct (Nat.ltb_spec i (vec._Length v)); [done|lia].
Qed.

Lemma operator_index_ge v i :
  vec._Length v ≤ i →
  vec.operator_index i v
  = Some (size_sub (vec._Length v) 1, vec.with_Status BOUND_ARRAY v).
Proof.
  intros Hi. unfold vec.operator_index. unfold_method.
  destruct (Nat.ltb_spec i (vec._Length v)); [lia|done].
Qed.

Lemma operator_index_const_eq v i :
  vec.operator_index_const i v = vec.operator_index i v.
Proof. reflexivity. Qed.

Lemma at_const_eq v i : vec.at_const i v = vec.at_ i v.
Proof. reflexivity. Qed.

(** The filling loop of the sized constructors. *)
Lemma fill_loop n x st cells :
  length cells = n →
  for_ n (λ i, vec.write i x) (vec.mk n (Some cells) st)
  = Some ((), vec.mk n (Some (replicate n x)) st).
Proof.
  intros Hlen. rewrite <- tabulate_const.
  apply (for_tabulate (λ c, vec.mk n (Some c) st) (λ _, x)); [done|].
  intros i Hi. apply write_mk.
  rewrite length_app, length_fmap, length_seq, length_drop. lia.
Qed.

Lemma basic_vector_default_eq :
  vec.basic_vector_default
  = Some (vec.mk 1 (Some [num_zero : T]) GOOD_ALLOCATOR).
Proof. reflexivity. Qed.

Lemma basic_vector_sized_eq n :
  vec.basic_vector_sized n
  = Some (vec.mk n (Some (replicate n (num_zero : T))) GOOD_ALLOCATOR).
Proof.
  unfold vec.basic_vector_sized. rewrite fill_loop; [done|].
  apply length_replicate.
Qed.

Lemma basic_vector_value_eq n (x : T) :
  vec.basic_vector_value n x
  = Some (vec.mk n (Some (replicate n x)) GOOD_ALLOCATOR).
Proof.
  unfold vec.basic_vector_value. rewrite fill_loop; [done|].
  apply length_replicate.
Qed.

Lemma basic_vector_long_nonneg n z :
  (0 <= z)%Z →
  vec.basic_vector_long n z
  = Some (vec.mk n (Some (replicate n (num_of_long z : T))) GOOD_ALLOCATOR).
Proof.
  intros Hz. unfold vec.basic_vector_long.
  destruct (Z.ltb_spec z 0); [lia|].
  rewrite fill_loop; [done|]. apply length_replicate.
Qed.

Lemma basic_vector_long_neg n z :
  (z < 0)%Z →
  vec.basic_vector_long (T:=T) n z = Some (vec.mk n None BAD_INITIALIZED).
Proof.
  intros Hz. unfold vec.basic_vector_long.
  destruct (Z.ltb_spec z 0); [done|lia].
Qed.

(** The copy constructor duplicates length and cells; the status of the
    copy is the default one and the source is left as it was. *)
Lemma copy_holds v buf :
  vec_holds v buf →
  vec.copy v = Some (vec.mk (vec._Length v) (Some buf) GOOD_ALLOCATOR, v).
Proof.
  intros [Hb Hlen]. unfold vec.copy, vec.length. unfold_method.
  rewrite (for_tabulate
    (λ c, (vec.mk (vec._Length v) (Some c) GOOD_ALLOCATOR, v))
    (λ i, default num_zero (buf !! i))).
  - by rewrite tabulate_lookup.
  - apply length_replicate.
  - intros i Hi. unfold_method.
    destruct (lookup_lt_is_Some_2 buf i) as [x Hx]; [lia|].
    rewrite (read_holds _ _ _ _ Hb Hx). simpl.
    rewrite write_mk; [by rewrite Hx|]. unfold vec.new_array.
    rewrite length_app, length_fmap, length_seq, length_drop, length_replicate.
    lia.
Qed.

(** Assignment gives [this] the length and the cells of [other], keeps
    the status of [this] and leaves [other] as it was. *)
Lemma operator_assign_holds this other buf :
  is_Some (vec._Allocator this) → vec_holds other buf →
  vec.operator_assign (this, other)
  = Some ((), (vec.mk (vec._Length other) (Some buf) (vec._Status this),
               other)).
Proof.
  intros [old Hold] [Hb Hlen].
  unfold vec.operator_assign, vec.delete_array, vec.length. unfold_method.
  rewrite Hold. simpl.
  rewrite (for_tabulate
    (λ c, (vec.mk (vec._Length other) (Some c) (vec._Status this), other))
    (λ i, default num_zero (buf !! i))).
  - by rewrite tabulate_lookup.
  - apply length_replicate.
  - intros i Hi. unfold_method.
    destruct (lookup_lt_is_Some_2 buf i) as [x Hx]; [lia|].
    rewrite operator_index_const_eq, operator_index_lt by done. simpl.
    rewrite (read_holds _ _ _ _ Hb Hx). simpl.
    rewrite write_mk; [by rewrite Hx|]. unfold vec.new_array.
    rewrite length_app, length_fmap, length_seq, length_drop, length_replicate.
    lia.
Qed.
End vector_access.

(** ** The element types satisfy the laws *)

Global Instance int_laws : number_laws int.
Proof.
  split.
  - intros [x] [y]. simpl. rewrite Z.eqb_eq. split; congruence.
  - intros [x]. simpl. apply Z.ltb_irrefl.
  - intros [x] [y] [z]. simpl. rewrite !Z.ltb_lt. lia.
  - intros [x] [y]. simpl. rewrite !Z.ltb_ge. intros. f_equal. lia.
  - intros [x]. reflexivity.
  - split; [simpl; lia|reflexivity].
Qed.

Global Instance unsigned_laws : number_laws unsigned.
Proof.
  split.
  - intros [x] [y]. simpl. rewrite Z.eqb_eq. split; congruence.
  - intros [x]. simpl. apply Z.ltb_irrefl.
  - intros [x] [y] [z]. simpl. rewrite !Z.ltb_lt. lia.
  - intros [x] [y]. simpl. rewrite !Z.ltb_ge. intros. f_equal. lia.
  - intros [x]. reflexivity.
  - split; [simpl; lia|reflexivity].
Qed.

(** ** Construction with a negative fill value *)

(** On a negative value the [long] constructor returns before it has a
    buffer, whatever the length; no cell can be read afterwards. *)
Lemma basic_vector_long_neg_unreadable {T} `{number T} n z i :
  (z < 0)%Z →
  ∃ v : vec.basic_vector T,
    vec.basic_vector_long n z = Some v ∧ vec._Allocator v = None ∧
    vec._Status v = BAD_INITIALIZED ∧
    (s <- vec.operator_index i ;; vec.read s) v = None.
Proof.
  intros Hz. eexists. split; [by apply basic_vector_long_neg|].
  split_and!; [done..|].
  unfold vec.operator_index. unfold_method.
  by destruct (i <? n).
Qed.

(** C2. An unsigned vector of length 5 built with the fill value -1 has
    the status BAD_INITIALIZED, but it is not zero-filled: the constructor
    never gives it a buffer, and reading any index in [0, 5) through
    operator[] has no defined result (it is not 0). *)
Theorem unsigned_negative_fill_has_no_buffer :
  vec.basic_vector_long (T:=unsigned) 5 (-1)
  = Some (vec.mk 5 None BAD_INITIALIZED) ∧
  ∀ i, i < 5 →
    (s <- vec.operator_index i ;; vec.read s)
      (vec.mk (T:=unsigned) 5 None BAD_INITIALIZED) = None.
Proof.
  split; [reflexivity|].
  intros i Hi. do 5 (destruct i as [|i]; [reflexivity|]). lia.
Qed.

(** ** Indexing *)

(** C3, as the specification states it for [at]: an index past the end is
    redirected to the last element and flagged. It fails on a vector of
    length 3 at index 5: [at] designates cell 5 and leaves the status
    GOOD_ALLOCATOR. *)
Lemma at_is_not_clamped :
  ¬ (∀ (v : vec.basic_vector int) (index : nat),
       1 ≤ vec._Length v → vec._Length v ≤ index →
       vec.at_ index v
       = Some (vec._Length v - 1, vec.with_Status BOUND_ARRAY v)).
Proof.
  intros Hclaim.
  specialize (Hclaim (vec.mk 3 (Some [Int 1; Int 2; Int 3]) GOOD_ALLOCATOR) 5).
  simpl in Hclaim. discriminate Hclaim; lia.
Qed.

(** C3 (amended). On a vector of length N >= 1, both overloads of
    operator[] return the cell of an index in [0, N) and leave the status
    alone, and for an index >= N set the status to BOUND_ARRAY and return
    the cell N-1, the same reference as for index N-1. Both overloads of
    at return the cell of the index they are given and never change the
    status: an index >= N is neither redirected nor flagged. *)
Theorem index_clamps_and_at_does_not {T} `{number T}
    (v : vec.basic_vector T) (index : nat) :
  1 ≤ vec._Length v →
  (index < vec._Length v →
     vec.operator_index index v = Some (index, v) ∧
     vec.operator_index_const index v = Some (index, v)) ∧
  (vec._Length v ≤ index →
     vec.operator_index index v
     = Some (vec._Length v - 1, vec.with_Status BOUND_ARRAY v) ∧
     vec.operator_index_const index v
     = Some (vec._Length v - 1, vec.with_Status BOUND_ARRAY v) ∧
     fst <$> vec.operator_index index v
     = fst <$> vec.operator_index (vec._Length v - 1) v) ∧
  vec.at_ index v = Some (index, v) ∧
  vec.at_const index v = Some (index, v).
Proof.
  intros Hn. split_and!; [|  |done..].
  - intros Hi. split; exact (operator_index_lt v index Hi).
  - intros Hi.
    assert (vec.operator_index index v
            = Some (vec._Length v - 1, vec.with_Status BOUND_ARRAY v)) as Hge.
    { by rewrite operator_index_ge, size_sub_1. }
    split_and!; [exact Hge..|].
    rewrite Hge. by rewrite operator_index_lt by lia.
Qed.

Lemma index_clamps_and_at_does_not_witness :
  let v := vec.mk 3 (Some [Int 1; Int 2; Int 3]) GOOD_ALLOCATOR in
  vec.operator_index 5 v = Some (2, vec.with_Status BOUND_ARRAY v) ∧
  vec.at_ 5 v = Some (5, v).
Proof.
  intros v.
  destruct (index_clamps_and_at_does_not v 5) as (_ & Hge & Hat & _).
  - simpl. lia.
  - split; [|exact Hat]. apply Hge. simpl. lia.
Defined.

(** ** Sum and difference of vectors of different lengths *)

Section vector_mismatch.
Context {T : Type} `{number T}.
Implicit Types (lhs rhs this other : vec.basic_vector T).


End vector_mismatch.



(** ** set *)

(** C9. On a vector that owns a buffer of its length, set(value, i) with
    i < length stores value in cell i and leaves every other cell, the
    length and the status as they were. set has no bounds check: an index
    at or past the length is written outside the buffer, which has no
    defined result. Whatever the vector and the index, a call of set that
    returns has left the status and the length unchanged. *)
Theorem set_stores_and_keeps_status {T} `{number T}
    (v : vec.basic_vector T) (buf : list T) (value : T) (i : nat) :
  vec_holds v buf →
  (i < vec._Length v →
     vec.set value i v
     = Some ((), vec.mk (vec._Length v) (Some (<[i:=value]> buf))
                        (vec._Status v)) ∧
     <[i:=value]> buf !! i = Some value ∧
     ∀ j, j ≠ i → <[i:=value]> buf !! j = buf !! j) ∧
  (vec._Length v ≤ i → vec.set value i v = None) ∧
  (∀ (w w' : vec.basic_vector T) (index : nat),
     vec.set value index w = Some ((), w') →
     vec._Status w' = vec._Status w ∧ vec._Length w' = vec._Length w).
Proof.
  intros [Hb Hlen]. split_and!.
  - intros Hi. split_and!.
    + unfold vec.set, vec.write. rewrite Hb.
      by rewrite decide_True by lia.
    + apply list_lookup_insert_eq. lia.
    + intros j Hj. by apply list_lookup_insert_ne.
  - intros Hi. unfold vec.set, vec.write. rewrite Hb.
    by rewrite decide_False by lia.
  - intros w w' index. unfold vec.set, vec.write.
    destruct (vec._Allocator w) as [cells|]; [|done].
    case_decide; [|done]. by intros [= <-].
Qed.

Lemma set_stores_and_keeps_status_witness :
  let v := vec.mk 3 (Some [Int 1; Int 2; Int 3]) BOUND_ARRAY in
  vec.set (Int 9) 1 v
  = Some ((), vec.mk 3 (Some [Int 1; Int 9; Int 3]) BOUND_ARRAY) ∧
  vec.set (Int 9) 3 v = None.
Proof.
  intros v.
  destruct (set_stores_and_keeps_status v [Int 1; Int 2; Int 3] (Int 9) 1)
    as (Hin & _ & _); [by split|].
  destruct (set_stores_and_keeps_status v [Int 1; Int 2; Int 3] (Int 9) 3)
    as (_ & Hout & _); [by split|].
  split.
  - apply Hin. simpl. lia.
  - apply Hout. simpl. lia.
Defined.

(** ** Equality of vectors *)

Section vector_equality.
Context {T : Type} `{number_laws T}.
Implicit Types (lhs rhs v : vec.basic_vector T) (l r : list T).

Global Instance num_le_total : Total (vec.num_le (T:=T)).
Proof.
  intros x y. unfold vec.num_le.
  destruct (num_ltb y x) eqn:Hyx; [|by left].
  destruct (num_ltb x y) eqn:Hxy; [|by right].
  pose proof (num_ltb_trans _ _ _ Hxy Hyx) as Hxx.
  by rewrite num_ltb_irrefl in Hxx.
Qed.

Global Instance num_le_antisymm : AntiSymm (=) (vec.num_le (T:=T)).
Proof. intros x y Hxy Hyx. by apply num_ltb_total. Qed.

Global Instance num_le_trans : Transitive (vec.num_le (T:=T)).
Proof.
  intros x y z Hxy Hyz. unfold vec.num_le in *.
  destruct (num_ltb z x) eqn:Hzx; [|done].
  destruct (num_ltb x y) eqn:Hlt.
  - by rewrite (num_ltb_trans _ _ _ Hzx Hlt) in Hyz.
  - rewrite (num_ltb_total _ _ Hlt Hxy) in Hzx. by rewrite Hzx in Hyz.
Qed.

(** Sorting two buffers gives the same sequence exactly when they hold
    the same elements with the same multiplicities. *)
Lemma sorted_eq_iff_permutation l r :
  merge_sort vec.num_le l = merge_sort vec.num_le r ↔ l ≡ₚ r.
Proof.
  split.
  - intros Heq. rewrite <- (merge_sort_Permutation vec.num_le l).
    rewrite Heq. apply merge_sort_Permutation.
  - intros Hperm. apply (Sorted_unique vec.num_le).
    + apply Sorted_merge_sort, _.
    + apply Sorted_merge_sort, _.
    + by rewrite !merge_sort_Permutation.
Qed.

Lemma std_sort_mk n l st :
  length l = n →
  vec.std_sort n (vec.mk n (Some l) st)
  = Some ((), vec.mk n (Some (merge_sort vec.num_le l)) st).
Proof.
  intros Hlen. unfold vec.std_sort. simpl.
  rewrite decide_True by lia. unfold vec.with_buffer. simpl.
  rewrite take_ge, drop_ge by lia. by rewrite app_nil_r.
Qed.

(** The comparing loop of [operator==] on the two sorted copies. *)
Lemma compare_loop n l r st1 st2 (outer : vec.basic_vector T * vec.basic_vector T) :
  length l = n → length r = n →
  let s0 := ((vec.mk n (Some l) st1, vec.mk n (Some r) st2), outer) in
  ∃ res,
    for_return n (λ i,
      s1 <- on_fst (on_fst (vec.operator_index i)) ;;
      s2 <- on_fst (on_snd (vec.operator_index i)) ;;
      x <- on_fst (on_fst (vec.read s1)) ;;
      y <- on_fst (on_snd (vec.read s2)) ;;
      ret (if negb (num_eqb x y) then Some false else None)) s0
    = Some (res, s0) ∧
    ((res = None ∧ l = r) ∨ (res = Some false ∧ l ≠ r)).
Proof.
  intros Hl Hr s0.
  edestruct (for_return_inv
    (λ i s, s = s0 ∧ take i l = take i r)
    (λ res s, s = s0 ∧ ((res = None ∧ l = r) ∨ (res = Some false ∧ l ≠ r))))
    as (res & s' & Hrun & -> & Hres); last by eauto.
  - by rewrite !take_0.
  - intros i s Hi [-> Hpre].
    destruct (lookup_lt_is_Some_2 l i) as [x Hx]; [lia|].
    destruct (lookup_lt_is_Some_2 r i) as [y Hy]; [lia|].
    unfold_method.
    rewrite !operator_index_lt by done. simpl.
    rewrite (read_mk _ _ _ _ _ Hx). simpl.
    rewrite (read_mk _ _ _ _ _ Hy). simpl.
    eexists _, _. split; [reflexivity|].
    destruct (num_eqb x y) eqn:Heq; simpl.
    + apply num_eqb_eq in Heq as ->. split; [|done].
      intros _. split; [done|].
      by rewrite (take_S_r _ _ _ Hx), (take_S_r _ _ _ Hy), Hpre.
    + split; [done|]. intros ? [= <-]. split; [done|]. right.
      split; [done|]. intros ->. rewrite Hx in Hy. injection Hy as ->.
      assert (num_eqb y y = true) as Hyy by by apply num_eqb_eq.
      by rewrite Hyy in Heq.
  - intros s [-> Hpre]. split; [done|]. left. split; [done|].
    by rewrite take_ge in Hpre by lia; rewrite take_ge in Hpre by lia.
Qed.

(** [operator==] returns, leaves both operands as they were, and its
    result is [true] exactly for buffers that are permutations of each
    other. *)
Lemma operator_eq_holds lhs rhs l r :
  vec_holds lhs l → vec_holds rhs r →
  ∃ b, vec.operator_eq (lhs, rhs) = Some (b, (lhs, rhs)) ∧
       (b = true ↔ l ≡ₚ r).
Proof.
  intros Hl Hr. pose proof Hl as [Hlb Hll]. pose proof Hr as [Hrb Hrl].
  unfold vec.operator_eq, vec.length. unfold_method.
  destruct (Nat.eqb_spec (vec._Length lhs) (vec._Length rhs)) as [Hlen|Hlen];
    simpl.
  - rewrite (copy_holds _ _ Hl), (copy_holds _ _ Hr). simpl.
    rewrite std_sort_mk by done. simpl.
    rewrite Hlen, std_sort_mk by done. simpl.
    edestruct (compare_loop (vec._Length lhs)
                 (merge_sort vec.num_le l) (merge_sort vec.num_le r)
                 GOOD_ALLOCATOR GOOD_ALLOCATOR (lhs, rhs))
      as (res & Hrun & Hres).
    { rewrite <- Hll. apply Permutation_length, merge_sort_Permutation. }
    { rewrite Hlen, <- Hrl.
      apply Permutation_length, merge_sort_Permutation. }
    rewrite <- Hlen. unfold_method in Hrun. rewrite Hrun. simpl.
    eexists. split; [reflexivity|].
    rewrite <- sorted_eq_iff_permutation.
    destruct Hres as [[-> ?]|[-> ?]]; simpl; split; done.
  - exists false. split; [done|]. split; [done|].
    intros Hperm. apply Permutation_length in Hperm. lia.
Qed.

Lemma operator_ne_holds lhs rhs l r :
  vec_holds lhs l → vec_holds rhs r →
  ∃ b, vec.operator_eq (lhs, rhs) = Some (b, (lhs, rhs)) ∧
       vec.operator_ne (lhs, rhs) = Some (negb b, (lhs, rhs)) ∧
       (b = true ↔ l ≡ₚ r).
Proof.
  intros Hl Hr.
  destruct (operator_eq_holds lhs rhs l r Hl Hr) as (b & Heq & Hb).
  exists b. split_and!; [done| |done].
  unfold vec.operator_ne. unfold_method.
  destruct (Nat.eqb_spec (vec._Length lhs) (vec._Length rhs)) as [Hlen|Hlen];
    simpl.
  - unfold bind. by rewrite Heq.
  - destruct b; [|done].
    destruct Hl as [_ Hll], Hr as [_ Hrl].
    assert (l ≡ₚ r) as Hperm by by apply Hb.
    apply Permutation_length in Hperm. lia.
Qed.
End vector_equality.

(** C7. For vectors that own buffers of their lengths, == returns false
    whenever the lengths differ, and returns true exactly when the two
    buffers hold the same multiset of elements (one is a permutation of the
    other), whatever the positions; != returns the negation of ==. Neither
    changes an operand. *)
Theorem vector_equality_is_multiset_equality {T} `{number_laws T}
    (lhs rhs : vec.basic_vector T) (l r : list T) :
  vec_holds lhs l → vec_holds rhs r →
  ∃ b, vec.operator_eq (lhs, rhs) = Some (b, (lhs, rhs)) ∧
       vec.operator_ne (lhs, rhs) = Some (negb b, (lhs, rhs)) ∧
       (vec._Length lhs ≠ vec._Length rhs → b = false) ∧
       (b = true ↔ l ≡ₚ r).
Proof.
  intros Hl Hr.
  destruct (operator_ne_holds lhs rhs l r Hl Hr) as (b & Heq & Hne & Hb).
  exists b. split_and!; [done..| |done].
  intros Hlen. destruct b; [|done].
  destruct Hl as [_ Hll], Hr as [_ Hrl].
  assert (l ≡ₚ r) as Hperm by by apply Hb.
  apply Permutation_length in Hperm. lia.
Qed.

Lemma vector_equality_is_multiset_equality_witness :
  let a := vec.mk 3 (Some [Int 1; Int 2; Int 3]) GOOD_ALLOCATOR in
  let b := vec.mk 3 (Some [Int 3; Int 2; Int 1]) GOOD_ALLOCATOR in
  let c := vec.mk 2 (Some [Int 1; Int 2]) GOOD_ALLOCATOR in
  vec.operator_eq (a, b) = Some (true, (a, b)) ∧
  vec.operator_eq (a, c) = Some (false, (a, c)) ∧
  vec.operator_ne (a, c) = Some (true, (a, c)).
Proof.
  intros a b c.
  destruct (vector_equality_is_multiset_equality a b
              [Int 1; Int 2; Int 3] [Int 3; Int 2; Int 1])
    as (x & Hab & _ & _ & Hx); [by split..|].
  destruct (vector_equality_is_multiset_equality a c
              [Int 1; Int 2; Int 3] [Int 1; Int 2])
    as (y & Hac & Hne & Hy & _); [by split..|].
  assert (x = true) as ->.
  { apply Hx. apply (Permutation_rev [Int 1; Int 2; Int 3]). }
  assert (y = false) as ->.
  { apply Hy. simpl. lia. }
  by split_and!.
Defined.

(** ** Computations that leave objects unchanged *)

Section frames.
Context {St X : Type} (f : St → X).

Lemma preserves_ret {A} (a : A) : preserves f (ret a).
Proof. by intros s a' s' [= _ <-]. Qed.

Lemma preserves_get : preserves f get.
Proof. by intros s a' s' [= _ <-]. Qed.

Lemma preserves_lift_option {A} (o : option A) : preserves f (lift_option o).
Proof. intros s a s'. unfold lift_option. destruct o; [|done]. by intros [= _ <-]. Qed.

Lemma preserves_bind {A B} (m : method St A) (k : A → method St B) :
  preserves f m → (∀ a, preserves f (k a)) → preserves f (bind m k).
Proof.
  intros Hm Hk s b s'. unfold bind.
  destruct (m s) as [[a s1]|] eqn:Hrun; [|done].
  intros Hrest. rewrite (Hk _ _ _ _ Hrest). by eapply Hm.
Qed.

Lemma preserves_for_from start count (body : nat → method St ()) :
  (∀ i, preserves f (body i)) → preserves f (for_from start count body).
Proof.
  intros Hbody. revert start.
  induction count as [|count IH]; intros start; simpl.
  - apply preserves_ret.
  - apply preserves_bind; [apply Hbody|]. intros _. apply IH.
Qed.

Lemma preserves_for n (body : nat → method St ()) :
  (∀ i, preserves f (body i)) → preserves f (for_ n body).
Proof. apply preserves_for_from. Qed.

Lemma preserves_for_return {R} n (body : nat → method St (option R)) :
  (∀ i, preserves f (body i)) → preserves f (for_return n body).
Proof.
  intros Hbody. unfold for_return. generalize 0 as start.
  induction n as [|n IH]; intros start; simpl.
  - apply preserves_ret.
  - apply preserves_bind; [apply Hbody|].
    intros [x|]; [apply preserves_ret|apply IH].
Qed.

(** A call on a sub-object that [f] does not look at. *)
Lemma preserves_on_apart {P A} (p : path St P) (m : method P A) :
  (∀ o s, f (update p o s) = f s) → preserves f (on p m).
Proof.
  intros Hp s a s'. unfold on.
  destruct (view p s) as [o|]; [|done].
  destruct (m o) as [[a' o']|]; [|done].
  intros [= _ <-]. apply Hp.
Qed.

(** A call that changes nothing, on any sub-object. *)
Lemma preserves_on_readonly {P A} (p : path St P) (m : method P A) :
  lawful p → preserves id m → preserves f (on p m).
Proof.
  intros Hp Hm s a s'. unfold on.
  destruct (view p s) as [o|] eqn:Hview; [|done].
  destruct (m o) as [[a' o']|] eqn:Hrun; [|done].
  intros [= _ <-]. apply Hm in Hrun. simpl in Hrun. subst o'.
  by rewrite (Hp _ _ Hview).
Qed.
End frames.

Lemma preserves_with_local {L St X A} (f : St → X) (l : L)
    (m : method (L * St) A) :
  preserves (λ s, f s.2) m → preserves f (with_local l m).
Proof.
  intros Hm s a s'. unfold with_local.
  destruct (m (l, s)) as [[a' [l' s1]]|] eqn:Hrun; [|done].
  intros [= _ <-]. by apply Hm in Hrun.
Qed.

Lemma preserves_swap_args {St1 St2 A} (m : method (St2 * St1) A) :
  preserves id m → preserves id (swap_args m).
Proof.
  intros Hm [s1 s2] a s'. unfold swap_args. simpl.
  destruct (m (s2, s1)) as [[a' [s2' s1']]|] eqn:Hrun; [|done].
  intros [= _ <-]. apply Hm in Hrun. simpl in Hrun. by injection Hrun as -> ->.
Qed.

Lemma lawful_fst {St1 St2} : lawful (@fst_ St1 St2).
Proof. by intros [s1 s2] o [= <-]. Qed.

Lemma lawful_snd {St1 St2} : lawful (@snd_ St1 St2).
Proof. by intros [s1 s2] o [= <-]. Qed.

Lemma lawful_sub {St P Q} (p : path St P) (q : path P Q) :
  lawful p → lawful q → lawful (sub_ p q).
Proof.
  intros Hp Hq s x. simpl.
  destruct (view p s) as [o|] eqn:Hview; [|done]. simpl.
  intros Hx. rewrite (Hq _ _ Hx). by apply Hp.
Qed.

Lemma lawful_pair {St P Q} (p : path St P) (q : path St Q) :
  lawful p → lawful q → lawful (pair_ p q).
Proof.
  intros Hp Hq s [a b]. simpl.
  destruct (view p s) as [a'|] eqn:Hvp; [|done]. simpl.
  destruct (view q s) as [b'|] eqn:Hvq; [|done]. simpl.
  intros [= <- <-]. rewrite (Hp _ _ Hvp). by apply Hq.
Qed.

Lemma lawful_row {T} i : lawful (mat.row_ (T:=T) i).
Proof.
  intros [r c rows st] o Hview. simpl in *.
  by rewrite list_insert_id.
Qed.

Create HintDb frames.

Global Hint Resolve lawful_fst lawful_snd lawful_sub lawful_pair lawful_row
  : frames.

(** One step of a frame proof, following the shape of the computation. *)
Ltac frame_step :=
  lazymatch goal with
  | |- preserves _ (bind _ _) => apply preserves_bind; [|intros ?]
  | |- preserves _ (ret _) => apply preserves_ret
  | |- preserves _ get => apply preserves_get
  | |- preserves _ (lift_option _) => apply preserves_lift_option
  | |- preserves _ (for_ _ _) => apply preserves_for; intros ?
  | |- preserves _ (for_return _ _) => apply preserves_for_return; intros ?
  | |- preserves _ (with_local _ _) => apply preserves_with_local
  | |- preserves _ (with_temp _ _) => unfold with_temp
  | |- preserves _ (swap_args _) => apply preserves_swap_args
  | |- preserves _ (on_fst _) => unfold on_fst
  | |- preserves _ (on_snd _) => unfold on_snd
  | |- preserves _ (on _ _) =>
      first [ apply preserves_on_apart; intros ? ?; reflexivity
            | apply preserves_on_readonly; [unfold mat.outer_, mat.local_; eauto 10 with frames|] ]
  | |- preserves _ (if ?b then _ else _) => destruct b
  | |- preserves _ (match ?x with _ => _ end) => destruct x
  end.

Ltac frame := repeat first [ frame_step | solve [eauto with frames] ].

Section vector_frames.
Context {T : Type} `{number T}.

Lemma readonly_length : preserves id (vec.length (T:=T)).
Proof. unfold vec.length. frame. Qed.

Lemma readonly_read i : preserves id (vec.read (T:=T) i).
Proof.
  intros v x v'. unfold vec.read.
  destruct (vec._Allocator v) as [buf|]; [|done].
  destruct (buf !! i); [|done]. by intros [= _ <-].
Qed.

Hint Resolve readonly_length readonly_read : frames.

Lemma readonly_copy : preserves id (vec.copy (T:=T)).
Proof. unfold vec.copy. frame. Qed.

Lemma readonly_sum : preserves id (vec.sum (T:=T)).
Proof. unfold vec.sum. frame. Qed.

Hint Resolve readonly_copy readonly_sum : frames.

Lemma readonly_operator_eq : preserves id (vec.operator_eq (T:=T)).
Proof. unfold vec.operator_eq. frame. Qed.

Hint Resolve readonly_operator_eq : frames.

Lemma readonly_operator_ne : preserves id (vec.operator_ne (T:=T)).
Proof. unfold vec.operator_ne. frame. Qed.

Lemma readonly_operator_lt : preserves id (vec.operator_lt (T:=T)).
Proof. unfold vec.operator_lt. frame. Qed.

Hint Resolve readonly_operator_lt : frames.

Lemma readonly_operator_gt : preserves id (vec.operator_gt (T:=T)).
Proof. unfold vec.operator_gt. frame. Qed.

Hint Resolve readonly_operator_gt : frames.

Lemma readonly_operator_le : preserves id (vec.operator_le (T:=T)).
Proof. unfold vec.operator_le. frame. Qed.

Lemma readonly_operator_ge : preserves id (vec.operator_ge (T:=T)).
Proof. unfold vec.operator_ge. frame. Qed.
End vector_frames.

Global Hint Resolve readonly_length readonly_read readonly_copy readonly_sum
  readonly_operator_eq readonly_operator_ne readonly_operator_lt
  readonly_operator_gt readonly_operator_le readonly_operator_ge : frames.

Section matrix_frames.
Context {T : Type} `{number T}.

Lemma readonly_columns_value : preserves id (mat.columns_value (T:=T)).
Proof. unfold mat.columns_value. frame. Qed.

Lemma readonly_rows : preserves id (mat.rows (T:=T)).
Proof. unfold mat.rows. frame. Qed.

Hint Resolve readonly_columns_value readonly_rows : frames.

Lemma readonly_both_differ : preserves id (mat.both_differ (T:=T)).
Proof. unfold mat.both_differ, mat.and_then. frame. Qed.

Hint Resolve readonly_both_differ : frames.

Lemma readonly_matrix_operator_eq : preserves id (mat.operator_eq (T:=T)).
Proof. unfold mat.operator_eq. frame. Qed.

Hint Resolve readonly_matrix_operator_eq : frames.

Lemma readonly_matrix_operator_ne : preserves id (mat.operator_ne (T:=T)).
Proof. unfold mat.operator_ne. frame. Qed.

Lemma readonly_total : preserves id (mat.total (T:=T)).
Proof. unfold mat.total. frame. Qed.

Hint Resolve readonly_total : frames.

Lemma readonly_matrix_operator_lt : preserves id (mat.operator_lt (T:=T)).
Proof. unfold mat.operator_lt. frame. Qed.

Hint Resolve readonly_matrix_operator_lt : frames.

Lemma readonly_matrix_operator_gt : preserves id (mat.operator_gt (T:=T)).
Proof. unfold mat.operator_gt. frame. Qed.

Hint Resolve readonly_matrix_operator_gt : frames.

Lemma readonly_matrix_operator_le : preserves id (mat.operator_le (T:=T)).
Proof. unfold mat.operator_le. frame. Qed.

Lemma readonly_matrix_operator_ge : preserves id (mat.operator_ge (T:=T)).
Proof. unfold mat.operator_ge. frame. Qed.
End matrix_frames.

(** ** The comparisons return *)

Section comparisons_return.
Context {T : Type} `{number_laws T}.
Implicit Types (v lhs rhs : vec.basic_vector T) (buf l r : list T).

Lemma sum_holds v buf :
  vec_holds v buf →
  vec.sum v = Some (foldl num_add num_zero buf, v).
Proof.
  intros [Hb Hlen]. unfold vec.sum. unfold_method.
  destruct (for_inv
    (λ i s, s.2 = v ∧ s.1 = foldl num_add num_zero (take i buf))
    (λ i, bind (on_snd (vec.read i))
            (λ x, on_fst (modify (λ total, num_add total x))))
    (vec._Length v) (num_zero, v)) as ([t v'] & Hrun & Hv & Ht).
  - by rewrite take_0.
  - intros i [t s] Hi [Hs Ht]. simpl in *. subst s t.
    destruct (lookup_lt_is_Some_2 buf i) as [x Hx]; [lia|].
    unfold_method. rewrite (read_holds _ _ _ _ Hb Hx). simpl.
    eexists. split; [reflexivity|]. simpl. split; [done|].
    by rewrite (take_S_r _ _ _ Hx), foldl_app.
  - unfold_method in Hrun. rewrite Hrun. simpl in *. subst.
    by rewrite take_ge by lia.
Qed.

Lemma operator_lt_holds lhs rhs l r :
  vec_holds lhs l → vec_holds rhs r →
  vec.operator_lt (lhs, rhs)
  = Some (num_ltb (foldl num_add num_zero l) (foldl num_add num_zero r),
          (lhs, rhs)).
Proof.
  intros Hl Hr. unfold vec.operator_lt. unfold_method.
  rewrite (sum_holds _ _ Hl). simpl. by rewrite (sum_holds _ _ Hr).
Qed.

Lemma operator_gt_holds lhs rhs l r :
  vec_holds lhs l → vec_holds rhs r →
  vec.operator_gt (lhs, rhs)
  = Some (num_ltb (foldl num_add num_zero r) (foldl num_add num_zero l),
          (lhs, rhs)).
Proof.
  intros Hl Hr. unfold vec.operator_gt, swap_args. simpl.
  by rewrite (operator_lt_holds _ _ _ _ Hr Hl).
Qed.

Lemma operator_le_holds lhs rhs l r :
  vec_holds lhs l → vec_holds rhs r →
  vec.operator_le (lhs, rhs)
  = Some (negb (num_ltb (foldl num_add num_zero r)
                        (foldl num_add num_zero l)), (lhs, rhs)).
Proof.
  intros Hl Hr. unfold vec.operator_le, bind.
  by rewrite (operator_gt_holds _ _ _ _ Hl Hr).
Qed.

Lemma operator_ge_holds lhs rhs l r :
  vec_holds lhs l → vec_holds rhs r →
  vec.operator_ge (lhs, rhs)
  = Some (negb (num_ltb (foldl num_add num_zero l)
                        (foldl num_add num_zero r)), (lhs, rhs)).
Proof.
  intros Hl Hr. unfold vec.operator_ge, bind.
  by rewrite (operator_lt_holds _ _ _ _ Hl Hr).
Qed.

Implicit Types (m a b : mat.basic_matrix T).

Lemma shape_row rn cn m i :
  mat_shape rn cn m → i < rn →
  ∃ row buf, mat._Allocator m !! i = Some row ∧ vec_holds row buf ∧
             vec._Length row = cn.
Proof.
  intros (_ & _ & Hlen & Hrows) Hi.
  destruct (lookup_lt_is_Some_2 (mat._Allocator m) i) as [row Hrow]; [lia|].
  destruct (Forall_lookup_1 _ _ _ _ Hrows Hrow) as (? & buf & ?).
  by exists row, buf.
Qed.

Lemma both_differ_shape ra ca rb cb a b :
  mat_shape ra ca a → mat_shape rb cb b →
  mat.both_differ (a, b)
  = Some (negb (ra =? rb) && negb (ca =? cb), (a, b)).
Proof.
  intros (Hra & Hca & _) (Hrb & Hcb & _).
  unfold mat.both_differ, mat.and_then, mat.columns_value. unfold_method.
  rewrite Hra, Hrb. destruct (ra =? rb); simpl; [done|].
  rewrite Hca. simpl. by rewrite Hcb.
Qed.

Lemma total_shape rn cn m :
  mat_shape rn cn m → ∃ t, mat.total m = Some (t, m).
Proof.
  intros Hm. pose proof Hm as (Hr & _ & Hlen & _).
  unfold mat.total, mat.rows. unfold_method. rewrite Hr.
  destruct (for_inv
    (λ i s, s.2 = m)
    (λ row, bind (on (mat.outer_ (mat.row_ row)) vec.sum)
              (λ x, on mat.local_ (modify (λ sum, num_add sum x))))
    rn (num_zero, m)) as ([t m'] & Hrun & Hm'); [done| |].
  - intros i [t s] Hi Hs. simpl in Hs. subst s.
    destruct (shape_row _ _ _ i Hm Hi) as (row & buf & Hrow & Hbuf & _).
    unfold_method. rewrite Hrow. simpl.
    rewrite (sum_holds _ _ Hbuf). simpl.
    eexists. split; [reflexivity|]. simpl.
    destruct m. simpl in *. by rewrite list_insert_id.
  - unfold_method in Hrun. rewrite Hrun. simpl in Hm'. subst m'. eauto.
Qed.

Lemma matrix_operator_lt_shape ra ca rb cb a b :
  mat_shape ra ca a → mat_shape rb cb b →
  ∃ res, mat.operator_lt (a, b) = Some (res, (a, b)).
Proof.
  intros Ha Hb.
  destruct (total_shape _ _ _ Ha) as [ta Hta].
  destruct (total_shape _ _ _ Hb) as [tb Htb].
  unfold mat.operator_lt. unfold_method. rewrite Hta. simpl. rewrite Htb.
  simpl. eauto.
Qed.

Lemma matrix_operator_eq_shape ra ca rb cb a b :
  mat_shape ra ca a → mat_shape rb cb b → ra ≤ rb →
  ∃ res, mat.operator_eq (a, b) = Some (res, (a, b)).
Proof.
  intros Ha Hb Hle.
  unfold mat.operator_eq, bind.
  rewrite (both_differ_shape _ _ _ _ _ _ Ha Hb).
  destruct (negb (ra =? rb) && negb (ca =? cb)); [by eexists|].
  unfold mat.rows. unfold_method.
  destruct Ha as (Hra & Ha'). rewrite Hra.
  pose proof (conj Hra Ha') as Ha.
  edestruct (for_return_inv (R:=bool)
    (λ i s, s = (a, b)) (λ _ s, s = (a, b))) as (res & s' & Hrun & ->);
    [| |done|].
  1: reflexivity.
  2: { unfold_method in Hrun. rewrite Hrun. eauto. }
  intros i s Hi ->.
  destruct (shape_row _ _ _ i Ha Hi) as (rowa & la & Hrowa & Hla & _).
  destruct (shape_row _ _ _ i Hb) as (rowb & lb & Hrowb & Hlb & _); [lia|].
  destruct (operator_ne_holds rowa rowb la lb Hla Hlb) as (res & _ & Hne & _).
  unfold_method. rewrite Hrowa, Hrowb. simpl. rewrite Hne. simpl.
  assert (update (mat.row_ i) rowb b = b) as Hb'.
  { by apply lawful_row. }
  assert (update (mat.row_ i) rowa a = a) as Ha''.
  { by apply lawful_row. }
  simpl in Ha'', Hb'. rewrite Ha'', Hb'.
  eexists _, _. split; [reflexivity|]. by split.
Qed.
End comparisons_return.

(** ** Division by a scalar *)

Section vector_division.
Context {T : Type} `{number_laws T}.
Implicit Types (v this other : vec.basic_vector T) (buf : list T) (k : T).

Lemma num_eqb_false (x y : T) : num_eqb x y = false ↔ x ≠ y.
Proof.
  rewrite <- num_eqb_eq. by destruct (num_eqb x y).
Qed.

Lemma vector_div_zero other buf :
  vec_holds other buf →
  vec.operator_div num_zero other
  = Some (vec.mk (vec._Length other) (Some buf) DIVIDED_ZERO, other).
Proof.
  intros Hb. unfold vec.operator_div, bind.
  rewrite (copy_holds _ _ Hb).
  assert (num_eqb (num_zero : T) num_zero = true) as ->
    by by apply num_eqb_eq.
  reflexivity.
Qed.

Lemma vector_div_assign_zero this :
  vec.operator_div_assign num_zero this
  = Some ((), vec.with_Status DIVIDED_ZERO this).
Proof.
  unfold vec.operator_div_assign.
  assert (num_eqb (num_zero : T) num_zero = true) as ->
    by by apply num_eqb_eq.
  reflexivity.
Qed.

Lemma quotients_spec k buf :
  Forall (λ x, is_Some (num_div x k)) buf →
  Forall2 (λ x q, num_div x k = Some q) buf (quotients k buf).
Proof.
  intros Hdef. apply Forall2_same_length_lookup_2.
  - unfold quotients. by rewrite length_fmap, length_seq.
  - intros i x q Hx. unfold quotients. rewrite list_lookup_fmap.
    rewrite lookup_seq_lt by by eapply lookup_lt_Some.
    simpl. rewrite Hx. simpl.
    destruct (Forall_lookup_1 _ _ _ _ Hdef Hx) as [q' ->]. by intros [= <-].
Qed.

Lemma vector_div_nonzero other buf k :
  vec_holds other buf → k ≠ num_zero →
  Forall (λ x, is_Some (num_div x k)) buf →
  vec.operator_div k other
  = Some (vec.mk (vec._Length other) (Some (quotients k buf))
                 GOOD_ALLOCATOR, other).
Proof.
  intros Hb Hk Hdef. pose proof Hb as [Hbuf Hlen].
  unfold vec.operator_div, bind. rewrite (copy_holds _ _ Hb).
  apply num_eqb_false in Hk as Hk'. rewrite Hk'.
  unfold vec.length. unfold_method.
  rewrite (for_tabulate
    (λ c, (vec.mk (vec._Length other) (Some c) GOOD_ALLOCATOR, other))
    (λ i, default num_zero (buf !! i ≫= λ x, num_div x k))); [| done |].
  - unfold quotients. by rewrite Hlen.
  - intros i Hi. unfold_method.
    destruct (lookup_lt_is_Some_2 buf i) as [x Hx]; [lia|].
    destruct (Forall_lookup_1 _ _ _ _ Hdef Hx) as [q Hq].
    rewrite operator_index_const_eq, operator_index_lt by done. simpl.
    rewrite (read_holds _ _ _ _ Hbuf Hx). simpl. rewrite Hq. simpl.
    rewrite operator_index_lt by done. simpl.
    rewrite write_mk; [by rewrite Hx; simpl; rewrite Hq|].
    rewrite length_app, length_fmap, length_seq, length_drop. lia.
Qed.

Lemma vector_div_assign_nonzero this buf k :
  vec_holds this buf → k ≠ num_zero →
  Forall (λ x, is_Some (num_div x k)) buf →
  vec.operator_div_assign k this
  = Some ((), vec.mk (vec._Length this) (Some (quotients k buf))
                     (vec._Status this)).
Proof.
  intros [Hbuf Hlen] Hk Hdef.
  unfold vec.operator_div_assign.
  apply num_eqb_false in Hk as Hk'. rewrite Hk'. unfold_method.
  destruct this as [n alloc st]. simpl in *. subst alloc.
  rewrite (for_tabulate (λ c, vec.mk n (Some c) st)
    (λ i, default num_zero (buf !! i ≫= λ x, num_div x k))); [| done |].
  - unfold quotients. by rewrite Hlen.
  - intros i Hi. unfold_method.
    destruct (lookup_lt_is_Some_2 buf i) as [x Hx]; [lia|].
    destruct (Forall_lookup_1 _ _ _ _ Hdef Hx) as [q Hq].
    rewrite (read_mk _ _ _ i x).
    + simpl. rewrite Hq. simpl.
      rewrite write_mk; [by rewrite Hx; simpl; rewrite Hq|].
      rewrite length_app, length_fmap, length_seq, length_drop. lia.
    + rewrite lookup_app_r by (rewrite length_fmap, length_seq; lia).
      rewrite length_fmap, length_seq, Nat.sub_diag.
      by rewrite lookup_drop, Nat.add_0_r.
Qed.
End vector_division.

(** ** Matrices: copying *)

Section matrix_copy.
Context {T : Type} `{number T}.
Implicit Types (m this other : mat.basic_matrix T).
Implicit Types (rows : list (vec.basic_vector T)).

Lemma new_rows_eq n :
  mat.new_rows (T:=T) n
  = Some (replicate n (vec.mk 1 (Some [num_zero]) GOOD_ALLOCATOR)).
Proof. reflexivity. Qed.

Lemma fresh_row_holds (o : vec.basic_vector T) buf :
  vec_holds o buf →
  vec.mk (vec._Length o) (Some buf) GOOD_ALLOCATOR = fresh_row o.
Proof. intros [Hb _]. unfold fresh_row. by rewrite Hb. Qed.

(** The loop [_Allocator[row] = other._Allocator[row]] of the copy
    constructor and of [operator=], started on a new array of rows. *)
Lemma assign_rows_loop other n r c st :
  length (mat._Allocator other) = n →
  Forall vec_allocated (mat._Allocator other) →
  for_ n (λ row,
    on (pair_ (sub_ fst_ (mat.row_ row)) (sub_ snd_ (mat.row_ row)))
       vec.operator_assign)
    (mat.mk r c (replicate n (vec.mk 1 (Some [num_zero]) GOOD_ALLOCATOR)) st,
     other)
  = Some ((), (mat.mk r c (fresh_row <$> mat._Allocator other) st, other)).
Proof.
  intros Hlen Hrows.
  set (d := vec.mk 1 (Some [num_zero : T]) GOOD_ALLOCATOR).
  rewrite (for_tabulate (λ cells, (mat.mk r c cells st, other))
    (λ i, default d ((fresh_row <$> mat._Allocator other) !! i))).
  - rewrite tabulate_lookup; [done|]. by rewrite length_fmap.
  - apply length_replicate.
  - intros i Hi.
    destruct (lookup_lt_is_Some_2 (mat._Allocator other) i) as [o Ho];
      [lia|].
    destruct (Forall_lookup_1 _ _ _ _ Hrows Ho) as [buf Hbuf].
    unfold on. simpl.
    rewrite lookup_app_r by (rewrite length_fmap, length_seq; lia).
    rewrite length_fmap, length_seq, Nat.sub_diag.
    rewrite lookup_drop, Nat.add_0_r.
    rewrite lookup_replicate_2 by done. simpl. rewrite Ho. simpl.
    rewrite (operator_assign_holds _ _ buf); [|by eexists|done]. simpl.
    rewrite list_lookup_fmap, Ho. simpl.
    rewrite (fresh_row_holds _ _ Hbuf).
    do 3 f_equal. destruct other. simpl in *. by rewrite list_insert_id.
Qed.

(** The copy constructor: status, row count and rows of the source; no
    value for [_Columns]. *)
Lemma matrix_copy_eq other :
  length (mat._Allocator other) = mat._Rows other →
  Forall vec_allocated (mat._Allocator other) →
  mat.copy other
  = Some (mat.mk (mat._Rows other) None (fresh_row <$> mat._Allocator other)
                 (mat._Status other), other).
Proof.
  intros Hlen Hrows. unfold mat.copy. unfold_method.
  rewrite (assign_rows_loop _ _ _ _ _ Hlen Hrows). reflexivity.
Qed.

(** Copy assignment: as the copy constructor, and [_Columns] too. *)
Lemma matrix_assign_eq this other :
  length (mat._Allocator other) = mat._Rows other →
  Forall vec_allocated (mat._Allocator other) →
  mat.operator_assign (this, other)
  = Some ((), (mat.mk (mat._Rows other) (mat._Columns other)
                 (fresh_row <$> mat._Allocator other) (mat._Status other),
               other)).
Proof.
  intros Hlen Hrows. unfold mat.operator_assign. unfold_method.
  apply (assign_rows_loop _ _ _ _ _ Hlen Hrows).
Qed.
End matrix_copy.

Section matrix_division.
Context {T : Type} `{number_laws T}.
Implicit Types (m this other : mat.basic_matrix T) (k : T).

Lemma entry_fresh_rows rows i j r c st r' c' st' :
  entry (T:=T) (mat.mk r c (fresh_row <$> rows) st) i j
  = entry (mat.mk r' c' rows st') i j.
Proof.
  unfold entry. simpl. rewrite list_lookup_fmap.
  by destruct (rows !! i).
Qed.

Lemma matrix_div_assign_zero this :
  mat.operator_div_assign num_zero this
  = Some ((), mat.with_Status DIVIDED_ZERO this).
Proof.
  unfold mat.operator_div_assign.
  assert (num_eqb (num_zero : T) num_zero = true) as ->
    by by apply num_eqb_eq.
  reflexivity.
Qed.

Lemma matrix_div_assign_nonzero this k :
  length (mat._Allocator this) = mat._Rows this →
  Forall vec_allocated (mat._Allocator this) →
  k ≠ num_zero →
  Forall (λ row, Forall (λ x, is_Some (num_div x k)) (row_cells row))
         (mat._Allocator this) →
  mat.operator_div_assign k this
  = Some ((), mat.mk (mat._Rows this) (mat._Columns this)
                     (divided_row k <$> mat._Allocator this)
                     (mat._Status this)).
Proof.
  intros Hlen Hrows Hk Hdef. unfold mat.operator_div_assign.
  apply num_eqb_false in Hk as Hk'. rewrite Hk'. unfold_method.
  destruct this as [r c rows st]. simpl in *.
  set (d := vec.mk 1 (Some [num_zero : T]) GOOD_ALLOCATOR).
  rewrite (for_tabulate (λ cells, mat.mk r c cells st)
    (λ i, default d ((divided_row k <$> rows) !! i))); [| done |].
  - rewrite tabulate_lookup; [done|]. by rewrite length_fmap.
  - intros i Hi.
    destruct (lookup_lt_is_Some_2 rows i) as [o Ho]; [lia|].
    destruct (Forall_lookup_1 _ _ _ _ Hrows Ho) as [buf Hbuf].
    unfold on. simpl.
    rewrite lookup_app_r by (rewrite length_fmap, length_seq; lia).
    rewrite length_fmap, length_seq, Nat.sub_diag.
    rewrite lookup_drop, Nat.add_0_r, Ho.
    pose proof (Forall_lookup_1 _ _ _ _ Hdef Ho) as Hcells.
    unfold row_cells in Hcells. destruct Hbuf as [Hsome Hbl].
    rewrite Hsome in Hcells. simpl in Hcells.
    rewrite (vector_div_assign_nonzero _ _ _ (conj Hsome Hbl) Hk Hcells).
    pose proof (conj Hsome Hbl) as Hbuf.
    rewrite list_lookup_fmap, Ho. simpl.
    unfold divided_row. destruct Hbuf as [-> _]. reflexivity.
Qed.
End matrix_division.

(** [INT_MIN / -1] is not a value of [int]: a vector that holds the
    least value cannot be divided by -1. *)
Lemma least_int_by_minus_one :
  let v := vec.mk 2 (Some [Int 6; Int (- 2 ^ 31)]) GOOD_ALLOCATOR in
  num_div (Int (- 2 ^ 31)) (Int (-1)) = None ∧
  vec.operator_div (Int (-1)) v = None ∧
  vec.operator_div_assign (Int (-1)) v = None.
Proof. by split_and!. Qed.

(** Unsigned division is defined for every divisor that is not zero. *)
Lemma unsigned_div_defined (x k : unsigned) :
  k ≠ num_zero → is_Some (num_div x k).
Proof.
  destruct x as [x], k as [k]. intros Hk. simpl.
  destruct (Z.eqb_spec k 0) as [->|]; [done|eauto].
Qed.

(** C5. Division by the scalar zero changes no element, where the code can
    be called. For a vector that owns its buffer, binary / by zero returns
    a copy with the operand's cells and the status DIVIDED_ZERO and leaves
    the operand as it was; /= by zero only sets the status of this to
    DIVIDED_ZERO. For a matrix, /= by zero only sets the status. The
    binary / of matrices is no function at all: its body calls
    other.size(), a member that basic_matrix does not declare, so that no
    program can divide a matrix with it, by zero or otherwise. The
    element-wise division, which has no result on a zero divisor, is
    performed for a divisor that is not zero: where the quotient of each
    cell is defined, each cell is replaced by its quotient. *)
Theorem division_by_zero_changes_no_element {T} `{number_laws T} :
  (∀ (v : vec.basic_vector T) buf,
     vec_holds v buf →
     vec.operator_div num_zero v
     = Some (vec.mk (vec._Length v) (Some buf) DIVIDED_ZERO, v)) ∧
  (∀ v : vec.basic_vector T,
     vec.operator_div_assign num_zero v
     = Some ((), vec.mk (vec._Length v) (vec._Allocator v) DIVIDED_ZERO)) ∧
  mat.operator_div (T:=T) = None ∧
  (∀ m : mat.basic_matrix T,
     mat.operator_div_assign num_zero m
     = Some ((), mat.mk (mat._Rows m) (mat._Columns m) (mat._Allocator m)
                        DIVIDED_ZERO)) ∧
  (∀ x : T, num_div x num_zero = None) ∧
  (∀ (v : vec.basic_vector T) buf k,
     vec_holds v buf → k ≠ num_zero →
     Forall (λ x, is_Some (num_div x k)) buf →
     Forall2 (λ x q, num_div x k = Some q) buf (quotients k buf) ∧
     vec.operator_div k v
     = Some (vec.mk (vec._Length v) (Some (quotients k buf)) GOOD_ALLOCATOR,
             v) ∧
     vec.operator_div_assign k v
     = Some ((), vec.mk (vec._Length v) (Some (quotients k buf))
                        (vec._Status v))) ∧
  (∀ (m : mat.basic_matrix T) k,
     length (mat._Allocator m) = mat._Rows m →
     Forall vec_allocated (mat._Allocator m) →
     k ≠ num_zero →
     Forall (λ row, Forall (λ x, is_Some (num_div x k)) (row_cells row))
            (mat._Allocator m) →
     mat.operator_div_assign k m
     = Some ((), mat.mk (mat._Rows m) (mat._Columns m)
                        (divided_row k <$> mat._Allocator m)
                        (mat._Status m))).
Proof.
  split_and!.
  - intros v buf Hb. by apply vector_div_zero.
  - intros v. apply vector_div_assign_zero.
  - reflexivity.
  - intros m. apply matrix_div_assign_zero.
  - apply num_div_zero.
  - intros v buf k Hb Hk Hdef. split_and!.
    + by apply quotients_spec.
    + by apply vector_div_nonzero.
    + by apply vector_div_assign_nonzero.
  - intros m k Hlen Hrows Hk Hdef. by apply matrix_div_assign_nonzero.
Qed.

Lemma division_by_zero_changes_no_element_witness :
  let v := vec.mk 3 (Some [Int 2; Int 4; Int 6]) GOOD_ALLOCATOR in
  vec.operator_div (Int 0) v
  = Some (vec.mk 3 (Some [Int 2; Int 4; Int 6]) DIVIDED_ZERO, v) ∧
  vec.operator_div (Int 2) v
  = Some (vec.mk 3 (Some [Int 1; Int 2; Int 3]) GOOD_ALLOCATOR, v).
Proof.
  intros v.
  destruct (division_by_zero_changes_no_element (T:=int))
    as (Hzero & _ & _ & _ & _ & Hk & _).
  split.
  - apply (Hzero v [Int 2; Int 4; Int 6]). by split.
  - destruct (Hk v [Int 2; Int 4; Int 6] (Int 2)) as (_ & Hdiv & _);
      [by split|done|by repeat constructor|exact Hdiv].
Defined.

(** ** Comparisons and their operands *)

(** C10. Each of the comparison operators ==, !=, <, >, <=, >= of vectors
    and of matrices, on whatever operands, leaves both operands as it
    found them when it returns: elements, lengths or dimensions, and
    status members. And the operators do return: on vectors that own
    their buffers all six of them, on well-shaped matrices the four
    orderings, and == and != when the left matrix has no more rows than
    the right one. (== works on copies that it sorts; the operands are not
    sorted.) *)
Theorem comparisons_leave_operands_unchanged {T} `{number_laws T} :
  (∀ op, op ∈ vector_comparisons (T:=T) →
     ∀ lhs rhs b s', op (lhs, rhs) = Some (b, s') → s' = (lhs, rhs)) ∧
  (∀ op, op ∈ matrix_comparisons (T:=T) →
     ∀ lhs rhs b s', op (lhs, rhs) = Some (b, s') → s' = (lhs, rhs)) ∧
  (∀ op, op ∈ vector_comparisons (T:=T) →
     ∀ lhs rhs, vec_allocated lhs → vec_allocated rhs →
       ∃ b, op (lhs, rhs) = Some (b, (lhs, rhs))) ∧
  (∀ op, op ∈ matrix_comparisons (T:=T) →
     ∀ lhs rhs rl cl rr cr,
       mat_shape rl cl lhs → mat_shape rr cr rhs →
       op = mat.operator_eq ∨ op = mat.operator_ne → rl ≤ rr →
       ∃ b, op (lhs, rhs) = Some (b, (lhs, rhs))) ∧
  (∀ op, op ∈ [mat.operator_lt (T:=T); mat.operator_gt; mat.operator_le;
               mat.operator_ge] →
     ∀ lhs rhs rl cl rr cr,
       mat_shape rl cl lhs → mat_shape rr cr rhs →
       ∃ b, op (lhs, rhs) = Some (b, (lhs, rhs))).
Proof.
  assert (∀ St (op : method (St * St) bool), preserves id op →
            ∀ lhs rhs b s', op (lhs, rhs) = Some (b, s') → s' = (lhs, rhs))
    as Hframe.
  { intros St op Hop lhs rhs b s' Hrun. by apply Hop in Hrun. }
  assert (∀ (lhs rhs : mat.basic_matrix T) rl cl rr cr,
            mat_shape rl cl lhs → mat_shape rr cr rhs →
            ∃ b, mat.operator_gt (lhs, rhs) = Some (b, (lhs, rhs))) as Hgt.
  { intros lhs rhs rl cl rr cr Hl Hr.
    destruct (matrix_operator_lt_shape _ _ _ _ _ _ Hr Hl) as [b Hb].
    exists b. unfold mat.operator_gt, swap_args. simpl. by rewrite Hb. }
  split_and!.
  - intros op Hop. apply Hframe. unfold vector_comparisons in Hop.
    repeat (apply elem_of_cons in Hop as [->|Hop]); eauto with frames.
    by apply elem_of_nil in Hop.
  - intros op Hop. apply Hframe. unfold matrix_comparisons in Hop.
    repeat (apply elem_of_cons in Hop as [->|Hop]);
      eauto using readonly_matrix_operator_eq, readonly_matrix_operator_ne,
        readonly_matrix_operator_lt, readonly_matrix_operator_gt,
        readonly_matrix_operator_le, readonly_matrix_operator_ge.
    by apply elem_of_nil in Hop.
  - intros op Hop lhs rhs [l Hl] [r Hr]. unfold vector_comparisons in Hop.
    repeat (apply elem_of_cons in Hop as [->|Hop]).
    + destruct (operator_eq_holds lhs rhs l r Hl Hr) as (b & ? & _). eauto.
    + destruct (operator_ne_holds lhs rhs l r Hl Hr) as (b & _ & ? & _). eauto.
    + rewrite (operator_lt_holds _ _ _ _ Hl Hr). eauto.
    + rewrite (operator_gt_holds _ _ _ _ Hl Hr). eauto.
    + rewrite (operator_le_holds _ _ _ _ Hl Hr). eauto.
    + rewrite (operator_ge_holds _ _ _ _ Hl Hr). eauto.
    + by apply elem_of_nil in Hop.
  - intros op _ lhs rhs rl cl rr cr Hl Hr Hop Hle.
    destruct (matrix_operator_eq_shape _ _ _ _ _ _ Hl Hr Hle) as [b Hb].
    destruct Hop as [-> | ->]; [eauto|].
    exists (negb b). unfold mat.operator_ne, bind. by rewrite Hb.
  - intros op Hop lhs rhs rl cl rr cr Hl Hr.
    destruct (matrix_operator_lt_shape _ _ _ _ _ _ Hl Hr) as [b Hb].
    destruct (Hgt _ _ _ _ _ _ Hl Hr) as [b' Hb'].
    repeat (apply elem_of_cons in Hop as [->|Hop]).
    + eauto.
    + eauto.
    + exists (negb b'). unfold mat.operator_le, bind. by rewrite Hb'.
    + exists (negb b). unfold mat.operator_ge, bind. by rewrite Hb.
    + by apply elem_of_nil in Hop.
Qed.

Lemma comparisons_leave_operands_unchanged_witness :
  let a := vec.mk 3 (Some [Int 1; Int 2; Int 3]) BOUND_ARRAY in
  let b := vec.mk 3 (Some [Int 3; Int 2; Int 1]) DIVIDED_ZERO in
  ∃ res, vec.operator_eq (a, b) = Some (res, (a, b)).
Proof.
  intros a b.
  destruct (comparisons_leave_operands_unchanged (T:=int))
    as (_ & _ & Hreturns & _).
  apply (Hreturns vec.operator_eq).
  - apply list_elem_of_here.
  - exists [Int 1; Int 2; Int 3]. by split.
  - exists [Int 3; Int 2; Int 1]. by split.
Defined.

(** ** Matrices: element access *)

Section matrix_access.
Context {T : Type} `{number T}.
Implicit Types (m : mat.basic_matrix T) (row : vec.basic_vector T).

(** Where [operator()] and [at] send a pair of indices on an [rn] by
    [cn] matrix. *)
Lemma clamp_lt rn cn i j :
  1 ≤ rn → 1 ≤ cn →
  (clamp rn cn i j).1 < rn ∧ (clamp rn cn i j).2 < cn.
Proof.
  intros Hrn Hcn. unfold clamp.
  destruct (Nat.ltb_spec i rn), (Nat.ltb_spec j cn); simpl; lia.
Qed.

Lemma shape_insert_row rn cn m i row row' :
  mat_shape rn cn m →
  mat._Allocator m !! i = Some row →
  vec_same_cells row row' →
  ∀ st,
    let m' := mat.mk (mat._Rows m) (mat._Columns m)
                (<[i:=row']> (mat._Allocator m)) st in
    mat_shape rn cn m' ∧ ∀ a b, entry m' a b = entry m a b.
Proof.
  intros (Hr & Hc & Hlen & Hrows) Hrow [Hl Hb] st m'. split.
  - split_and!; simpl; [done|done|by rewrite length_insert|].
    apply Forall_insert; [done|].
    destruct (Forall_lookup_1 _ _ _ _ Hrows Hrow) as [Hn [buf [Hbuf Hbl]]].
    split; [congruence|]. exists buf. split; congruence.
  - intros a b. unfold entry. simpl.
    destruct (decide (a = i)) as [->|Hne].
    + rewrite list_lookup_insert_eq by by eapply lookup_lt_Some.
      rewrite Hrow. simpl. by rewrite Hb.
    + by rewrite list_lookup_insert_ne.
Qed.

Lemma vector_index_same_cells row j :
  ∃ row', vec.operator_index j row
          = Some ((if j <? vec._Length row then j
                   else size_sub (vec._Length row) 1), row') ∧
          vec_same_cells row row'.
Proof.
  destruct (Nat.ltb_spec j (vec._Length row)).
  - exists row. by rewrite operator_index_lt.
  - eexists. by rewrite operator_index_ge.
Qed.

(** [operator()] on a matrix with at least one row and one column: the
    designated cell lies inside the matrix, and the call changes at most
    status members. The [const] overload has the same body. *)
Lemma operator_call_shape rn cn m i j :
  mat_shape rn cn m → 1 ≤ rn → 1 ≤ cn →
  ∃ m', mat.operator_call i j m = Some (clamp rn cn i j, m') ∧
        mat_shape rn cn m' ∧ ∀ a b, entry m' a b = entry m a b.
Proof.
  intros Hm Hrn Hcn. pose proof Hm as (Hr & Hc & Hlen & Hrows).
  unfold mat.operator_call, mat.columns_value, clamp. unfold_method.
  rewrite Hr.
  destruct (Nat.ltb_spec i rn) as [Hi|Hi]; simpl.
  - destruct (lookup_lt_is_Some_2 (mat._Allocator m) i) as [row Hrow]; [lia|].
    rewrite Hrow.
    destruct (Forall_lookup_1 _ _ _ _ Hrows Hrow) as [Hn _].
    destruct (vector_index_same_cells row j) as (row' & -> & Hsame).
    rewrite Hn. simpl. eexists. split.
    + destruct (j <? cn); [done|]. by rewrite size_sub_1.
    + by eapply shape_insert_row.
  - rewrite Hc. simpl. rewrite !size_sub_1 by done.
    destruct (lookup_lt_is_Some_2 (mat._Allocator m) (rn - 1))
      as [row Hrow]; [lia|].
    rewrite Hrow.
    destruct (Forall_lookup_1 _ _ _ _ Hrows Hrow) as [Hn _].
    rewrite operator_index_lt by lia. simpl.
    eexists. split; [done|].
    by eapply (shape_insert_row rn cn m).
Qed.

Lemma read_shape rn cn m (p : nat * nat) :
  mat_shape rn cn m → p.1 < rn → p.2 < cn →
  ∃ x, entry m p.1 p.2 = Some x ∧ mat.read p m = Some (x, m).
Proof.
  intros (Hr & Hc & Hlen & Hrows) Hi Hj.
  destruct (lookup_lt_is_Some_2 (mat._Allocator m) p.1) as [row Hrow]; [lia|].
  destruct (Forall_lookup_1 _ _ _ _ Hrows Hrow) as [Hn [buf [Hbuf Hbl]]].
  destruct (lookup_lt_is_Some_2 buf p.2) as [x Hx]; [lia|].
  exists x. split.
  - unfold entry. rewrite Hrow. simpl. rewrite Hbuf. simpl. done.
  - unfold mat.read, on. simpl. rewrite Hrow.
    rewrite (read_holds _ _ _ _ Hbuf Hx).
    destruct m. simpl in *. by rewrite list_insert_id.
Qed.
End matrix_access.

(** ** Matrices: the filling constructor and the accumulator *)

Section matrix_grid.
Context {T : Type} `{number_laws T}.
Implicit Types (cells : list (list T)) (line : list T).

Lemma basic_vector_fill_zero c :
  vec.basic_vector_fill c (num_zero : T)
  = Some (vec.mk c (Some (replicate c num_zero)) GOOD_ALLOCATOR).
Proof.
  unfold vec.basic_vector_fill. destruct (num_unsigned (T:=T)).
  - destruct (num_long_zero (T:=T)) as [Hpos Hzero].
    rewrite basic_vector_long_nonneg by done. by rewrite Hzero.
  - apply basic_vector_value_eq.
Qed.

(** [basic_matrix<T>(r, c)]: [r] rows of [c] zeros. *)
Lemma basic_matrix_fill_zero r c :
  mat.basic_matrix_fill r c (num_zero : T)
  = Some (grid c (replicate r (replicate c num_zero))).
Proof.
  unfold mat.basic_matrix_fill. rewrite new_rows_eq. simpl.
  rewrite (for_tabulate (λ rows, mat.mk r (Some c) rows GOOD_ALLOCATOR)
    (λ _, vec.mk c (Some (replicate c (num_zero : T))) GOOD_ALLOCATOR)).
  - simpl. unfold grid. rewrite length_replicate, tabulate_const.
    by rewrite fmap_replicate.
  - apply length_replicate.
  - intros i Hi. unfold_method. rewrite basic_vector_fill_zero. simpl.
    rewrite lookup_app_r by (rewrite length_fmap, length_seq; lia).
    rewrite length_fmap, length_seq, Nat.sub_diag.
    rewrite lookup_drop, Nat.add_0_r.
    rewrite lookup_replicate_2 by done. simpl.
    rewrite (operator_assign_holds _ _ (replicate c num_zero)).
    + reflexivity.
    + by eexists.
    + split; [done|]. apply length_replicate.
Qed.

Lemma grid_shape c cells :
  Forall (λ line, length line = c) cells →
  mat_shape (length cells) c (grid c cells).
Proof.
  intros Hcells. split_and!; simpl; [done|done|by rewrite length_fmap|].
  apply Forall_fmap. eapply Forall_impl; [exact Hcells|].
  intros line Hline. split; [done|]. exists line. by split.
Qed.

Lemma entry_grid c cells i j :
  entry (grid c cells) i j = cells !! i ≫= (.!! j).
Proof.
  unfold entry. simpl. rewrite list_lookup_fmap.
  by destruct (cells !! i).
Qed.

Lemma grid_insert c cells i line :
  mat.mk (length cells) (Some c)
    (<[i:=vec.mk c (Some line) GOOD_ALLOCATOR]>
       ((λ buf, vec.mk c (Some buf) GOOD_ALLOCATOR) <$> cells))
    GOOD_ALLOCATOR
  = grid c (<[i:=line]> cells).
Proof.
  unfold grid. rewrite length_insert. f_equal.
  by rewrite list_fmap_insert.
Qed.

Lemma grid_call c cells i j :
  i < length cells → j < c →
  mat.operator_call i j (grid c cells) = Some ((i, j), grid c cells).
Proof.
  intros Hi Hj. unfold mat.operator_call. unfold_method.
  destruct (Nat.ltb_spec i (length cells)); [|lia]. simpl.
  destruct (lookup_lt_is_Some_2 cells i Hi) as [line Hline].
  rewrite list_lookup_fmap, Hline. simpl.
  rewrite operator_index_lt by done. simpl.
  rewrite grid_insert. by rewrite list_insert_id.
Qed.

Lemma grid_read c cells i j line z :
  cells !! i = Some line → line !! j = Some z →
  mat.read (i, j) (grid c cells) = Some (z, grid c cells).
Proof.
  intros Hline Hz. unfold mat.read, on. simpl.
  rewrite list_lookup_fmap, Hline. simpl.
  rewrite (read_mk _ _ _ _ _ Hz).
  rewrite grid_insert. by rewrite list_insert_id.
Qed.

Lemma grid_write c cells i j line x :
  cells !! i = Some line → j < length line →
  mat.write (i, j) x (grid c cells)
  = Some ((), grid c (<[i:=<[j:=x]> line]> cells)).
Proof.
  intros Hline Hj. unfold mat.write, on. simpl.
  rewrite list_lookup_fmap, Hline. simpl.
  rewrite write_mk by done. by rewrite grid_insert.
Qed.
End matrix_grid.

(** ** The product *)

Section product.
Context {T : Type} {N : number T} {L : number_laws T}.
Context (lhs rhs : mat.basic_matrix T) (rl cl rr cr : nat).
Context (Hl : mat_shape rl cl lhs) (Hr : mat_shape rr cr rhs).
Context (Hrl : 1 ≤ rl) (Hcl : 1 ≤ cl) (Hrr : 1 ≤ rr) (Hcr : 1 ≤ cr).
Context (call_a : nat → nat → method (mat.basic_matrix T) (nat * nat)).
Context (Hcall : call_a = mat.operator_call).

Implicit Types (l r : mat.basic_matrix T).
Implicit Types (cells : list (list T)) (line : list T).

(** The entry [(row, col)] of the product as the loops compute it. *)
Local Abbreviation dot n row col :=
  (sum_of_products (λ inner, cell lhs rl cl row inner)
                   (λ inner, cell rhs rr cr inner col) n).

Lemma value_at_shape m rn cn i j :
  mat_shape rn cn m → 1 ≤ rn → 1 ≤ cn →
  value_at m i j = Some (cell m rn cn i j).
Proof.
  intros Hm Hrn Hcn. unfold value_at, bind.
  change (@mat.operator_call_const T) with (@mat.operator_call T).
  destruct (operator_call_shape rn cn m i j Hm Hrn Hcn)
    as (m' & -> & Hm' & Hsame).
  destruct (clamp_lt rn cn i j Hrn Hcn) as [Hi Hj].
  destruct (read_shape rn cn m' _ Hm' Hi Hj) as (x & Hx & ->).
  simpl. unfold cell. by rewrite <- Hsame, Hx.
Qed.

Lemma sum_of_products_S (a b : nat → T) n :
  sum_of_products a b (S n)
  = num_add (sum_of_products a b n) (num_mul (a n) (b n)).
Proof.
  unfold sum_of_products. by rewrite seq_S, foldl_app.
Qed.

(** One round of the innermost loop. *)
Lemma multiply_add_step c cells line z row col inner l r :
  cells !! row = Some line → line !! col = Some z →
  length line = c → col < c →
  mat_like lhs rl cl l → mat_like rhs rr cr r →
  ∃ l' r',
    mat.multiply_add call_a row col inner (grid c cells, (l, r))
    = Some ((), (grid c
                   (<[row:=<[col:=num_add z
                                    (num_mul (cell lhs rl cl row inner)
                                             (cell rhs rr cr inner col))]>
                             line]> cells),
                 (l', r'))) ∧
    mat_like lhs rl cl l' ∧ mat_like rhs rr cr r'.
Proof using Hcall Hrl Hcl Hrr Hcr.
  intros Hline Hz Hlen Hcol [Hls Hle] [Hrs Hre]. subst call_a.
  destruct (operator_call_shape rl cl l row inner Hls Hrl Hcl)
    as (l' & Hca & Hls' & Hle').
  destruct (operator_call_shape rr cr r inner col Hrs Hrr Hcr)
    as (r' & Hcb & Hrs' & Hre').
  destruct (clamp_lt rl cl row inner Hrl Hcl) as [Hai Haj].
  destruct (clamp_lt rr cr inner col Hrr Hcr) as [Hbi Hbj].
  destruct (read_shape rl cl l' _ Hls' Hai Haj) as (x & Hx & Hrx).
  destruct (read_shape rr cr r' _ Hrs' Hbi Hbj) as (y & Hy & Hry).
  exists l', r'. split; [|split; split; [done| |done|]].
  - unfold mat.multiply_add, mat.outer_, mat.local_.
    change (@mat.operator_call_const T) with (@mat.operator_call T).
    unfold_method. rewrite Hca. simpl. rewrite Hcb. simpl.
    rewrite Hrx. simpl. rewrite Hry. simpl.
    rewrite grid_call; [|by eapply lookup_lt_Some|done]. simpl.
    rewrite (grid_read _ _ _ _ _ _ Hline Hz). simpl.
    rewrite (grid_write _ _ _ _ _ _ Hline); [|by eapply lookup_lt_Some].
    simpl. unfold cell.
    rewrite <- Hle, <- Hle', Hx, <- Hre, <- Hre', Hy. reflexivity.
  - intros a b. by rewrite Hle'.
  - intros a b. by rewrite Hre'.
Qed.
(** The innermost loop adds up the products for one cell that starts
    at zero. *)
Lemma inner_loop n c cells line row col l r :
  cells !! row = Some line → line !! col = Some num_zero →
  length line = c → col < c →
  mat_like lhs rl cl l → mat_like rhs rr cr r →
  ∃ l' r',
    for_ n (λ inner, mat.multiply_add call_a row col inner)
      (grid c cells, (l, r))
    = Some ((), (grid c (<[row:=<[col:=dot n row col]> line]> cells),
                 (l', r'))) ∧
    mat_like lhs rl cl l' ∧ mat_like rhs rr cr r'.
Proof using Hcall Hrl Hcl Hrr Hcr.
  intros Hline Hz Hlen Hcol Hlike_l Hlike_r.
  destruct (for_inv
    (λ k s, ∃ l' r',
       s = (grid c (<[row:=<[col:=dot k row col]> line]> cells), (l', r')) ∧
       mat_like lhs rl cl l' ∧ mat_like rhs rr cr r')
    (λ inner, mat.multiply_add call_a row col inner) n
    (grid c cells, (l, r))) as (s' & Hrun & l' & r' & -> & Hl' & Hr').
  - exists l, r. split; [|done]. unfold sum_of_products. simpl.
    by rewrite (list_insert_id line), (list_insert_id cells).
  - intros k s Hk (l1 & r1 & -> & Hl1 & Hr1).
    destruct (multiply_add_step c
                (<[row:=<[col:=dot k row col]> line]> cells)
                (<[col:=dot k row col]> line) (dot k row col)
                row col k l1 r1) as (l2 & r2 & Hstep & Hl2 & Hr2);
      [ | |by rewrite length_insert|done..| ].
    + apply list_lookup_insert_eq. by eapply lookup_lt_Some.
    + apply list_lookup_insert_eq. lia.
    + eexists. split; [exact Hstep|]. exists l2, r2. split; [|done].
      by rewrite !list_insert_insert_eq, sum_of_products_S.
  - by exists l', r'.
Qed.

(** The middle loop fills one row that starts as zeros. *)
Lemma column_loop n c cells row l r :
  cells !! row = Some (replicate c num_zero) →
  mat_like lhs rl cl l → mat_like rhs rr cr r →
  ∃ l' r',
    for_ c (λ col, for_ n (λ inner, mat.multiply_add call_a row col inner))
      (grid c cells, (l, r))
    = Some ((), (grid c (<[row:=(λ col, dot n row col) <$> seq 0 c]> cells),
                 (l', r'))) ∧
    mat_like lhs rl cl l' ∧ mat_like rhs rr cr r'.
Proof using Hcall Hrl Hcl Hrr Hcr.
  intros Hrow Hlike_l Hlike_r.
  destruct (for_tabulate_rel
    (λ line s, ∃ l' r',
       s = (grid c (<[row:=line]> cells), (l', r')) ∧
       mat_like lhs rl cl l' ∧ mat_like rhs rr cr r')
    (λ col, dot n row col)
    (λ col, for_ n (λ inner, mat.multiply_add call_a row col inner))
    c (replicate c num_zero) (grid c cells, (l, r)))
    as (s' & Hrun & l' & r' & -> & Hl' & Hr').
  - apply length_replicate.
  - exists l, r. split; [|done]. by rewrite list_insert_id.
  - intros col s Hcol (l1 & r1 & -> & Hl1 & Hr1).
    set (line := ((λ col, dot n row col) <$> seq 0 col)
                 ++ drop col (replicate c num_zero)).
    assert (length line = c) as Hlen.
    { unfold line.
      rewrite length_app, length_fmap, length_seq, length_drop,
        length_replicate. lia. }
    destruct (inner_loop n c (<[row:=line]> cells) line row col l1 r1)
      as (l2 & r2 & Hloop & Hl2 & Hr2); [ | |done..| ].
    + apply list_lookup_insert_eq. by eapply lookup_lt_Some.
    + unfold line.
      rewrite lookup_app_r by (rewrite length_fmap, length_seq; lia).
      rewrite length_fmap, length_seq, Nat.sub_diag.
      rewrite lookup_drop, Nat.add_0_r. by apply lookup_replicate_2.
    + eexists. split; [exact Hloop|]. exists l2, r2. split; [|done].
      by rewrite list_insert_insert_eq.
  - by exists l', r'.
Qed.

(** The outer loop fills the rows of a zero matrix. *)
Lemma row_loop n c :
  ∃ l' r',
    mat.accumulate call_a n c
      (grid c (replicate n (replicate c num_zero)), (lhs, rhs))
    = Some ((), (grid c ((λ row, (λ col, dot n row col) <$> seq 0 c)
                           <$> seq 0 n),
                 (l', r'))) ∧
    mat_like lhs rl cl l' ∧ mat_like rhs rr cr r'.
Proof using Hcall Hrl Hcl Hrr Hcr Hl Hr.
  unfold mat.accumulate.
  destruct (for_tabulate_rel
    (λ cells s, ∃ l' r',
       s = (grid c cells, (l', r')) ∧
       mat_like lhs rl cl l' ∧ mat_like rhs rr cr r')
    (λ row, (λ col, dot n row col) <$> seq 0 c)
    (λ row, for_ c (λ col,
              for_ n (λ inner, mat.multiply_add call_a row col inner)))
    n (replicate n (replicate c num_zero))
    (grid c (replicate n (replicate c num_zero)), (lhs, rhs)))
    as (s' & Hrun & l' & r' & -> & Hl' & Hr').
  - apply length_replicate.
  - exists lhs, rhs. by split.
  - intros row s Hrow (l1 & r1 & -> & Hl1 & Hr1).
    set (cells := ((λ row, (λ col, dot n row col) <$> seq 0 c)
                     <$> seq 0 row)
                  ++ drop row (replicate n (replicate c num_zero))).
    destruct (column_loop n c cells row l1 r1)
      as (l2 & r2 & Hloop & Hl2 & Hr2); [ |done..| ].
    + unfold cells.
      rewrite lookup_app_r by (rewrite length_fmap, length_seq; lia).
      rewrite length_fmap, length_seq, Nat.sub_diag.
      rewrite lookup_drop, Nat.add_0_r. by apply lookup_replicate_2.
    + eexists. split; [exact Hloop|]. by exists l2, r2.
  - by exists l', r'.
Qed.
End product.

Section product_operators.
Context {T : Type} {N : number T} {L : number_laws T}.
Context (lhs rhs : mat.basic_matrix T) (rl cl rr cr : nat).
Context (Hl : mat_shape rl cl lhs) (Hr : mat_shape rr cr rhs).

Lemma incompatible_shape :
  mat.incompatible (lhs, rhs)
  = Some (negb (rl =? cr) && negb (cl =? rr), (lhs, rhs)).
Proof using Hl Hr.
  destruct Hl as (Hrl & Hcl & _), Hr as (Hrr & Hcr & _).
  unfold mat.incompatible, mat.and_then, mat.columns_value. unfold_method.
  rewrite Hcr. simpl. rewrite Hrl.
  destruct (rl =? cr); simpl; [done|].
  rewrite Hcl. simpl. by rewrite Hrr.
Qed.

Lemma product_size_shape :
  mat.product_size (lhs, rhs)
  = Some (if cr <=? rl then (rl, cr) else (cl, rr), (lhs, rhs)).
Proof using Hl Hr.
  destruct Hl as (Hrl & Hcl & _), Hr as (Hrr & Hcr & _).
  unfold mat.product_size, mat.columns_value. unfold_method.
  rewrite Hcr. simpl. rewrite Hrl.
  destruct (cr <=? rl); simpl; [done|].
  rewrite Hcl. simpl. by rewrite Hrr.
Qed.

Lemma fresh_row_grid c (cells : list (list T)) :
  fresh_row <$> mat._Allocator (grid c cells) = mat._Allocator (grid c cells).
Proof. simpl. rewrite <- list_fmap_compose. by apply list_fmap_ext. Qed.

Lemma grid_rows_allocated c (cells : list (list T)) :
  Forall (λ line, length line = c) cells →
  Forall vec_allocated (mat._Allocator (grid c cells)).
Proof.
  intros Hcells. simpl. apply Forall_fmap.
  eapply Forall_impl; [exact Hcells|].
  intros line Hline. exists line. by split.
Qed.

(** Assigning a grid makes [this] that grid. *)
Lemma assign_grid (this : mat.basic_matrix T) c (cells : list (list T)) :
  Forall (λ line, length line = c) cells →
  mat.operator_assign (this, grid c cells)
  = Some ((), (grid c cells, grid c cells)).
Proof.
  intros Hcells. rewrite matrix_assign_eq.
  - rewrite fresh_row_grid. reflexivity.
  - simpl. by rewrite length_fmap.
  - by apply grid_rows_allocated.
Qed.

(** [return matrix;] on a local that is a grid: the caller's object has
    the rows of the local and no column count; the local is left as it
    was. *)
Lemma return_grid {St} c (cells : list (list T)) (s : St) :
  Forall (λ line, length line = c) cells →
  on mat.local_ mat.copy (grid c cells, s)
  = Some (mat.mk (length cells) None (mat._Allocator (grid c cells))
                 GOOD_ALLOCATOR,
          (grid c cells, s)).
Proof.
  intros Hcells. unfold on, mat.local_. simpl.
  pose proof (matrix_copy_eq (grid c cells)) as Hcopy.
  rewrite fresh_row_grid in Hcopy. simpl in Hcopy.
  rewrite Hcopy; [done|by rewrite length_fmap|].
  by apply (grid_rows_allocated c cells).
Qed.
End product_operators.

(** The product of the loops, cell by cell. *)
Lemma entry_tabulate {T} (f : nat → nat → T) n c row col :
  row < n → col < c →
  entry (grid c ((λ row, (λ col, f row col) <$> seq 0 c) <$> seq 0 n)) row col
  = Some (f row col).
Proof.
  intros Hrow Hcol. rewrite entry_grid.
  rewrite list_lookup_fmap, lookup_seq_lt by done. simpl.
  by rewrite list_lookup_fmap, lookup_seq_lt by done.
Qed.

Lemma tabulate_shape {T} (f : nat → nat → T) n c :
  mat_shape n c (grid c ((λ row, (λ col, f row col) <$> seq 0 c) <$> seq 0 n)).
Proof.
  pose proof (grid_shape (T:=T) c
    ((λ row, (λ col, f row col) <$> seq 0 c) <$> seq 0 n)) as Hshape.
  rewrite length_fmap, length_seq in Hshape. apply Hshape.
  apply Forall_fmap, Forall_forall. intros row _. simpl.
  by rewrite length_fmap, length_seq.
Qed.

(** C1. On matrices with at least one row and one column whose rows own
    buffers of columnCount cells:
    - the compatibility test of * and *= compares lhs.rowCount with
      rhs.columnCount and lhs.columnCount with rhs.rowCount, and finds the
      operands incompatible when both pairs differ;
    - on incompatible operands binary * returns the 1x1 zero matrix and *=
      returns with this unchanged (the operands are untouched);
    - on compatible operands the loops build the matrix product of the
      dimensions (lhs.rowCount, rhs.columnCount) if
      lhs.rowCount >= rhs.columnCount and (lhs.columnCount, rhs.rowCount)
      otherwise, whose entry (row, col) is the sum over inner in
      [0, rows) of lhs(row, inner) * rhs(inner, col), rows being the
      chosen row count and m(i, j) the value that operator() yields; *=
      leaves this matrix in this;
    - binary * does not return it: the caller receives a copy made by the
      copy constructor, which has those rows and that row count but no
      column count (columnCount is never assigned), so that the result of
      binary * does not have the dimensions of the product.
    The operands keep their cells. *)
Theorem matrix_product {T} `{number_laws T}
    (lhs rhs : mat.basic_matrix T) (rl cl rr cr : nat) :
  mat_shape rl cl lhs → mat_shape rr cr rhs →
  1 ≤ rl → 1 ≤ cl → 1 ≤ rr → 1 ≤ cr →
  mat.incompatible (lhs, rhs)
  = Some (bool_decide (rl ≠ cr ∧ cl ≠ rr), (lhs, rhs)) ∧
  (rl ≠ cr ∧ cl ≠ rr →
     mat.operator_mul (lhs, rhs) = Some (grid 1 [[num_zero]], (lhs, rhs)) ∧
     mat.operator_mul_assign (lhs, rhs) = Some ((), (lhs, rhs))) ∧
  (¬ (rl ≠ cr ∧ cl ≠ rr) →
     let rows := if cr <=? rl then rl else cl in
     let columns := if cr <=? rl then cr else rr in
     ∃ (a b : nat → nat → T) (product : mat.basic_matrix T),
       (∀ i j, value_at lhs i j = Some (a i j)) ∧
       (∀ i j, value_at rhs i j = Some (b i j)) ∧
       mat_shape rows columns product ∧
       (∀ row col, row < rows → col < columns →
          entry product row col
          = Some (sum_of_products (a row) (λ inner, b inner col) rows)) ∧
       (∃ result lhs' rhs',
          mat.operator_mul (lhs, rhs) = Some (result, (lhs', rhs')) ∧
          mat._Rows result = rows ∧
          mat._Allocator result = mat._Allocator product ∧
          mat._Status result = GOOD_ALLOCATOR ∧
          mat._Columns result = None ∧
          ¬ mat_shape rows columns result ∧
          mat_like lhs rl cl lhs' ∧ mat_like rhs rr cr rhs') ∧
       (∃ rhs',
          mat.operator_mul_assign (lhs, rhs) = Some ((), (product, rhs')) ∧
          mat_like rhs rr cr rhs')).
Proof.
  intros Hl Hr Hrl Hcl Hrr Hcr.
  pose proof (incompatible_shape lhs rhs rl cl rr cr Hl Hr) as Htest.
  pose proof (product_size_shape lhs rhs rl cl rr cr Hl Hr) as Hsize.
  assert (negb (rl =? cr) && negb (cl =? rr)
          = bool_decide (rl ≠ cr ∧ cl ≠ rr)) as Hbool.
  { destruct (Nat.eqb_spec rl cr), (Nat.eqb_spec cl rr); simpl; symmetry;
      first [ by apply bool_decide_eq_true_2
            | apply bool_decide_eq_false_2; by intros [? ?] ]. }
  rewrite Hbool in Htest. split_and!; [done| |].
  - intros Hbad. apply (bool_decide_eq_true_2 _) in Hbad.
    unfold mat.operator_mul, mat.operator_mul_assign, bind.
    rewrite Htest, Hbad. split; [|done].
    by rewrite (basic_matrix_fill_zero 1 1).
  - intros Hok rows columns. apply (bool_decide_eq_false_2 _) in Hok.
    set (a := λ i j, cell lhs rl cl i j).
    set (b := λ i j, cell rhs rr cr i j).
    set (cells :=
           (λ row, (λ col, sum_of_products (a row) (λ inner, b inner col) rows)
                     <$> seq 0 columns) <$> seq 0 rows).
    set (product := grid columns cells).
    assert (Forall (λ line, length line = columns) cells) as Hcells.
    { apply Forall_fmap, Forall_forall. intros row _. simpl.
      by rewrite length_fmap, length_seq. }
    assert (length cells = rows) as Hlen.
    { unfold cells. by rewrite length_fmap, length_seq. }
    exists a, b, product. split_and!.
    + intros i j. by apply value_at_shape.
    + intros i j. by apply value_at_shape.
    + apply tabulate_shape.
    + intros row col Hrow Hcol.
      by apply (entry_tabulate
        (λ row col, sum_of_products (a row) (λ inner, b inner col) rows)).
    + destruct (row_loop lhs rhs rl cl rr cr Hl Hr Hrl Hcl Hrr Hcr
                  mat.operator_call_const eq_refl rows columns)
        as (lhs' & rhs' & Hloop & Hlhs' & Hrhs').
      exists (mat.mk rows None (mat._Allocator product) GOOD_ALLOCATOR),
        lhs', rhs'.
      split_and!; [|done..| |done|done].
      * unfold mat.operator_mul, bind. rewrite Htest, Hok, Hsize.
        replace (if cr <=? rl then (rl, cr) else (cl, rr))
          with (rows, columns)
          by (unfold rows, columns; by destruct (cr <=? rl)).
        unfold lift_option at 1. simpl. rewrite basic_matrix_fill_zero.
        unfold with_temp, with_local, bind.
        fold a b cells in Hloop. rewrite Hloop.
        rewrite (return_grid columns cells (lhs', rhs') Hcells).
        by rewrite Hlen.
      * by intros (_ & [=] & _).
    + destruct (row_loop lhs rhs rl cl rr cr Hl Hr Hrl Hcl Hrr Hcr
                  mat.operator_call eq_refl rows columns)
        as (lhs' & rhs' & Hloop & Hlhs' & Hrhs').
      exists rhs'. split; [|done].
      unfold mat.operator_mul_assign, bind. rewrite Htest, Hok, Hsize.
      replace (if cr <=? rl then (rl, cr) else (cl, rr))
        with (rows, columns) by (unfold rows, columns; by destruct (cr <=? rl)).
      unfold_method. rewrite basic_matrix_fill_zero.
      unfold_method in Hloop. rewrite Hloop. simpl.
      fold a b cells. by rewrite assign_grid.
Qed.

Lemma matrix_product_witness :
  let lhs := grid 3 [[Int 1; Int 2; Int 3]; [Int 4; Int 5; Int 6]] in
  let rhs := grid 2 [[Int 1; Int 2]; [Int 3; Int 4]; [Int 5; Int 6]] in
  ∃ result lhs' rhs',
    mat.operator_mul (lhs, rhs) = Some (result, (lhs', rhs')) ∧
    mat._Rows result = 2 ∧ mat._Columns result = None ∧
    entry result 0 0 = Some (Int 7).
Proof.
  intros lhs rhs.
  destruct (matrix_product lhs rhs 2 3 3 2) as (_ & _ & Hok).
  - apply (grid_shape 3 [[Int 1; Int 2; Int 3]; [Int 4; Int 5; Int 6]]).
    by repeat constructor.
  - apply (grid_shape 2 [[Int 1; Int 2]; [Int 3; Int 4]; [Int 5; Int 6]]).
    by repeat constructor.
  - lia.
  - lia.
  - lia.
  - lia.
  - destruct Hok as (a & b & product & Ha & Hb & Hshape & Hentry
                     & (result & lhs' & rhs' & Hmul & Hrows & Hcells & _
                        & Hcolumns & _) & _).
    { by intros [? _]. }
    exists result, lhs', rhs'. split_and!; [done..|].
    assert (entry result 0 0 = entry product 0 0) as ->
      by (unfold entry; by rewrite Hcells).
    rewrite (Hentry 0 0) by (simpl; lia).
    pose proof (Ha 0 0) as Ha0. pose proof (Ha 0 1) as Ha1.
    pose proof (Hb 0 0) as Hb0. pose proof (Hb 1 0) as Hb1.
    vm_compute in Ha0, Ha1, Hb0, Hb1.
    injection Ha0 as Ha0. injection Ha1 as Ha1.
    injection Hb0 as Hb0. injection Hb1 as Hb1.
    unfold sum_of_products. simpl. by rewrite <- Ha0, <- Ha1, <- Hb0, <- Hb1.
Defined.

(** The product of a 2x3 and a 3x2 matrix, as the caller of binary *
    receives it and as *= leaves it in this: the same rows, and a column
    count only in the second. *)
Lemma binary_product_has_no_column_count :
  let lhs := grid 3 [[Int 1; Int 2; Int 3]; [Int 4; Int 5; Int 6]] in
  let rhs := grid 2 [[Int 1; Int 2]; [Int 3; Int 4]; [Int 5; Int 6]] in
  let rows := [vec.mk 2 (Some [Int 7; Int 10]) GOOD_ALLOCATOR;
               vec.mk 2 (Some [Int 19; Int 28]) GOOD_ALLOCATOR] in
  mat.operator_mul (lhs, rhs)
  = Some (mat.mk 2 None rows GOOD_ALLOCATOR, (lhs, rhs)) ∧
  mat.operator_mul_assign (lhs, rhs)
  = Some ((), (mat.mk 2 (Some 2) rows GOOD_ALLOCATOR, rhs)).
Proof. by split. Qed.

(** Unlike the comparisons, the product can change its operands: the
    accessor flags every clamped index in the status of the matrix or of
    the row. *)
Lemma product_flags_clamped_indices :
  let lhs := grid 1 [[Int 1]; [Int 2]; [Int 3]] in
  let rhs := grid 3 [[Int 4; Int 5; Int 6]] in
  ∃ product lhs' rhs',
    mat.operator_mul (lhs, rhs) = Some (product, (lhs', rhs')) ∧
    mat._Allocator product
    = mat._Allocator (grid 3 [[Int 16; Int 17; Int 18];
                              [Int 32; Int 34; Int 36];
                              [Int 48; Int 51; Int 54]]) ∧
    mat._Status rhs' = BOUND_ARRAY ∧
    vec._Status <$> mat._Allocator lhs'
    = [BOUND_ARRAY; BOUND_ARRAY; BOUND_ARRAY].
Proof. vm_compute. by eexists _, _, _. Qed.

(** ** Sum and difference of matrices *)

Section matrix_sum.
Context {T : Type} {N : number T} {L : number_laws T}.
Context (lhs rhs : mat.basic_matrix T) (rl cl rr cr : nat).
Context (Hl : mat_shape rl cl lhs) (Hr : mat_shape rr cr rhs).

Lemma shape_rows_allocated :
  length (mat._Allocator lhs) = mat._Rows lhs ∧
  Forall vec_allocated (mat._Allocator lhs).
Proof using Hl.
  destruct Hl as (Hrows & _ & Hlen & Hall). split; [congruence|].
  eapply Forall_impl; [exact Hall|]. by intros row [_ ?].
Qed.

(** When both dimensions differ the guard is taken: the binary
    operators return the copy of the left operand, flagged, and the
    compound ones return at once. *)
Lemma matrix_sum_both_differ op :
  rl ≠ rr → cl ≠ cr →
  mat.elementwise op (lhs, rhs)
  = Some (mat.mk rl None (fresh_row <$> mat._Allocator lhs) BOUND_ARRAY,
          (lhs, rhs)).
Proof using Hl Hr.
  intros Hrows Hcols. destruct shape_rows_allocated as [Hlen Hall].
  unfold mat.elementwise. unfold_method.
  rewrite (matrix_copy_eq _ Hlen Hall). simpl.
  pose proof (both_differ_shape _ _ _ _ _ _ Hl Hr) as Hguard.
  unfold_method in Hguard. rewrite Hguard. simpl.
  destruct (Nat.eqb_spec rl rr); [done|].
  destruct (Nat.eqb_spec cl cr); [done|]. simpl.
  destruct Hl as (-> & _). reflexivity.
Qed.

Lemma matrix_sum_assign_both_differ op :
  rl ≠ rr → cl ≠ cr →
  mat.elementwise_assign op (lhs, rhs) = Some ((), (lhs, rhs)).
Proof using Hl Hr.
  intros Hrows Hcols.
  unfold mat.elementwise_assign. unfold_method.
  pose proof (both_differ_shape _ _ _ _ _ _ Hl Hr) as Hguard.
  unfold_method in Hguard. rewrite Hguard. simpl.
  destruct (Nat.eqb_spec rl rr); [done|].
  by destruct (Nat.eqb_spec cl cr).
Qed.
End matrix_sum.

(** C4. A 2x2 matrix and a 2x3 matrix mismatch (the column counts
    differ), yet binary + and binary - do not return a flagged copy of
    the left operand: the guard needs both dimensions to differ, so the
    rows are added; the row operator gives zeros for rows of different
    lengths, and the result is a zero matrix with the status
    GOOD_ALLOCATOR. With a 2x2 and a 3x2 matrix (the row counts differ)
    += does not return this unchanged: it adds the first two rows. *)
Theorem matrix_sum_guard_misses_single_mismatch :
  let lhs := grid 2 [[Int 1; Int 2]; [Int 4; Int 5]] in
  let rhs := grid 3 [[Int 1; Int 2; Int 3]; [Int 4; Int 5; Int 6]] in
  let other := grid 2 [[Int 1; Int 2]; [Int 4; Int 5]; [Int 7; Int 8]] in
  let zeros := vec.mk 2 (Some [Int 0; Int 0]) GOOD_ALLOCATOR in
  mat.operator_add (lhs, rhs)
  = Some (mat.mk 2 None [zeros; zeros] GOOD_ALLOCATOR, (lhs, rhs)) ∧
  mat.operator_sub (lhs, rhs)
  = Some (mat.mk 2 None [zeros; zeros] GOOD_ALLOCATOR, (lhs, rhs)) ∧
  mat.operator_add_assign (lhs, other)
  = Some ((), (grid 2 [[Int 2; Int 4]; [Int 8; Int 10]], other)) ∧
  mat.operator_sub_assign (lhs, other)
  = Some ((), (grid 2 [[Int 0; Int 0]; [Int 0; Int 0]], other)).
Proof. vm_compute. by split_and!. Qed.

(** With equal column counts and more rows on the left, the guard lets
    the loop read a row that the right operand does not have. *)
Lemma matrix_sum_reads_past_the_rows :
  let lhs := grid 2 [[Int 1; Int 2]; [Int 4; Int 5]; [Int 7; Int 8]] in
  let rhs := grid 2 [[Int 1; Int 2]; [Int 4; Int 5]] in
  mat.operator_add (lhs, rhs) = None ∧
  mat.operator_add_assign (lhs, rhs) = None.
Proof. vm_compute. by split. Qed.

(** ** Rows and columnCount *)

Section matrix_invariant.
Context {T : Type} {N : number T} {L : number_laws T}.
Implicit Types (m this other : mat.basic_matrix T).

Lemma shape_rows_match rn cn m : mat_shape rn cn m → rows_match_columns m.
Proof.
  intros (_ & Hc & _ & Hrows). exists cn. split; [done|].
  eapply Forall_impl; [exact Hrows|]. by intros row [? _].
Qed.

(** [basic_matrix(size)] and [basic_matrix()] build a zero matrix. *)
Lemma basic_matrix_sized_eq size :
  mat.basic_matrix_sized (T:=T) size
  = Some (grid size (replicate size (replicate size num_zero))).
Proof.
  unfold mat.basic_matrix_sized. rewrite new_rows_eq. simpl.
  rewrite (for_tabulate (λ rows, mat.mk size (Some size) rows GOOD_ALLOCATOR)
    (λ _, vec.mk size (Some (replicate size (num_zero : T)))
                 GOOD_ALLOCATOR)).
  - simpl. unfold grid. rewrite length_replicate, tabulate_const.
    by rewrite fmap_replicate.
  - apply length_replicate.
  - intros i Hi. unfold_method. rewrite basic_vector_sized_eq. simpl.
    rewrite lookup_app_r by (rewrite length_fmap, length_seq; lia).
    rewrite length_fmap, length_seq, Nat.sub_diag.
    rewrite lookup_drop, Nat.add_0_r.
    rewrite lookup_replicate_2 by done. simpl.
    rewrite (operator_assign_holds _ _ (replicate size num_zero)).
    + reflexivity.
    + by eexists.
    + split; [done|]. apply length_replicate.
Qed.

Lemma basic_matrix_default_eq :
  mat.basic_matrix_default (T:=T)
  = Some (grid 5 (replicate 5 (replicate 5 num_zero))).
Proof. reflexivity. Qed.

Lemma zero_grid_shape rn cn :
  mat_shape (T:=T) rn cn (grid cn (replicate rn (replicate cn num_zero))).
Proof.
  pose proof (grid_shape (T:=T) cn (replicate rn (replicate cn num_zero)))
    as Hshape.
  rewrite length_replicate in Hshape. apply Hshape.
  apply Forall_replicate, length_replicate.
Qed.

(** The sized constructors establish the invariant. *)
Lemma sized_constructors_rows_match :
  (∃ m, mat.basic_matrix_default (T:=T) = Some m ∧ rows_match_columns m) ∧
  (∀ size, ∃ m, mat.basic_matrix_sized (T:=T) size = Some m ∧
                rows_match_columns m) ∧
  (∀ rn cn, ∃ m, mat.basic_matrix_fill (T:=T) rn cn num_zero = Some m ∧
                 rows_match_columns m).
Proof.
  split_and!.
  - eexists. split; [apply basic_matrix_default_eq|].
    eapply shape_rows_match, zero_grid_shape.
  - intros size. eexists. split; [apply basic_matrix_sized_eq|].
    eapply shape_rows_match, zero_grid_shape.
  - intros rn cn. eexists. split; [apply basic_matrix_fill_zero|].
    eapply shape_rows_match, zero_grid_shape.
Qed.

(** Copy assignment takes [_Columns] from the source and establishes
    the invariant. *)
Lemma assign_rows_match this other rn cn :
  mat_shape rn cn other →
  ∃ this', mat.operator_assign (this, other) = Some ((), (this', other)) ∧
           mat_shape rn cn this'.
Proof.
  intros Hother.
  destruct (shape_rows_allocated other rn cn Hother) as [Hlen Hall].
  eexists. split; [by apply matrix_assign_eq|].
  destruct Hother as (Hr & Hc & Hn & Hrows).
  split_and!; simpl; [done|done|by rewrite length_fmap|].
  apply Forall_fmap. eapply Forall_impl; [exact Hrows|].
  intros row [Hrow [buf [Hbuf Hbl]]]. split; [done|].
  exists buf. by split.
Qed.

(** The copy constructor never gives [_Columns] a value, so its result
    never satisfies the invariant. *)
Lemma copy_rows_mismatch other rn cn :
  mat_shape rn cn other →
  ∃ c, mat.copy other = Some (c, other) ∧
       mat._Columns c = None ∧ ¬ rows_match_columns c ∧
       mat._Rows c = rn ∧ ∀ i j, entry c i j = entry other i j.
Proof.
  intros Hother.
  destruct (shape_rows_allocated other rn cn Hother) as [Hlen Hall].
  eexists. split; [by apply matrix_copy_eq|].
  split_and!; simpl.
  - done.
  - by intros (c & [=] & _).
  - by destruct Hother.
  - intros i j. destruct other. apply entry_fresh_rows.
Qed.
End matrix_invariant.

(** C8. A 2x3 matrix built by basic_matrix(rows, columns, value)
    satisfies the invariant, and so does any matrix that is assigned from
    it; its copy constructed by basic_matrix(const basic_matrix&) does
    not: the copy has the two rows of length 3 but its columnCount was
    never given a value. *)
Theorem copy_constructor_leaves_columns_unset :
  let m := grid 3 [[Int 1; Int 2; Int 3]; [Int 4; Int 5; Int 6]] in
  let rows := [vec.mk 3 (Some [Int 1; Int 2; Int 3]) GOOD_ALLOCATOR;
               vec.mk 3 (Some [Int 4; Int 5; Int 6]) GOOD_ALLOCATOR] in
  rows_match_columns m ∧
  mat.copy m = Some (mat.mk 2 None rows GOOD_ALLOCATOR, m) ∧
  ¬ rows_match_columns (mat.mk 2 None rows GOOD_ALLOCATOR) ∧
  mat.operator_assign (grid 1 [[Int 0]], m) = Some ((), (m, m)).
Proof.
  intros m rows. split_and!.
  - exists 3. split; [done|]. by repeat constructor.
  - reflexivity.
  - by intros (c & [=] & _).
  - reflexivity.
Qed.

(** * Further properties *)

(** ** Invariants of computations *)

Section invariants.
Context {St : Type} (P : St → Prop).

Lemma keeps_ret {A} (a : A) : keeps P (ret a).
Proof. by intros s a' s' HP [= _ <-]. Qed.

Lemma keeps_get : keeps P get.
Proof. by intros s a' s' HP [= _ <-]. Qed.

Lemma keeps_lift_option {A} (o : option A) : keeps P (lift_option o).
Proof.
  intros s a s' HP. unfold lift_option. destruct o; [|done].
  by intros [= _ <-].
Qed.

Lemma keeps_modify (f : St → St) : (∀ s, P s → P (f s)) → keeps P (modify f).
Proof. intros Hf s a s' HP [= _ <-]. by apply Hf. Qed.

Lemma keeps_put (s0 : St) : P s0 → keeps P (put s0).
Proof. by intros H0 s a s' HP [= _ <-]. Qed.

Lemma keeps_bind {A B} (m : method St A) (k : A → method St B) :
  keeps P m → (∀ a, keeps P (k a)) → keeps P (bind m k).
Proof.
  intros Hm Hk s b s' HP. unfold bind.
  destruct (m s) as [[a s1]|] eqn:Hrun; [|done].
  intros Hrest. eapply Hk; [|exact Hrest]. by eapply Hm.
Qed.

Lemma keeps_for_from start count (body : nat → method St ()) :
  (∀ i, keeps P (body i)) → keeps P (for_from start count body).
Proof.
  intros Hbody. revert start.
  induction count as [|count IH]; intros start; simpl.
  - apply keeps_ret.
  - apply keeps_bind; [apply Hbody|]. intros _. apply IH.
Qed.

Lemma keeps_for n (body : nat → method St ()) :
  (∀ i, keeps P (body i)) → keeps P (for_ n body).
Proof. apply keeps_for_from. Qed.

Lemma keeps_readonly {A} (m : method St A) : preserves id m → keeps P m.
Proof.
  intros Hm s a s' HP Hrun. apply Hm in Hrun. simpl in Hrun. by subst.
Qed.

(** A call on a sub-object that keeps [Q], when [P] implies [Q] of the
    sub-object and is restored by putting back any sub-object with [Q]. *)
Lemma keeps_on {Sub A} (Q : Sub → Prop) (p : path St Sub) (m : method Sub A) :
  (∀ s o, P s → view p s = Some o → Q o) →
  (∀ s o', P s → Q o' → P (update p o' s)) →
  keeps Q m → keeps P (on p m).
Proof.
  intros Hview Hupdate Hm s a s' HP. unfold on.
  destruct (view p s) as [o|] eqn:Hv; [|done].
  destruct (m o) as [[a' o']|] eqn:Hrun; [|done].
  intros [= _ <-]. apply Hupdate; [done|].
  eapply Hm; [|exact Hrun]. by eapply Hview.
Qed.
End invariants.

(** ** The addition of the element types *)

Lemma wrap_int_add_l x y : wrap_int (wrap_int x + y) = wrap_int (x + y).
Proof.
  unfold wrap_int. f_equal.
  replace ((x + 2 ^ 31) mod 2 ^ 32 - 2 ^ 31 + y + 2 ^ 31)%Z
    with ((x + 2 ^ 31) mod 2 ^ 32 + y)%Z by lia.
  rewrite Zplus_mod_idemp_l. f_equal. lia.
Qed.

Global Instance int_add_laws : number_add_laws int.
Proof.
  split.
  - intros [x] [y]. simpl. by rewrite Z.add_comm.
  - intros [x] [y] [z]. simpl. f_equal.
    rewrite wrap_int_add_l.
    rewrite (Z.add_comm x (wrap_int (y + z))), wrap_int_add_l.
    f_equal. lia.
  - reflexivity.
Qed.

Global Instance unsigned_add_laws : number_add_laws unsigned.
Proof.
  split.
  - intros [x] [y]. simpl. by rewrite Z.add_comm.
  - intros [x] [y] [z]. simpl. f_equal. unfold wrap_unsigned.
    rewrite Zplus_mod_idemp_l, Zplus_mod_idemp_r. f_equal. lia.
  - reflexivity.
Qed.

(** ** Vectors as the constructors leave them *)

Section vector_values.
Context {T : Type} {N : number T}.
Implicit Types (v : vec.basic_vector T) (buf : list T) (x : T).

Lemma index_value_lt v buf i x :
  vec_holds v buf → buf !! i = Some x → index_value i v = Some (x, v).
Proof.
  intros [Hb Hlen] Hx. unfold index_value, bind.
  rewrite operator_index_lt by (rewrite <- Hlen; by eapply lookup_lt_Some).
  by apply read_holds with buf.
Qed.

Lemma at_value_lt v buf i x :
  vec_holds v buf → buf !! i = Some x → at_value i v = Some (x, v).
Proof.
  intros [Hb Hlen] Hx. unfold at_value, bind. simpl.
  by apply read_holds with buf.
Qed.

Lemma index_value_ge v buf i :
  vec_holds v buf → 1 ≤ vec._Length v → vec._Length v ≤ i →
  ∃ x, last buf = Some x ∧
       index_value i v = Some (x, vec.with_Status BOUND_ARRAY v).
Proof.
  intros [Hb Hlen] Hn Hi.
  destruct (lookup_lt_is_Some_2 buf (vec._Length v - 1)) as [x Hx]; [lia|].
  exists x. split.
  - rewrite last_lookup. rewrite Hlen.
    by replace (Init.Nat.pred (vec._Length v)) with (vec._Length v - 1) by lia.
  - unfold index_value, bind. rewrite operator_index_ge, size_sub_1 by done.
    by apply read_holds with buf.
Qed.

End vector_values.



(** X2. The two filling constructors, where they allocate:
    basic_vector(n, value) for the signed and floating element types
    stores value in each of the n cells, and basic_vector(n, long) for the
    unsigned ones, given a value that is not negative, stores the value
    converted to T in each of them. The status is GOOD_ALLOCATOR and every
    index below n reads the stored value. *)
Theorem filled_vector_reads_value {T} `{number T} (n : nat) (x : T) (z : Z) :
  (∃ v, vec.basic_vector_value n x = Some v ∧
        vec._Length v = n ∧ vec._Status v = GOOD_ALLOCATOR ∧
        ∀ i, i < n → index_value i v = Some (x, v)) ∧
  ((0 <= z)%Z →
   ∃ v, vec.basic_vector_long n z = Some v ∧
        vec._Length v = n ∧ vec._Status v = GOOD_ALLOCATOR ∧
        ∀ i, i < n → index_value i v = Some (num_of_long z, v)).
Proof.
  split.
  - eexists. split; [apply basic_vector_value_eq|]. split_and!; [done..|].
    intros i Hi. eapply index_value_lt; [|by apply lookup_replicate_2].
    split; [done|]. apply length_replicate.
  - intros Hz. eexists. split; [by apply basic_vector_long_nonneg|].
    split_and!; [done..|].
    intros i Hi. eapply index_value_lt; [|by apply lookup_replicate_2].
    split; [done|]. apply length_replicate.
Qed.

Lemma filled_vector_reads_value_witness :
  ∃ v : vec.basic_vector unsigned,
    vec.basic_vector_long 4 7 = Some v ∧
    index_value 3 v = Some (Unsigned 7, v).
Proof.
  destruct (filled_vector_reads_value (T:=unsigned) 4 (Unsigned 0) 7)
    as (_ & Hlong).
  destruct Hlong as (v & Hv & _ & _ & Hread); [lia|].
  exists v. split; [done|]. apply Hread. lia.
Defined.

(** ** Reading and writing through operator[] *)

(** X3. On a vector of length N >= 1 that owns its buffer, the expression
    v[i] with i >= N has the value of the last element and sets the status
    to BOUND_ARRAY, and the statement v[i] = x with i >= N overwrites the
    last element (and only it). The same index through at has no defined
    value. *)
Theorem index_past_the_end_is_the_last_element {T} `{number T}
    (v : vec.basic_vector T) (buf : list T) (i : nat) (x : T) :
  vec_holds v buf → 1 ≤ vec._Length v → vec._Length v ≤ i →
  (∃ y, last buf = Some y ∧
        index_value i v = Some (y, vec.with_Status BOUND_ARRAY v)) ∧
  index_store i x v
  = Some ((), vec.mk (vec._Length v)
                     (Some (<[vec._Length v - 1:=x]> buf)) BOUND_ARRAY) ∧
  at_value i v = None.
Proof.
  intros Hv Hn Hi. pose proof Hv as [Hb Hlen]. split_and!.
  - by apply index_value_ge.
  - unfold index_store, bind.
    rewrite operator_index_ge, size_sub_1 by done.
    unfold vec.write. simpl. rewrite Hb. by rewrite decide_True by lia.
  - unfold at_value, bind. simpl. unfold vec.read. rewrite Hb.
    by rewrite lookup_ge_None_2 by lia.
Qed.

Lemma index_past_the_end_is_the_last_element_witness :
  let v := vec.mk 3 (Some [Int 1; Int 2; Int 3]) GOOD_ALLOCATOR in
  index_value 7 v = Some (Int 3, vec.with_Status BOUND_ARRAY v) ∧
  index_store 7 (Int 9) v
  = Some ((), vec.mk 3 (Some [Int 1; Int 2; Int 9]) BOUND_ARRAY).
Proof.
  intros v.
  destruct (index_past_the_end_is_the_last_element v
              [Int 1; Int 2; Int 3] 7 (Int 9))
    as ((y & Hy & Hread) & Hstore & _); [by split|simpl; lia..|].
  injection Hy as <-. by split.
Defined.

(** X4. After set(value, i) with i in range, reading index i gives value
    and reading any other index j in range gives what it gave before,
    through operator[] as through at; the reads change nothing. *)
Theorem set_then_read {T} `{number T}
    (v : vec.basic_vector T) (buf : list T) (value : T) (i j : nat) :
  vec_holds v buf → i < vec._Length v → j < vec._Length v →
  ∃ v' old,
    vec.set value i v = Some ((), v') ∧ index_value j v = Some (old, v) ∧
    index_value j v' = Some (if decide (j = i) then value else old, v') ∧
    at_value j v' = Some (if decide (j = i) then value else old, v').
Proof.
  intros Hv Hi Hj. pose proof Hv as [Hb Hlen].
  destruct (lookup_lt_is_Some_2 buf j) as [old Hold]; [lia|].
  exists (vec.mk (vec._Length v) (Some (<[i:=value]> buf)) (vec._Status v)), old.
  assert (vec_holds (vec.mk (vec._Length v) (Some (<[i:=value]> buf))
                            (vec._Status v)) (<[i:=value]> buf)) as Hv'.
  { split; [done|]. by rewrite length_insert. }
  assert (<[i:=value]> buf !! j = Some (if decide (j = i) then value else old))
    as Hnew.
  { case_decide as Hij.
    - subst j. apply list_lookup_insert_eq. lia.
    - by rewrite list_lookup_insert_ne. }
  split_and!.
  - unfold vec.set, vec.write. rewrite Hb. by rewrite decide_True by lia.
  - by apply index_value_lt with buf.
  - by eapply index_value_lt.
  - by eapply at_value_lt.
Qed.

Lemma set_then_read_witness :
  let v := vec.mk 3 (Some [Int 1; Int 2; Int 3]) GOOD_ALLOCATOR in
  ∃ v', vec.set (Int 9) 1 v = Some ((), v') ∧
        index_value 1 v' = Some (Int 9, v') ∧
        index_value 2 v' = Some (Int 3, v').
Proof.
  intros v.
  destruct (set_then_read v [Int 1; Int 2; Int 3] (Int 9) 1 1)
    as (v1 & old1 & Hset1 & _ & Hread1 & _); [by split|simpl; lia..|].
  destruct (set_then_read v [Int 1; Int 2; Int 3] (Int 9) 1 2)
    as (v2 & old2 & Hset2 & Hold2 & Hread2 & _); [by split|simpl; lia..|].
  rewrite Hset1 in Hset2. injection Hset2 as <-.
  vm_compute in Hold2. injection Hold2 as <-.
  exists v1. by split_and!.
Defined.

(** ** Copies of vectors *)

(** X5. From a vector other that owns its buffer, the copy constructor
    makes a vector with the same length and the same elements whose status
    is GOOD_ALLOCATOR whatever the status of the source, and copy
    assignment to a vector this that owns a buffer gives this the length
    and the elements of other while this keeps its own status. Neither
    changes the source. On a vector this whose pointer member was never
    assigned (what basic_vector(n, long) leaves for a negative value),
    copy assignment has no defined result: it tests and frees that
    pointer first. *)
Theorem vector_copies_do_not_take_the_status {T} `{number T}
    (this other : vec.basic_vector T) (buf : list T) :
  vec_holds other buf →
  vec.copy other
  = Some (vec.mk (vec._Length other) (Some buf) GOOD_ALLOCATOR, other) ∧
  (is_Some (vec._Allocator this) →
   vec.operator_assign (this, other)
   = Some ((), (vec.mk (vec._Length other) (Some buf) (vec._Status this),
                other))) ∧
  (vec._Allocator this = None → vec.operator_assign (this, other) = None).
Proof.
  intros Hother. split_and!.
  - by apply copy_holds.
  - intros Hthis. by apply operator_assign_holds.
  - intros Hthis.
    unfold vec.operator_assign, vec.delete_array. unfold_method.
    by rewrite Hthis.
Qed.

Lemma vector_copies_do_not_take_the_status_witness :
  let this := vec.mk 1 (Some [Int 0]) DIVIDED_ZERO in
  let other := vec.mk 2 (Some [Int 5; Int 6]) BOUND_ARRAY in
  vec.copy other
  = Some (vec.mk 2 (Some [Int 5; Int 6]) GOOD_ALLOCATOR, other) ∧
  vec.operator_assign (this, other)
  = Some ((), (vec.mk 2 (Some [Int 5; Int 6]) DIVIDED_ZERO, other)).
Proof.
  intros this other.
  destruct (vector_copies_do_not_take_the_status this other [Int 5; Int 6])
    as (Hcopy & Hassign & _); [by split|].
  split; [exact Hcopy|]. apply Hassign. by eexists.
Defined.

(** ** Scaling a vector *)

Section vector_scaling.
Context {T : Type} {N : number T} {L : number_laws T}.
Implicit Types (v this other : vec.basic_vector T) (buf : list T) (k : T).

Lemma tabulate_fmap {A B} (f : A → B) (d : B) (l : list A) :
  (λ i, default d (f <$> l !! i)) <$> seq 0 (length l) = f <$> l.
Proof.
  rewrite <- (tabulate_lookup d (f <$> l) (length l))
    by by rewrite length_fmap.
  apply list_fmap_ext. intros _ i _. by rewrite list_lookup_fmap.
Qed.

Lemma vector_mul_one other buf :
  vec_holds other buf →
  vec.operator_mul num_one other
  = Some (vec.mk (vec._Length other) (Some buf) GOOD_ALLOCATOR, other).
Proof.
  intros Hb. unfold vec.operator_mul, bind. rewrite (copy_holds _ _ Hb).
  assert (num_eqb (num_one : T) num_one = true) as -> by by apply num_eqb_eq.
  reflexivity.
Qed.

Lemma vector_mul_assign_one this :
  vec.operator_mul_assign num_one this = Some ((), this).
Proof.
  unfold vec.operator_mul_assign.
  assert (num_eqb (num_one : T) num_one = true) as -> by by apply num_eqb_eq.
  reflexivity.
Qed.

Lemma vector_mul_other other buf k :
  vec_holds other buf → k ≠ num_one →
  vec.operator_mul k other
  = Some (vec.mk (vec._Length other) (Some ((λ x, num_mul x k) <$> buf))
                 GOOD_ALLOCATOR, other).
Proof.
  intros Hb Hk. pose proof Hb as [Hbuf Hlen].
  unfold vec.operator_mul, bind. rewrite (copy_holds _ _ Hb).
  apply num_eqb_false in Hk as Hk'. rewrite Hk'.
  unfold vec.length. unfold_method.
  rewrite (for_tabulate
    (λ c, (vec.mk (vec._Length other) (Some c) GOOD_ALLOCATOR, other))
    (λ i, default num_zero ((λ x, num_mul x k) <$> buf !! i))); [| done |].
  - by rewrite <- Hlen, tabulate_fmap.
  - intros i Hi. unfold_method.
    destruct (lookup_lt_is_Some_2 buf i) as [x Hx]; [lia|].
    rewrite operator_index_const_eq, operator_index_lt by done. simpl.
    rewrite (read_holds _ _ _ _ Hbuf Hx). simpl.
    rewrite operator_index_lt by done. simpl.
    rewrite write_mk; [by rewrite Hx|].
    rewrite length_app, length_fmap, length_seq, length_drop. lia.
Qed.

Lemma vector_mul_assign_other this buf k :
  vec_holds this buf → k ≠ num_one →
  vec.operator_mul_assign k this
  = Some ((), vec.mk (vec._Length this) (Some ((λ x, num_mul x k) <$> buf))
                     (vec._Status this)).
Proof.
  intros [Hbuf Hlen] Hk. unfold vec.operator_mul_assign.
  apply num_eqb_false in Hk as Hk'. rewrite Hk'. unfold_method.
  destruct this as [n alloc st]. simpl in *. subst alloc.
  rewrite (for_tabulate (λ c, vec.mk n (Some c) st)
    (λ i, default num_zero ((λ x, num_mul x k) <$> buf !! i))); [| done |].
  - by rewrite <- Hlen, tabulate_fmap.
  - intros i Hi. unfold_method.
    destruct (lookup_lt_is_Some_2 buf i) as [x Hx]; [lia|].
    rewrite (read_mk _ _ _ i x).
    + simpl. rewrite write_mk; [by rewrite Hx|].
      rewrite length_app, length_fmap, length_seq, length_drop. lia.
    + rewrite lookup_app_r by (rewrite length_fmap, length_seq; lia).
      rewrite length_fmap, length_seq, Nat.sub_diag.
      by rewrite lookup_drop, Nat.add_0_r.
Qed.
End vector_scaling.

(** X6. For a vector that owns its buffer: v * 1 is a copy with the same
    elements and v *= 1 changes nothing (the loop is skipped); for any
    other k, v * k is a new vector with the status GOOD_ALLOCATOR whose
    elements are those of v times k, and v *= k leaves the same elements
    in v and keeps its status. Binary * never changes its operand. *)
Theorem vector_scaling {T} `{number_laws T}
    (v : vec.basic_vector T) (buf : list T) (k : T) :
  vec_holds v buf →
  vec.operator_mul num_one v
  = Some (vec.mk (vec._Length v) (Some buf) GOOD_ALLOCATOR, v) ∧
  vec.operator_mul_assign num_one v = Some ((), v) ∧
  (k ≠ num_one →
   vec.operator_mul k v
   = Some (vec.mk (vec._Length v) (Some ((λ x, num_mul x k) <$> buf))
                  GOOD_ALLOCATOR, v) ∧
   vec.operator_mul_assign k v
   = Some ((), vec.mk (vec._Length v) (Some ((λ x, num_mul x k) <$> buf))
                      (vec._Status v))).
Proof.
  intros Hv. split_and!.
  - by apply vector_mul_one.
  - apply vector_mul_assign_one.
  - intros Hk. split.
    + by apply vector_mul_other.
    + by apply vector_mul_assign_other.
Qed.

Lemma vector_scaling_witness :
  let v := vec.mk 3 (Some [Int 1; Int 2; Int 3]) BOUND_ARRAY in
  vec.operator_mul (Int 1) v
  = Some (vec.mk 3 (Some [Int 1; Int 2; Int 3]) GOOD_ALLOCATOR, v) ∧
  vec.operator_mul_assign (Int 4) v
  = Some ((), vec.mk 3 (Some [Int 4; Int 8; Int 12]) BOUND_ARRAY).
Proof.
  intros v.
  destruct (vector_scaling v [Int 1; Int 2; Int 3] (Int 4))
    as (Hone & _ & Hk); [by split|].
  destruct Hk as [_ Hassign]; [done|]. by split.
Defined.

(** ** Sum and difference of vectors of one length *)

Section vector_sums.
Context {T : Type} {N : number T}.
Implicit Types (lhs rhs this other : vec.basic_vector T) (l r : list T).

Lemma tabulate_zip_with (f : T → T → T) d l r n :
  length l = n → length r = n →
  (λ i, default d (zip_with f l r !! i)) <$> seq 0 n = zip_with f l r.
Proof.
  intros Hl Hr. apply tabulate_lookup. rewrite length_zip_with. lia.
Qed.

Lemma elementwise_same_length (f : T → T → T) lhs rhs l r :
  vec_holds lhs l → vec_holds rhs r → vec._Length lhs = vec._Length rhs →
  vec.elementwise f (lhs, rhs)
  = Some (vec.mk (vec._Length lhs) (Some (zip_with f l r)) GOOD_ALLOCATOR,
          (lhs, rhs)).
Proof.
  intros [Hlb Hll] [Hrb Hrl] Hlen.
  unfold vec.elementwise, vec.length. unfold_method.
  rewrite basic_vector_sized_eq. simpl.
  rewrite <- Hlen, Nat.eqb_refl. simpl.
  rewrite (for_tabulate
    (λ c, (vec.mk (vec._Length lhs) (Some c) GOOD_ALLOCATOR, (lhs, rhs)))
    (λ i, default num_zero (zip_with f l r !! i))).
  - simpl. rewrite tabulate_zip_with; [done|done|lia].
  - apply length_replicate.
  - intros i Hi. unfold_method.
    destruct (lookup_lt_is_Some_2 l i) as [x Hx]; [lia|].
    destruct (lookup_lt_is_Some_2 r i) as [y Hy]; [lia|].
    rewrite !operator_index_const_eq.
    rewrite (operator_index_lt lhs) by done. simpl.
    rewrite (operator_index_lt rhs) by lia. simpl.
    rewrite (read_holds _ _ _ _ Hlb Hx). simpl.
    rewrite (read_holds _ _ _ _ Hrb Hy). simpl.
    rewrite operator_index_lt by done. simpl.
    rewrite write_mk.
    + by rewrite lookup_zip_with, Hx, Hy.
    + rewrite length_app, length_fmap, length_seq, length_drop,
        length_replicate. lia.
Qed.

Lemma elementwise_assign_same_length (f : T → T → T) this other l r :
  vec_holds this l → vec_holds other r →
  vec._Length this = vec._Length other →
  vec.elementwise_assign f (this, other)
  = Some ((), (vec.mk (vec._Length this) (Some (zip_with f l r))
                      (vec._Status this), other)).
Proof.
  intros [Hlb Hll] [Hrb Hrl] Hlen.
  unfold vec.elementwise_assign, vec.length. unfold_method.
  rewrite <- Hlen, Nat.eqb_refl. simpl.
  destruct this as [n alloc st]. simpl in *. subst alloc.
  rewrite (for_tabulate (λ c, (vec.mk n (Some c) st, other))
    (λ i, default num_zero (zip_with f l r !! i))); [| done |].
  - rewrite tabulate_zip_with; [done|done|lia].
  - intros i Hi. unfold_method.
    destruct (lookup_lt_is_Some_2 l i) as [x Hx]; [lia|].
    destruct (lookup_lt_is_Some_2 r i) as [y Hy]; [lia|].
    rewrite operator_index_const_eq, operator_index_lt by lia. simpl.
    rewrite (read_holds _ _ _ _ Hrb Hy). simpl.
    rewrite (read_mk _ _ _ i x).
    + simpl. rewrite write_mk; [by rewrite lookup_zip_with, Hx, Hy|].
      rewrite length_app, length_fmap, length_seq, length_drop. lia.
    + rewrite lookup_app_r by (rewrite length_fmap, length_seq; lia).
      rewrite length_fmap, length_seq, Nat.sub_diag.
      by rewrite lookup_drop, Nat.add_0_r.
Qed.
End vector_sums.

(** X7. For two vectors of one length that own their buffers, lhs + rhs
    and lhs - rhs are new vectors with the status GOOD_ALLOCATOR whose
    element i is lhs[i] + rhs[i], respectively lhs[i] - rhs[i], and both
    operands stay as they were; this += other and this -= other leave the
    same elements in this, whose status and length stay, and do not change
    other. *)
Theorem vector_sum_of_one_length {T} `{number T}
    (lhs rhs : vec.basic_vector T) (l r : list T) :
  vec_holds lhs l → vec_holds rhs r → vec._Length lhs = vec._Length rhs →
  vec.operator_add (lhs, rhs)
  = Some (vec.mk (vec._Length lhs) (Some (zip_with num_add l r))
                 GOOD_ALLOCATOR, (lhs, rhs)) ∧
  vec.operator_sub (lhs, rhs)
  = Some (vec.mk (vec._Length lhs) (Some (zip_with num_sub l r))
                 GOOD_ALLOCATOR, (lhs, rhs)) ∧
  vec.operator_add_assign (lhs, rhs)
  = Some ((), (vec.mk (vec._Length lhs) (Some (zip_with num_add l r))
                      (vec._Status lhs), rhs)) ∧
  vec.operator_sub_assign (lhs, rhs)
  = Some ((), (vec.mk (vec._Length lhs) (Some (zip_with num_sub l r))
                      (vec._Status lhs), rhs)).
Proof.
  intros Hl Hr Hlen. split_and!.
  - by apply elementwise_same_length.
  - by apply elementwise_same_length.
  - by apply elementwise_assign_same_length.
  - by apply elementwise_assign_same_length.
Qed.

Lemma vector_sum_of_one_length_witness :
  let lhs := vec.mk 3 (Some [Int 1; Int 2; Int 3]) DIVIDED_ZERO in
  let rhs := vec.mk 3 (Some [Int 10; Int 20; Int 30]) GOOD_ALLOCATOR in
  vec.operator_add (lhs, rhs)
  = Some (vec.mk 3 (Some [Int 11; Int 22; Int 33]) GOOD_ALLOCATOR,
          (lhs, rhs)) ∧
  vec.operator_sub_assign (lhs, rhs)
  = Some ((), (vec.mk 3 (Some [Int (-9); Int (-18); Int (-27)]) DIVIDED_ZERO,
               rhs)).
Proof.
  intros lhs rhs.
  destruct (vector_sum_of_one_length lhs rhs [Int 1; Int 2; Int 3]
              [Int 10; Int 20; Int 30]) as (Hadd & _ & _ & Hsub);
    [by split..|done|].
  by split.
Defined.

(** ** The order of vectors *)

Lemma foldl_add_permutation {T} `{number_add_laws T} (l r : list T) :
  l ≡ₚ r → ∀ acc, foldl num_add acc l = foldl num_add acc r.
Proof.
  induction 1 as [|x l r _ IH|x y l|l m r _ IH1 _ IH2]; intros acc; simpl.
  - done.
  - apply IH.
  - f_equal. rewrite <- !num_add_assoc. f_equal. apply num_add_comm.
  - by rewrite IH1.
Qed.

(** X8. The order of vectors is the order of their sums: for vectors that
    own their buffers, sum() is the sum of the elements from the first to
    the last, lhs < rhs compares sum(lhs) with sum(rhs), lhs > rhs is
    rhs < lhs, lhs <= rhs is the negation of lhs > rhs and lhs >= rhs the
    negation of lhs < rhs. So lhs < rhs and lhs > rhs are never both true,
    and lhs <= rhs and lhs >= rhs are both true exactly when the sums are
    equal. *)
Theorem vector_order_is_the_order_of_sums {T} `{number_laws T}
    (lhs rhs : vec.basic_vector T) (l r : list T) :
  vec_holds lhs l → vec_holds rhs r →
  let a := foldl num_add num_zero l in
  let b := foldl num_add num_zero r in
  vec.sum lhs = Some (a, lhs) ∧
  vec.operator_lt (lhs, rhs) = Some (num_ltb a b, (lhs, rhs)) ∧
  vec.operator_gt (lhs, rhs) = Some (num_ltb b a, (lhs, rhs)) ∧
  vec.operator_le (lhs, rhs) = Some (negb (num_ltb b a), (lhs, rhs)) ∧
  vec.operator_ge (lhs, rhs) = Some (negb (num_ltb a b), (lhs, rhs)) ∧
  ¬ (num_ltb a b = true ∧ num_ltb b a = true) ∧
  (negb (num_ltb b a) = true ∧ negb (num_ltb a b) = true ↔ a = b).
Proof.
  intros Hl Hr a b. split_and!.
  - by apply sum_holds.
  - by apply operator_lt_holds.
  - by apply operator_gt_holds.
  - by apply operator_le_holds.
  - by apply operator_ge_holds.
  - intros [Hab Hba]. pose proof (num_ltb_trans _ _ _ Hab Hba) as Haa.
    by rewrite num_ltb_irrefl in Haa.
  - rewrite !negb_true_iff. split.
    + intros [Hba Hab]. by apply num_ltb_total.
    + intros ->. split; apply num_ltb_irrefl.
Qed.

Lemma vector_order_is_the_order_of_sums_witness :
  let lhs := vec.mk 3 (Some [Int 1; Int 2; Int 3]) GOOD_ALLOCATOR in
  let rhs := vec.mk 1 (Some [Int 7]) GOOD_ALLOCATOR in
  vec.operator_lt (lhs, rhs) = Some (true, (lhs, rhs)) ∧
  vec.operator_ge (lhs, rhs) = Some (false, (lhs, rhs)).
Proof.
  intros lhs rhs.
  destruct (vector_order_is_the_order_of_sums lhs rhs
              [Int 1; Int 2; Int 3] [Int 7])
    as (_ & Hlt & _ & _ & Hge & _); [by split..|].
  by split.
Defined.

(** X9. On vectors that own their buffers, == is an equivalence relation:
    every vector equals itself, a == b gives b == a, and a == b with
    b == c gives a == c. Vectors that are equal have equal sums, so that
    neither is < the other and each is <= and >= the other. *)
Theorem vector_equality_is_an_equivalence
    {T} `{number_laws T} `{!number_add_laws T}
    (a b c : vec.basic_vector T) (la lb lc : list T) :
  vec_holds a la → vec_holds b lb → vec_holds c lc →
  vec.operator_eq (a, a) = Some (true, (a, a)) ∧
  (vec.operator_eq (a, b) = Some (true, (a, b)) →
   vec.operator_eq (b, a) = Some (true, (b, a))) ∧
  (vec.operator_eq (a, b) = Some (true, (a, b)) →
   vec.operator_eq (b, c) = Some (true, (b, c)) →
   vec.operator_eq (a, c) = Some (true, (a, c))) ∧
  (vec.operator_eq (a, b) = Some (true, (a, b)) →
   vec.operator_lt (a, b) = Some (false, (a, b)) ∧
   vec.operator_gt (a, b) = Some (false, (a, b)) ∧
   vec.operator_le (a, b) = Some (true, (a, b)) ∧
   vec.operator_ge (a, b) = Some (true, (a, b))).
Proof.
  intros Ha Hb Hc.
  assert (∀ (x y : vec.basic_vector T) lx ly,
            vec_holds x lx → vec_holds y ly →
            (vec.operator_eq (x, y) = Some (true, (x, y)) ↔ lx ≡ₚ ly))
    as Heq.
  { intros x y lx ly Hx Hy.
    destruct (operator_eq_holds x y lx ly Hx Hy) as (res & Hrun & Hres).
    rewrite Hrun. split.
    - intros [= ->]. by apply Hres.
    - intros Hperm. apply Hres in Hperm. by subst. }
  split_and!.
  - by apply (Heq a a la la).
  - rewrite (Heq a b la lb), (Heq b a lb la) by done. by intros ->.
  - rewrite (Heq a b la lb), (Heq b c lb lc), (Heq a c la lc) by done.
    intros -> ->. done.
  - rewrite (Heq a b la lb) by done. intros Hperm.
    rewrite (operator_lt_holds _ _ _ _ Ha Hb),
      (operator_gt_holds _ _ _ _ Ha Hb),
      (operator_le_holds _ _ _ _ Ha Hb),
      (operator_ge_holds _ _ _ _ Ha Hb).
    rewrite (foldl_add_permutation la lb Hperm).
    by rewrite num_ltb_irrefl.
Qed.

Lemma vector_equality_is_an_equivalence_witness :
  let a := vec.mk 3 (Some [Int 1; Int 2; Int 3]) GOOD_ALLOCATOR in
  let b := vec.mk 3 (Some [Int 3; Int 1; Int 2]) GOOD_ALLOCATOR in
  vec.operator_eq (a, a) = Some (true, (a, a)) ∧
  (vec.operator_eq (a, b) = Some (true, (a, b)) →
   vec.operator_le (a, b) = Some (true, (a, b))).
Proof.
  intros a b.
  destruct (vector_equality_is_an_equivalence a b a
              [Int 1; Int 2; Int 3] [Int 3; Int 1; Int 2] [Int 1; Int 2; Int 3])
    as (Hrefl & _ & _ & Horder); [by split..|].
  split; [done|]. intros Heq. by destruct (Horder Heq) as (_ & _ & Hle & _).
Defined.

(** ** What the member functions of a vector keep *)

Lemma keeps_on_fst {St1 St2 A} (Q : St1 → Prop) (m : method St1 A) :
  keeps Q m → keeps (of_fst (St2:=St2) Q) (on fst_ m).
Proof.
  intros Hm. apply (keeps_on _ Q); [|by intros s o' _ HQ|done].
  by intros s o HP [= <-].
Qed.

Lemma keeps_on_snd {St1 St2 A} (Q : St2 → Prop) (m : method St2 A) :
  keeps Q m → keeps (of_snd (St1:=St1) Q) (on snd_ m).
Proof.
  intros Hm. apply (keeps_on _ Q); [|by intros s o' _ HQ|done].
  by intros s o HP [= <-].
Qed.

Lemma keeps_on_fst_apart {St1 St2 A} (Q : St2 → Prop) (m : method St1 A) :
  keeps (of_snd Q) (on fst_ m).
Proof.
  intros s a s' HP. unfold on. simpl.
  destruct (m s.1) as [[a' o']|]; [|done]. by intros [= _ <-].
Qed.

Lemma keeps_on_snd_apart {St1 St2 A} (Q : St1 → Prop) (m : method St2 A) :
  keeps (of_fst Q) (on snd_ m).
Proof.
  intros s a s' HP. unfold on. simpl.
  destruct (m s.2) as [[a' o']|]; [|done]. by intros [= _ <-].
Qed.

Lemma keeps_with_local {L St A} (P : St → Prop) (l : L)
    (m : method (L * St) A) :
  keeps (of_snd P) m → keeps P (with_local l m).
Proof.
  intros Hm s a s' HP. unfold with_local.
  destruct (m (l, s)) as [[a' [l' s1]]|] eqn:Hrun; [|done].
  intros [= _ <-]. by apply (Hm (l, s) a' (l', s1)).
Qed.

(** Freeing the old buffer in [operator=] changes nothing that the
    vector still shows. *)
Lemma keeps_delete_array {T} (P : vec.basic_vector T → Prop) :
  keeps P vec.delete_array.
Proof.
  intros v u v' HP. unfold vec.delete_array. unfold_method.
  destruct (vec._Allocator v); [|done]. by intros [= _ <-].
Qed.

Create HintDb keeps.

Global Hint Resolve keeps_on_fst keeps_on_snd keeps_on_fst_apart
  keeps_on_snd_apart keeps_get keeps_ret keeps_lift_option
  keeps_delete_array : keeps.
Global Hint Extern 5 (keeps _ _) =>
  (apply keeps_readonly; solve [eauto 10 with frames]) : keeps.

(** One step of an invariant proof, following the shape of the
    computation. *)
Ltac keeps_step :=
  lazymatch goal with
  | |- keeps _ (bind _ _) => apply keeps_bind; [|intros ?]
  | |- keeps _ (ret _) => apply keeps_ret
  | |- keeps _ get => apply keeps_get
  | |- keeps _ (lift_option _) => apply keeps_lift_option
  | |- keeps _ (for_ _ _) => apply keeps_for; intros ?
  | |- keeps _ (with_local _ _) => apply keeps_with_local
  | |- keeps _ (on_fst _) => unfold on_fst
  | |- keeps _ (on_snd _) => unfold on_snd
  | |- keeps _ (if ?b then _ else _) => destruct b
  | |- keeps _ (match ?x with _ => _ end) => destruct x
  end.

Ltac keeps_all :=
  repeat first [ keeps_step
               | solve [eauto with keeps]
               | solve [apply keeps_readonly; eauto 10 with frames] ].

Section vector_invariants.
Context {T : Type} {N : number T}.

Lemma keeps_sized_write n i (x : T) : keeps (vec_sized n) (vec.write i x).
Proof.
  intros v a v' [Hn [buf [Hb Hlen]]]. unfold vec.write. rewrite Hb.
  case_decide; [|done]. intros [= _ <-]. split; [done|].
  exists (<[i:=x]> buf). split; [done|]. by rewrite length_insert.
Qed.

Lemma keeps_sized_with_Status n st (v : vec.basic_vector T) :
  vec_sized n v → vec_sized n (vec.with_Status st v).
Proof. by intros [Hn [buf [Hb Hlen]]]; split; [|exists buf]. Qed.

Lemma keeps_sized_index n i : keeps (vec_sized n) (vec.operator_index (T:=T) i).
Proof.
  intros v a v' Hv. unfold vec.operator_index. unfold_method.
  destruct (i <? vec._Length v); intros [= _ <-]; [done|].
  by apply keeps_sized_with_Status.
Qed.

Lemma keeps_sized_setStatus n st : keeps (vec_sized n) (vec.setStatus (T:=T) st).
Proof. apply keeps_modify. intros v. apply keeps_sized_with_Status. Qed.

Lemma keeps_faulty_write i (x : T) :
  keeps (λ v, faulty (vec._Status v)) (vec.write i x).
Proof.
  intros v a v' Hv. unfold vec.write.
  destruct (vec._Allocator v); [|done]. case_decide; [|done].
  by intros [= _ <-].
Qed.

Lemma keeps_faulty_index i :
  keeps (λ v, faulty (vec._Status v)) (vec.operator_index (T:=T) i).
Proof.
  intros v a v' Hv. unfold vec.operator_index. unfold_method.
  by destruct (i <? vec._Length v); intros [= _ <-].
Qed.

Lemma readonly_at i : preserves id (vec.at_ (T:=T) i).
Proof. unfold vec.at_. frame. Qed.

Lemma readonly_status : preserves id (vec.status (T:=T)).
Proof. unfold vec.status. frame. Qed.

Lemma readonly_to_string_status : preserves id (vec.to_string_status (T:=T)).
Proof. unfold vec.to_string_status. frame. Qed.
End vector_invariants.

Global Hint Resolve keeps_sized_write keeps_sized_index keeps_sized_setStatus
  keeps_faulty_write keeps_faulty_index : keeps.
Global Hint Resolve readonly_at readonly_status readonly_to_string_status
  : frames.

Section vector_members_keep.
Context {T : Type} {N : number T}.

Lemma keeps_faulty_div_assign (k : T) :
  keeps (λ v, faulty (vec._Status v)) (vec.operator_div_assign k).
Proof.
  unfold vec.operator_div_assign. destruct (num_eqb k num_zero).
  - by apply keeps_modify.
  - keeps_all.
Qed.

Lemma keeps_sized_div_assign n (k : T) :
  keeps (vec_sized n) (vec.operator_div_assign k).
Proof.
  unfold vec.operator_div_assign. destruct (num_eqb k num_zero).
  - apply keeps_modify. intros v. apply keeps_sized_with_Status.
  - keeps_all.
Qed.
End vector_members_keep.

(** X10. The length of a vector and its buffer of exactly that many cells
    are kept by every member function that works on an existing vector
    without assigning to it: both overloads of operator[], set, setStatus,
    the statement v[i] = x, *=, /=, += and -= (for this and for other) and
    sum. Whenever such a call returns, a vector of length n that owns n
    cells is still one. *)
Theorem vector_members_keep_the_storage {T} `{number T} (n : nat) :
  (∀ i, keeps (vec_sized n) (vec.operator_index (T:=T) i)) ∧
  (∀ i, keeps (vec_sized n) (vec.operator_index_const (T:=T) i)) ∧
  (∀ x i, keeps (vec_sized n) (vec.set (T:=T) x i)) ∧
  (∀ st, keeps (vec_sized n) (vec.setStatus (T:=T) st)) ∧
  (∀ i x, keeps (vec_sized n) (index_store (T:=T) i x)) ∧
  (∀ k, keeps (vec_sized n) (vec.operator_mul_assign (T:=T) k)) ∧
  (∀ k, keeps (vec_sized n) (vec.operator_div_assign (T:=T) k)) ∧
  keeps (vec_sized n) (vec.sum (T:=T)) ∧
  keeps (of_fst (vec_sized n)) (vec.operator_add_assign (T:=T)) ∧
  keeps (of_snd (vec_sized n)) (vec.operator_add_assign (T:=T)) ∧
  keeps (of_fst (vec_sized n)) (vec.operator_sub_assign (T:=T)) ∧
  keeps (of_snd (vec_sized n)) (vec.operator_sub_assign (T:=T)).
Proof.
  split_and!.
  - intros i. apply keeps_sized_index.
  - intros i. apply keeps_sized_index.
  - intros x i. apply keeps_sized_write.
  - intros st. apply keeps_sized_setStatus.
  - intros i x. unfold index_store. keeps_all.
  - intros k. unfold vec.operator_mul_assign. keeps_all.
  - intros k. apply keeps_sized_div_assign.
  - apply keeps_readonly, readonly_sum.
  - unfold vec.operator_add_assign, vec.elementwise_assign. keeps_all.
  - unfold vec.operator_add_assign, vec.elementwise_assign. keeps_all.
  - unfold vec.operator_sub_assign, vec.elementwise_assign. keeps_all.
  - unfold vec.operator_sub_assign, vec.elementwise_assign. keeps_all.
Qed.

Lemma vector_members_keep_the_storage_witness :
  let v := vec.mk 3 (Some [Int 1; Int 2; Int 3]) GOOD_ALLOCATOR in
  ∃ v', index_store 7 (Int 9) v = Some ((), v') ∧ vec_sized 3 v'.
Proof.
  intros v. eexists. split; [reflexivity|].
  destruct (vector_members_keep_the_storage (T:=int) 3)
    as (_ & _ & _ & _ & Hstore & _).
  apply (Hstore 7 (Int 9) v ()); [|reflexivity].
  split; [done|]. exists [Int 1; Int 2; Int 3]. by split.
Defined.

(** X11. No operation on an existing vector clears a fault: if the status
    of a vector is not GOOD_ALLOCATOR before a call of operator[], set,
    the statement v[i] = x, *=, /=, +=, -= or copy assignment (as this or
    as other), or before it is an operand of binary *, /, + or -, then it
    is not GOOD_ALLOCATOR when the call returns. *)
Theorem vector_faults_are_never_cleared {T} `{number T} :
  let F := λ v : vec.basic_vector T, faulty (vec._Status v) in
  (∀ i, keeps F (vec.operator_index i)) ∧
  (∀ i, keeps F (vec.operator_index_const i)) ∧
  (∀ x i, keeps F (vec.set x i)) ∧
  (∀ i x, keeps F (index_store i x)) ∧
  (∀ k, keeps F (vec.operator_mul_assign k)) ∧
  (∀ k, keeps F (vec.operator_div_assign k)) ∧
  (keeps (of_fst F) vec.operator_add_assign ∧
   keeps (of_snd F) vec.operator_add_assign) ∧
  (keeps (of_fst F) vec.operator_sub_assign ∧
   keeps (of_snd F) vec.operator_sub_assign) ∧
  (keeps (of_fst F) vec.operator_assign ∧
   keeps (of_snd F) vec.operator_assign) ∧
  (∀ k, keeps F (vec.operator_mul k)) ∧
  (∀ k, keeps F (vec.operator_div k)) ∧
  (keeps (of_fst F) vec.operator_add ∧
   keeps (of_snd F) vec.operator_add) ∧
  (keeps (of_fst F) vec.operator_sub ∧
   keeps (of_snd F) vec.operator_sub).
Proof.
  intros F.
  assert (∀ f, keeps (of_fst (St2:=vec.basic_vector T) F)
                 (on fst_ (modify (λ this,
                    vec.mk (f this) (Some (vec.new_array (f this)))
                           (vec._Status this))))) as Hmodify.
  { intros f. apply keeps_on_fst. by apply keeps_modify. }
  split_and!.
  - intros i. apply keeps_faulty_index.
  - intros i. apply keeps_faulty_index.
  - intros x i. apply keeps_faulty_write.
  - intros i x. unfold index_store. keeps_all.
  - intros k. unfold vec.operator_mul_assign. keeps_all.
  - intros k. apply keeps_faulty_div_assign.
  - unfold vec.operator_add_assign, vec.elementwise_assign. keeps_all.
  - unfold vec.operator_add_assign, vec.elementwise_assign. keeps_all.
  - unfold vec.operator_sub_assign, vec.elementwise_assign. keeps_all.
  - unfold vec.operator_sub_assign, vec.elementwise_assign. keeps_all.
  - unfold vec.operator_assign.
    apply keeps_bind; [keeps_all|]. intros _.
    apply keeps_bind; [keeps_all|]. intros n.
    apply keeps_bind; [apply (Hmodify (λ _, n))|]. intros _. keeps_all.
  - unfold vec.operator_assign. keeps_all.
  - intros k. unfold vec.operator_mul. keeps_all.
  - intros k. unfold vec.operator_div. keeps_all.
  - unfold vec.operator_add, vec.elementwise. keeps_all.
  - unfold vec.operator_add, vec.elementwise. keeps_all.
  - unfold vec.operator_sub, vec.elementwise. keeps_all.
  - unfold vec.operator_sub, vec.elementwise. keeps_all.
Qed.

Lemma vector_faults_are_never_cleared_witness :
  let v := vec.mk 3 (Some [Int 2; Int 4; Int 6]) BOUND_ARRAY in
  ∃ v', vec.operator_div_assign (Int 2) v = Some ((), v') ∧
        vec._Status v' ≠ GOOD_ALLOCATOR.
Proof.
  intros v. eexists. split; [reflexivity|].
  destruct (vector_faults_are_never_cleared (T:=int))
    as (_ & _ & _ & _ & _ & Hdiv & _).
  by apply (Hdiv (Int 2) v ()).
Defined.

(** ** The name of a status *)

(** X12. to_string_status returns a name for every status and changes
    nothing; the five names are pairwise distinct, so that the name tells
    the status. The name of BAD_INITIALIZED is spelled BAD_INITALIZED. *)
Theorem status_names_are_distinct {T} (v w : vec.basic_vector T) :
  ∃ name_v name_w,
    vec.to_string_status v = Some (name_v, v) ∧
    vec.to_string_status w = Some (name_w, w) ∧
    (name_v = name_w ↔ vec._Status v = vec._Status w) ∧
    (vec._Status v = BAD_INITIALIZED → name_v = "BAD_INITALIZED"%string) ∧
    (vec._Status v = GOOD_ALLOCATOR → name_v = "GOOD_ALLOCATOR"%string).
Proof.
  eexists _, _. split_and!; [reflexivity..| | |].
  - destruct (vec._Status v), (vec._Status w); by split.
  - by intros ->.
  - by intros ->.
Qed.

(** ** Matrices as the constructors leave them *)

Section matrix_constructors.
Context {T : Type} {N : number T} {L : number_laws T}.



Lemma value_at_in_range (m : mat.basic_matrix T) rn cn i j :
  mat_shape rn cn m → i < rn → j < cn →
  value_at m i j = entry m i j ∧ is_Some (entry m i j).
Proof.
  intros Hm Hi Hj.
  destruct (read_shape rn cn m (i, j) Hm Hi Hj) as (x & Hx & _).
  simpl in Hx. rewrite Hx. split; [|by eexists].
  rewrite (value_at_shape m rn cn i j Hm) by lia.
  unfold cell, clamp.
  destruct (Nat.ltb_spec i rn); [|lia].
  destruct (Nat.ltb_spec j cn); [|lia]. simpl. by rewrite Hx.
Qed.
End matrix_constructors.



(** ** The two status channels of a matrix *)

Section matrix_flags.
Context {T : Type} {N : number T}.
Implicit Types (m : mat.basic_matrix T).

(** The four accessors have one body. *)
Lemma matrix_accessors_agree m i j :
  mat.at_ i j m = mat.operator_call i j m ∧
  mat.at_const i j m = mat.operator_call i j m ∧
  mat.operator_call_const i j m = mat.operator_call i j m.
Proof. by split_and!. Qed.

Lemma operator_call_in_range m rn cn i j :
  mat_shape rn cn m → i < rn → j < cn →
  mat.operator_call i j m = Some ((i, j), m).
Proof.
  intros (Hr & Hc & Hlen & Hrows) Hi Hj.
  unfold mat.operator_call. unfold_method. rewrite Hr.
  destruct (Nat.ltb_spec i rn); [|lia]. simpl.
  destruct (lookup_lt_is_Some_2 (mat._Allocator m) i) as [row Hrow]; [lia|].
  rewrite Hrow.
  destruct (Forall_lookup_1 _ _ _ _ Hrows Hrow) as [Hn _].
  rewrite operator_index_lt by lia. simpl.
  destruct m. simpl in *. by rewrite list_insert_id.
Qed.

Lemma operator_call_column_out m rn cn i j row :
  mat_shape rn cn m → i < rn → 1 ≤ cn → cn ≤ j →
  mat._Allocator m !! i = Some row →
  mat.operator_call i j m
  = Some ((i, cn - 1),
          mat.mk (mat._Rows m) (mat._Columns m)
                 (<[i:=vec.with_Status BOUND_ARRAY row]> (mat._Allocator m))
                 (mat._Status m)).
Proof.
  intros (Hr & Hc & Hlen & Hrows) Hi Hcn Hj Hrow.
  unfold mat.operator_call. unfold_method. rewrite Hr.
  destruct (Nat.ltb_spec i rn); [|lia]. simpl. rewrite Hrow.
  destruct (Forall_lookup_1 _ _ _ _ Hrows Hrow) as [Hn _].
  rewrite operator_index_ge by lia. simpl.
  rewrite Hn, size_sub_1 by done. by rewrite Hr.
Qed.

Lemma operator_call_row_out m rn cn i j :
  mat_shape rn cn m → 1 ≤ rn → 1 ≤ cn → rn ≤ i →
  mat.operator_call i j m
  = Some ((rn - 1, cn - 1), mat.with_Status BOUND_ARRAY m).
Proof.
  intros (Hr & Hc & Hlen & Hrows) Hrn Hcn Hi.
  unfold mat.operator_call, mat.columns_value. unfold_method. rewrite Hr.
  destruct (Nat.ltb_spec i rn); [lia|]. simpl.
  rewrite Hc. simpl. rewrite !size_sub_1 by done.
  destruct (lookup_lt_is_Some_2 (mat._Allocator m) (rn - 1))
    as [row Hrow]; [lia|].
  rewrite Hrow.
  destruct (Forall_lookup_1 _ _ _ _ Hrows Hrow) as [Hn _].
  rewrite operator_index_lt by lia. simpl.
  unfold mat.with_Status. by rewrite list_insert_id, Hr.
Qed.
End matrix_flags.

(** X14. On a matrix of rn >= 1 rows and cn >= 1 columns, the accessors
    at and operator() (all four overloads have one body) behave so:
    - with both indices in range they designate the cell (i, j) and change
      nothing;
    - with the row in range and the column not, they designate the last
      cell of row i and set the status of that row vector to BOUND_ARRAY;
      the status of the matrix stays;
    - with the row out of range they designate the last cell of the last
      row, whatever the column, and set the status of the matrix to
      BOUND_ARRAY; no row changes. *)
Theorem matrix_access_has_two_status_channels {T} `{number T}
    (m : mat.basic_matrix T) (rn cn i j : nat) :
  mat_shape rn cn m → 1 ≤ rn → 1 ≤ cn →
  (mat.at_ i j m = mat.operator_call i j m ∧
   mat.at_const i j m = mat.operator_call i j m ∧
   mat.operator_call_const i j m = mat.operator_call i j m) ∧
  (i < rn → j < cn → mat.operator_call i j m = Some ((i, j), m)) ∧
  (i < rn → cn ≤ j →
   ∃ row,
     mat._Allocator m !! i = Some row ∧
     mat.operator_call i j m
     = Some ((i, cn - 1),
             mat.mk rn (Some cn)
                    (<[i:=vec.with_Status BOUND_ARRAY row]> (mat._Allocator m))
                    (mat._Status m))) ∧
  (rn ≤ i →
   mat.operator_call i j m
   = Some ((rn - 1, cn - 1),
           mat.mk rn (Some cn) (mat._Allocator m) BOUND_ARRAY)).
Proof.
  intros Hm Hrn Hcn. pose proof Hm as (Hr & Hc & Hlen & Hrows).
  split; [apply matrix_accessors_agree|]. split_and!.
  - intros Hi Hj. by eapply operator_call_in_range.
  - intros Hi Hj.
    destruct (lookup_lt_is_Some_2 (mat._Allocator m) i) as [row Hrow]; [lia|].
    exists row. split; [done|].
    rewrite (operator_call_column_out m rn cn i j row) by done.
    by rewrite Hr, Hc.
  - intros Hi. rewrite (operator_call_row_out m rn cn i j) by done.
    unfold mat.with_Status. by rewrite Hr, Hc.
Qed.

Lemma matrix_access_has_two_status_channels_witness :
  let m := grid 2 [[Int 1; Int 2]; [Int 3; Int 4]] in
  mat.operator_call 0 5 m
  = Some ((0, 1),
          mat.mk 2 (Some 2)
            [vec.mk 2 (Some [Int 1; Int 2]) BOUND_ARRAY;
             vec.mk 2 (Some [Int 3; Int 4]) GOOD_ALLOCATOR] GOOD_ALLOCATOR) ∧
  mat.operator_call 5 0 m
  = Some ((1, 1),
          mat.mk 2 (Some 2)
            [vec.mk 2 (Some [Int 1; Int 2]) GOOD_ALLOCATOR;
             vec.mk 2 (Some [Int 3; Int 4]) GOOD_ALLOCATOR] BOUND_ARRAY).
Proof.
  intros m.
  assert (mat_shape 2 2 m) as Hm.
  { apply (grid_shape 2 [[Int 1; Int 2]; [Int 3; Int 4]]).
    by repeat constructor. }
  destruct (matrix_access_has_two_status_channels m 2 2 0 5 Hm)
    as (_ & _ & Hcol & _); [lia..|].
  destruct (matrix_access_has_two_status_channels m 2 2 5 0 Hm)
    as (_ & _ & _ & Hrow); [lia..|].
  destruct Hcol as (row & Hlook & Hcall); [lia..|].
  injection Hlook as <-. split; [exact Hcall|]. apply Hrow. lia.
Defined.

(** ** set on a matrix *)

Section matrix_set.
Context {T : Type} {N : number T}.
Implicit Types (m : mat.basic_matrix T).

Lemma matrix_set_eq m rn cn i j (x : T) row buf :
  mat_shape rn cn m → 1 ≤ cn →
  mat._Allocator m !! i = Some row → vec_holds row buf →
  mat.set i j x m
  = Some ((), mat.mk (mat._Rows m) (mat._Columns m)
                (<[i:=vec.mk cn
                        (Some (<[(if j <? cn then j else cn - 1):=x]> buf))
                        (if j <? cn then vec._Status row else BOUND_ARRAY)]>
                   (mat._Allocator m))
                (mat._Status m)).
Proof.
  intros (Hr & Hc & Hlen & Hrows) Hcn Hrow [Hb Hbl].
  destruct (Forall_lookup_1 _ _ _ _ Hrows Hrow) as [Hn _].
  assert (i < length (mat._Allocator m)) as Hi by by eapply lookup_lt_Some.
  unfold mat.set, mat.write. unfold_method. rewrite Hrow.
  destruct (Nat.ltb_spec j cn) as [Hj|Hj].
  - rewrite operator_index_lt by lia. simpl.
    rewrite list_lookup_insert_eq by done.
    unfold vec.write. rewrite Hb. rewrite decide_True by lia. simpl.
    rewrite list_insert_insert_eq. unfold vec.with_buffer. by rewrite Hn.
  - rewrite operator_index_ge by lia. simpl.
    rewrite list_lookup_insert_eq by done.
    unfold vec.write. simpl. rewrite Hb, Hn, size_sub_1 by done.
    rewrite decide_True by lia. simpl.
    rewrite list_insert_insert_eq. unfold vec.with_buffer. simpl.
    by rewrite Hn.
Qed.

Lemma matrix_set_row_out m rn cn i j (x : T) :
  mat_shape rn cn m → rn ≤ i → mat.set i j x m = None.
Proof.
  intros (Hr & Hc & Hlen & Hrows) Hi.
  unfold mat.set. unfold_method.
  by rewrite lookup_ge_None_2 by lia.
Qed.

Lemma shape_replace_row m rn cn i row :
  mat_shape rn cn m → vec_sized cn row → ∀ st,
  mat_shape rn cn (mat.mk (mat._Rows m) (mat._Columns m)
                          (<[i:=row]> (mat._Allocator m)) st).
Proof.
  intros (Hr & Hc & Hlen & Hrows) Hrow st.
  split_and!; simpl; [done|done|by rewrite length_insert|].
  destruct (decide (i < length (mat._Allocator m))).
  - by apply Forall_insert.
  - by rewrite list_insert_ge by lia.
Qed.
End matrix_set.

(** X15. set(i, j, value) on a matrix of rn rows and cn >= 1 columns:
    - with both indices in range it stores value in the cell (i, j) and
      nothing else: afterwards m(i, j) reads value, every other cell in
      range reads what it read before, and the dimensions and the status
      of the matrix are as before;
    - with the row in range and the column not, it overwrites the last
      cell of row i and sets the status of that row to BOUND_ARRAY;
    - with the row out of range it has no defined result: unlike at and
      operator(), set does not test the row index. *)
Theorem matrix_set_then_read {T} `{number_laws T}
    (m : mat.basic_matrix T) (rn cn i j : nat) (x : T) :
  mat_shape rn cn m → 1 ≤ cn →
  (i < rn → j < cn →
   ∃ m', mat.set i j x m = Some ((), m') ∧
         mat_shape rn cn m' ∧ mat._Status m' = mat._Status m ∧
         value_at m' i j = Some x ∧
         ∀ a b, a < rn → b < cn → (a, b) ≠ (i, j) →
                value_at m' a b = value_at m a b) ∧
  (i < rn → cn ≤ j →
   ∃ m', mat.set i j x m = Some ((), m') ∧
         mat_shape rn cn m' ∧ entry m' i (cn - 1) = Some x ∧
         vec._Status <$> mat._Allocator m' !! i = Some BOUND_ARRAY) ∧
  (rn ≤ i → mat.set i j x m = None).
Proof.
  intros Hm Hcn. split_and!.
  - intros Hi Hj.
    destruct (shape_row rn cn m i Hm Hi) as (row & buf & Hrow & Hbuf & Hn).
    pose proof Hbuf as [Hb Hbl].
    assert (i < length (mat._Allocator m)) as Hi' by by eapply lookup_lt_Some.
    eexists. split; [by eapply matrix_set_eq|].
    destruct (Nat.ltb_spec j cn); [|lia].
    set (row' := vec.mk cn (Some (<[j:=x]> buf)) (vec._Status row)).
    assert (mat_shape rn cn
              (mat.mk (mat._Rows m) (mat._Columns m)
                      (<[i:=row']> (mat._Allocator m)) (mat._Status m)))
      as Hm'.
    { apply shape_replace_row; [done|]. split; [done|].
      exists (<[j:=x]> buf). split; [done|]. rewrite length_insert. simpl. lia. }
    split_and!; [done|done| |].
    + destruct (value_at_in_range _ rn cn i j Hm' Hi Hj) as [-> _].
      unfold entry. simpl. rewrite list_lookup_insert_eq by done. simpl.
      apply list_lookup_insert_eq. lia.
    + intros a b Ha Hb' Hne.
      destruct (value_at_in_range _ rn cn a b Hm' Ha Hb') as [-> _].
      destruct (value_at_in_range _ rn cn a b Hm Ha Hb') as [-> _].
      unfold entry. simpl.
      destruct (decide (a = i)) as [->|Hai].
      * rewrite list_lookup_insert_eq by done. rewrite Hrow. simpl.
        rewrite Hb. simpl. apply list_lookup_insert_ne. congruence.
      * by rewrite list_lookup_insert_ne.
  - intros Hi Hj.
    destruct (shape_row rn cn m i Hm Hi) as (row & buf & Hrow & Hbuf & Hn).
    pose proof Hbuf as [Hb Hbl].
    assert (i < length (mat._Allocator m)) as Hi' by by eapply lookup_lt_Some.
    eexists. split; [by eapply matrix_set_eq|].
    destruct (Nat.ltb_spec j cn); [lia|].
    split_and!.
    + apply shape_replace_row; [done|]. split; [done|].
      exists (<[cn - 1:=x]> buf). split; [done|]. rewrite length_insert.
      simpl. lia.
    + unfold entry. simpl. rewrite list_lookup_insert_eq by done. simpl.
      apply list_lookup_insert_eq. lia.
    + simpl. by rewrite list_lookup_insert_eq by done.
  - intros Hi. by eapply matrix_set_row_out.
Qed.

Lemma matrix_set_then_read_witness :
  let m := grid 2 [[Int 1; Int 2]; [Int 3; Int 4]] in
  (∃ m', mat.set 1 0 (Int 9) m = Some ((), m') ∧
         value_at m' 1 0 = Some (Int 9)) ∧
  mat.set 2 0 (Int 9) m = None.
Proof.
  intros m.
  assert (mat_shape 2 2 m) as Hm.
  { apply (grid_shape 2 [[Int 1; Int 2]; [Int 3; Int 4]]).
    by repeat constructor. }
  destruct (matrix_set_then_read m 2 2 1 0 (Int 9) Hm) as (Hin & _ & _);
    [lia|].
  destruct (matrix_set_then_read m 2 2 2 0 (Int 9) Hm) as (_ & _ & Hout);
    [lia|].
  split.
  - destruct Hin as (m' & Hset & _ & _ & Hread & _); [lia..|]. by exists m'.
  - apply Hout. lia.
Defined.

(** ** Copies of a matrix *)

(** X16. For a matrix other of rn rows and cn columns:
    - this = other gives this the dimensions, the cells and the status
      of other, whatever this was before, and leaves other as it was
      (the assignment of vectors, in contrast, keeps the status of its
      left side);
    - the copy constructor gives the new matrix the row count, the cells
      and the status of other;
    - in both, every row of the result has the status GOOD_ALLOCATOR,
      whatever the status of the row it was copied from. *)
Theorem matrix_copies_take_the_status {T} `{number_laws T}
    (other : mat.basic_matrix T) (rn cn : nat) :
  mat_shape rn cn other →
  (∀ this, ∃ this',
     mat.operator_assign (this, other) = Some ((), (this', other)) ∧
     mat_shape rn cn this' ∧
     mat._Status this' = mat._Status other ∧
     row_statuses this' = replicate rn GOOD_ALLOCATOR ∧
     ∀ i j, entry this' i j = entry other i j) ∧
  (∃ c, mat.copy other = Some (c, other) ∧
        mat._Rows c = rn ∧
        mat._Status c = mat._Status other ∧
        row_statuses c = replicate rn GOOD_ALLOCATOR ∧
        ∀ i j, entry c i j = entry other i j).
Proof.
  intros Hother.
  destruct (shape_rows_allocated other rn cn Hother) as [Hlen Hall].
  assert (vec._Status <$> (fresh_row <$> mat._Allocator other)
          = replicate rn GOOD_ALLOCATOR) as Hgood.
  { destruct Hother as (_ & _ & <- & _). clear.
    induction (mat._Allocator other) as [|row rows IH]; [done|].
    simpl. by f_equal. }
  split.
  - intros this.
    destruct (assign_rows_match this other rn cn Hother)
      as (this' & Hrun & Hshape).
    exists this'. split; [done|].
    rewrite (matrix_assign_eq this other Hlen Hall) in Hrun.
    injection Hrun as <-.
    split_and!; [done|done|done|].
    intros i j. destruct other. apply entry_fresh_rows.
  - eexists. split; [by apply matrix_copy_eq|].
    split_and!; simpl; [by destruct Hother|done|done|].
    intros i j. destruct other. apply entry_fresh_rows.
Qed.

Lemma matrix_copies_take_the_status_witness :
  let other := mat.mk 1 (Some 2)
                 [vec.mk 2 (Some [Int 1; Int 2]) BOUND_ARRAY] DIVIDED_ZERO in
  ∃ this',
    mat.operator_assign (grid 1 [[Int 0]], other)
    = Some ((), (this', other)) ∧
    mat._Status this' = DIVIDED_ZERO ∧
    row_statuses this' = [GOOD_ALLOCATOR].
Proof.
  intros other.
  assert (mat_shape 1 2 other) as Hother.
  { split_and!; [done..|]. constructor; [|done].
    split; [done|]. by exists [Int 1; Int 2]. }
  destruct (matrix_copies_take_the_status other 1 2 Hother) as [Hassign _].
  destruct (Hassign (grid 1 [[Int 0]]))
    as (this' & Hrun & _ & Hst & Hrows & _).
  by exists this'.
Defined.

(** ** Sum and difference of matrices of one shape *)

Section matrix_sums_same_shape.
Context {T : Type} {N : number T}.
Context (lhs rhs : mat.basic_matrix T) (rn cn : nat).
Context (Hl : mat_shape rn cn lhs) (Hr : mat_shape rn cn rhs).

Lemma same_shape_guard :
  mat.both_differ (lhs, rhs) = Some (false, (lhs, rhs)).
Proof using Hl Hr.
  rewrite (both_differ_shape _ _ _ _ _ _ Hl Hr).
  by rewrite !Nat.eqb_refl.
Qed.

Lemma matrix_elementwise_eq (f : T → T → T) :
  mat.elementwise (vec.elementwise f) (lhs, rhs)
  = Some (mat.mk rn None
            (zip_with (combined_row f GOOD_ALLOCATOR)
               (mat._Allocator lhs) (mat._Allocator rhs))
            (mat._Status lhs),
          (lhs, rhs)).
Proof using Hl Hr.
  destruct (shape_rows_allocated lhs rn cn Hl) as [Hlen Hall].
  pose proof same_shape_guard as Hguard.
  pose proof Hl as (Hrl & _ & Hll & _). pose proof Hr as (_ & _ & Hlr & _).
  unfold mat.elementwise. unfold_method.
  rewrite (matrix_copy_eq _ Hlen Hall). simpl.
  unfold_method in Hguard. rewrite Hguard. simpl. rewrite Hrl.
  set (d := vec.mk 1 (Some [num_zero : T]) GOOD_ALLOCATOR).
  rewrite (for_tabulate
    (λ cells, (mat.mk rn None cells (mat._Status lhs), (lhs, rhs)))
    (λ i, default d (zip_with (combined_row f GOOD_ALLOCATOR)
                       (mat._Allocator lhs) (mat._Allocator rhs) !! i))).
  - simpl. rewrite tabulate_lookup; [done|].
    rewrite length_zip_with. lia.
  - rewrite length_fmap. lia.
  - intros i Hi.
    destruct (shape_row _ _ _ i Hl Hi) as (a & la & Ha & Hla & Hna).
    destruct (shape_row _ _ _ i Hr Hi) as (b & lb & Hb & Hlb & Hnb).
    cbv beta. rewrite lookup_zip_with, Ha, Hb. simpl.
    unfold_method. rewrite Ha, Hb. simpl.
    rewrite (elementwise_same_length f a b la lb Hla Hlb) by congruence.
    simpl.
    rewrite lookup_app_r by (rewrite length_fmap, length_seq; lia).
    rewrite length_fmap, length_seq, Nat.sub_diag.
    rewrite lookup_drop, Nat.add_0_r, list_lookup_fmap, Ha. simpl.
    rewrite (operator_assign_holds _ _ (zip_with f la lb));
      [|destruct Hla as [Hsome _]; simpl; by rewrite Hsome
       |split; [done|]; simpl; rewrite length_zip_with;
        destruct Hla as [_ ?], Hlb as [_ ?]; lia].
    simpl. unfold combined_row, row_cells.
    destruct Hla as [-> _], Hlb as [-> _]. simpl.
    do 3 f_equal.
    destruct lhs, rhs. simpl in *. by rewrite !list_insert_id.
Qed.

Lemma matrix_elementwise_assign_eq (f : T → T → T) :
  mat.elementwise_assign (vec.elementwise_assign f) (lhs, rhs)
  = Some ((), (mat.mk rn (Some cn)
                 (zip_with (λ a b, combined_row f (vec._Status a) a b)
                    (mat._Allocator lhs) (mat._Allocator rhs))
                 (mat._Status lhs),
               rhs)).
Proof using Hl Hr N.
  pose proof same_shape_guard as Hguard.
  pose proof Hl as (Hrl & Hcl & Hll & _). pose proof Hr as (_ & _ & Hlr & _).
  unfold mat.elementwise_assign. unfold_method.
  unfold_method in Hguard. rewrite Hguard. simpl. rewrite Hrl.
  set (d := vec.mk 1 (Some [num_zero : T]) GOOD_ALLOCATOR).
  assert (lhs = mat.mk rn (Some cn) (mat._Allocator lhs) (mat._Status lhs))
    as Hlhs by (destruct lhs; simpl in *; congruence).
  rewrite Hlhs at 1.
  rewrite (for_tabulate
    (λ cells, (mat.mk rn (Some cn) cells (mat._Status lhs), rhs))
    (λ i, default d (zip_with (λ a b, combined_row f (vec._Status a) a b)
                       (mat._Allocator lhs) (mat._Allocator rhs) !! i))).
  - simpl. rewrite tabulate_lookup; [done|].
    rewrite length_zip_with. lia.
  - done.
  - intros i Hi.
    destruct (shape_row _ _ _ i Hl Hi) as (a & la & Ha & Hla & Hna).
    destruct (shape_row _ _ _ i Hr Hi) as (b & lb & Hb & Hlb & Hnb).
    cbv beta. rewrite lookup_zip_with, Ha, Hb. simpl.
    unfold_method.
    rewrite lookup_app_r by (rewrite length_fmap, length_seq; lia).
    rewrite length_fmap, length_seq, Nat.sub_diag.
    rewrite lookup_drop, Nat.add_0_r, Ha. simpl. rewrite Hb. simpl.
    rewrite (elementwise_assign_same_length f a b la lb Hla Hlb)
      by congruence.
    simpl. unfold combined_row, row_cells.
    destruct Hla as [-> _], Hlb as [-> _]. simpl.
    do 3 f_equal.
    destruct rhs. simpl in *. by rewrite list_insert_id.
Qed.

Lemma pointwise_combined_rows (f : T → T → T) st r c s :
  pointwise f rn cn lhs rhs
    (mat.mk r c
       (zip_with (λ a b, combined_row f (st a) a b)
          (mat._Allocator lhs) (mat._Allocator rhs)) s).
Proof using Hl Hr.
  intros i j Hi Hj.
  destruct (shape_row _ _ _ i Hl Hi) as (a & la & Ha & [Hla Hlla] & Hna).
  destruct (shape_row _ _ _ i Hr Hi) as (b & lb & Hb & [Hlb Hllb] & Hnb).
  destruct (lookup_lt_is_Some_2 la j) as [x Hx]; [lia|].
  destruct (lookup_lt_is_Some_2 lb j) as [y Hy]; [lia|].
  exists x, y. unfold entry. simpl.
  rewrite Ha, Hb. simpl. rewrite Hla, Hlb. simpl.
  split_and!; [done|done|].
  rewrite lookup_zip_with, Ha, Hb. simpl.
  unfold row_cells. rewrite Hla, Hlb. simpl.
  by rewrite lookup_zip_with, Hx, Hy.
Qed.

Lemma shape_combined_rows (f : T → T → T) st s :
  mat_shape rn cn
    (mat.mk rn (Some cn)
       (zip_with (λ a b, combined_row f (st a) a b)
          (mat._Allocator lhs) (mat._Allocator rhs)) s).
Proof using Hl Hr.
  pose proof Hl as (Hrl & Hcl & Hll & Hal).
  pose proof Hr as (_ & _ & Hlr & Har).
  split_and!; simpl; [done|done|rewrite length_zip_with; lia|].
  apply Forall_lookup_2. intros i row Hrow.
  apply lookup_zip_with_Some in Hrow as (a & b & -> & Ha & Hb).
  destruct (Forall_lookup_1 _ _ _ _ Hal Ha) as [Hna (la & Hla & Hlla)].
  destruct (Forall_lookup_1 _ _ _ _ Har Hb) as [Hnb (lb & Hlb & Hllb)].
  split; [done|]. eexists. split; [reflexivity|]. simpl.
  unfold row_cells. rewrite Hla, Hlb. simpl. rewrite length_zip_with. lia.
Qed.

Lemma statuses_combined_rows (f : T → T → T) r c s :
  row_statuses
    (mat.mk r c
       (zip_with (λ a b, combined_row f (vec._Status a) a b)
          (mat._Allocator lhs) (mat._Allocator rhs)) s)
  = row_statuses lhs.
Proof using Hl Hr.
  pose proof Hl as (_ & _ & Hll & _). pose proof Hr as (_ & _ & Hlr & _).
  unfold row_statuses. simpl. apply list_eq. intros i.
  rewrite !list_lookup_fmap, lookup_zip_with.
  destruct (mat._Allocator lhs !! i) as [a|] eqn:Ha; [|done]. simpl.
  destruct (lookup_lt_is_Some_2 (mat._Allocator rhs) i) as [b ->]; [|done].
  apply lookup_lt_Some in Ha. lia.
Qed.
End matrix_sums_same_shape.

(** X17. For matrices lhs and rhs of the same shape, rn rows and cn
    columns:
    - lhs + rhs and lhs - rhs return a matrix whose cell (i, j) is the
      sum, respectively the difference, of the cells (i, j) of the
      operands; it has rn rows and the status of lhs, its column count is
      never given a value (it is built by the copy constructor), and both
      operands are left as they were;
    - lhs += rhs and lhs -= rhs store the same cells in lhs, which keeps
      its shape, its status and the status of each of its rows, and leave
      rhs as it was. *)
Theorem matrix_sum_of_one_shape {T} `{number_laws T}
    (lhs rhs : mat.basic_matrix T) (rn cn : nat) :
  mat_shape rn cn lhs → mat_shape rn cn rhs →
  (∀ op f,
     (op, f) ∈ [(mat.operator_add (T:=T), num_add);
                (mat.operator_sub, num_sub)] →
     ∃ s, op (lhs, rhs) = Some (s, (lhs, rhs)) ∧
          pointwise f rn cn lhs rhs s ∧
          mat._Rows s = rn ∧ mat._Columns s = None ∧
          mat._Status s = mat._Status lhs) ∧
  (∀ op f,
     (op, f) ∈ [(mat.operator_add_assign (T:=T), num_add);
                (mat.operator_sub_assign, num_sub)] →
     ∃ this', op (lhs, rhs) = Some ((), (this', rhs)) ∧
              pointwise f rn cn lhs rhs this' ∧
              mat_shape rn cn this' ∧
              mat._Status this' = mat._Status lhs ∧
              row_statuses this' = row_statuses lhs).
Proof.
  intros Hl Hr. split.
  - intros op f Hop.
    assert (op = mat.elementwise (vec.elementwise f)) as ->.
    { apply elem_of_cons in Hop as [[= -> ->]|Hop]; [done|].
      apply elem_of_cons in Hop as [[= -> ->]|Hop]; [done|].
      by apply elem_of_nil in Hop. }
    eexists. split; [by eapply matrix_elementwise_eq|].
    split_and!; [|done..].
    by eapply (pointwise_combined_rows lhs rhs rn cn Hl Hr f
                 (λ _, GOOD_ALLOCATOR)).
  - intros op f Hop.
    assert (op = mat.elementwise_assign (vec.elementwise_assign f)) as ->.
    { apply elem_of_cons in Hop as [[= -> ->]|Hop]; [done|].
      apply elem_of_cons in Hop as [[= -> ->]|Hop]; [done|].
      by apply elem_of_nil in Hop. }
    eexists. split; [by eapply matrix_elementwise_assign_eq|].
    split_and!; [| |done|].
    + by eapply (pointwise_combined_rows lhs rhs rn cn Hl Hr f vec._Status).
    + by eapply (shape_combined_rows lhs rhs rn cn Hl Hr f vec._Status).
    + by eapply statuses_combined_rows.
Qed.

Lemma matrix_sum_of_one_shape_witness :
  let a := grid 2 [[Int 1; Int 2]; [Int 3; Int 4]] in
  let b := grid 2 [[Int 10; Int 20]; [Int 30; Int 40]] in
  ∃ s, mat.operator_sub (a, b) = Some (s, (a, b)) ∧
       pointwise num_sub 2 2 a b s ∧ mat._Columns s = None.
Proof.
  intros a b.
  assert (mat_shape 2 2 a) as Ha.
  { apply (grid_shape 2 [[Int 1; Int 2]; [Int 3; Int 4]]).
    by repeat constructor. }
  assert (mat_shape 2 2 b) as Hb.
  { apply (grid_shape 2 [[Int 10; Int 20]; [Int 30; Int 40]]).
    by repeat constructor. }
  destruct (matrix_sum_of_one_shape a b 2 2 Ha Hb) as [Hbin _].
  destruct (Hbin mat.operator_sub num_sub) as (s & Hrun & Hs & _ & Hc & _).
  { apply list_elem_of_further, list_elem_of_here. }
  exists s. split_and!; assumption.
Defined.

(** ** Equality of matrices *)

Section matrix_equality.
Context {T : Type} {N : number T} {L : number_laws T}.
Context (a b : mat.basic_matrix T) (ra ca rb cb : nat).
Context (Ha : mat_shape ra ca a) (Hb : mat_shape rb cb b).

(** One round of the loop of [==] on the rows [i]. *)
Lemma compare_rows_step i :
  i < ra → i < rb →
  ∃ rowa rowb res,
    mat._Allocator a !! i = Some rowa ∧ mat._Allocator b !! i = Some rowb ∧
    (res = true ↔ row_cells rowa ≡ₚ row_cells rowb) ∧
    (bind (on (pair_ (sub_ fst_ (mat.row_ i)) (sub_ snd_ (mat.row_ i)))
              vec.operator_ne)
          (λ d, ret (if d then Some false else None))) (a, b)
    = Some (if res then None else Some false, (a, b)).
Proof using Ha Hb L.
  intros Hia Hib.
  destruct (shape_row _ _ _ i Ha Hia) as (rowa & la & Hrowa & Hla & _).
  destruct (shape_row _ _ _ i Hb Hib) as (rowb & lb & Hrowb & Hlb & _).
  destruct (operator_ne_holds rowa rowb la lb Hla Hlb)
    as (res & _ & Hne & Hres).
  exists rowa, rowb, res. split_and!; [done|done| |].
  - unfold row_cells. by destruct Hla as [-> _], Hlb as [-> _].
  - unfold_method. rewrite Hrowa, Hrowb. simpl. rewrite Hne. simpl.
    assert (update (mat.row_ i) rowb b = b) as Hb' by by apply lawful_row.
    assert (update (mat.row_ i) rowa a = a) as Ha' by by apply lawful_row.
    simpl in Ha', Hb'. rewrite Ha', Hb'. by destruct res.
Qed.

Lemma rows_permuted_S i rowa rowb :
  mat._Allocator a !! i = Some rowa → mat._Allocator b !! i = Some rowb →
  row_cells rowa ≡ₚ row_cells rowb →
  rows_permuted i a b → rows_permuted (S i) a b.
Proof.
  intros Hrowa Hrowb Hperm Hi k Hk.
  destruct (decide (k = i)) as [->|]; [by exists rowa, rowb|].
  apply Hi. lia.
Qed.

Lemma matrix_operator_eq_rows :
  ra ≤ rb →
  ∃ res, mat.operator_eq (a, b) = Some (res, (a, b)) ∧
         (res = true ↔ (ra = rb ∨ ca = cb) ∧ rows_permuted ra a b).
Proof using Ha Hb L.
  intros Hle. unfold mat.operator_eq, bind.
  rewrite (both_differ_shape _ _ _ _ _ _ Ha Hb).
  destruct (decide (ra = rb ∨ ca = cb)) as [Hd|Hd].
  2: { assert (negb (ra =? rb) && negb (ca =? cb) = true) as ->.
       { destruct (Nat.eqb_spec ra rb); [tauto|].
         destruct (Nat.eqb_spec ca cb); [tauto|done]. }
       exists false. split; [done|]. split; [done|]. by intros [? _]. }
  assert (negb (ra =? rb) && negb (ca =? cb) = false) as ->.
  { destruct (Nat.eqb_spec ra rb); [done|].
    destruct (Nat.eqb_spec ca cb); [done|tauto]. }
  unfold mat.rows. unfold_method.
  pose proof Ha as (Hra & _). rewrite Hra.
  edestruct (for_return_inv (R:=bool)
    (λ i s, s = (a, b) ∧ rows_permuted i a b)
    (λ r s, s = (a, b) ∧
            match r with
            | Some x => x = false ∧ ¬ rows_permuted ra a b
            | None => rows_permuted ra a b
            end)) as (r & s' & Hrun & -> & Hr').
  4: { unfold_method in Hrun. rewrite Hrun. simpl.
       eexists. split; [reflexivity|].
       destruct r as [x|]; simpl.
       - destruct Hr' as [-> Hno]. split; [done|]. by intros [_ ?].
       - split; [|done]. by intros _. }
  - split; [done|]. intros i Hi. lia.
  - intros i s Hi [-> Hperm].
    destruct (compare_rows_step i) as (rowa & rowb & res & Hrowa & Hrowb
                                       & Hres & Hrun); [lia..|].
    exists (if res then None else Some false), (a, b).
    split; [exact Hrun|]. destruct res.
    + split; [|done]. intros _. split; [done|].
      apply (rows_permuted_S i rowa rowb); [done|done| |done].
      by apply Hres.
    + split; [done|]. intros x [= <-]. split; [done|]. split; [done|].
      intros Hall. destruct (Hall i Hi) as (ra' & rb' & Ha' & Hb' & Hp).
      rewrite Hrowa in Ha'. rewrite Hrowb in Hb'.
      injection Ha' as <-. injection Hb' as <-.
      apply Hres in Hp. done.
  - intros s Hs. exact Hs.
Qed.

(** The loop reads row [rb] of the right operand, which has none. *)
Lemma for_return_reads_past {St R} (body : nat → method St (option R))
    count start k s :
  start ≤ k < start + count →
  (∀ i, start ≤ i < k → body i s = Some (None, s)) →
  body k s = None →
  for_return_from start count body s = None.
Proof.
  revert start. induction count as [|count IH]; intros start Hk Hbody Hend;
    [lia|].
  simpl. unfold bind.
  destruct (decide (start = k)) as [->|Hne]; [by rewrite Hend|].
  rewrite Hbody by lia. apply IH; [lia| |done].
  intros i Hi. apply Hbody. lia.
Qed.

Lemma matrix_operator_eq_past :
  rb < ra → ca = cb → rows_permuted rb a b →
  mat.operator_eq (a, b) = None.
Proof using Ha Hb L.
  intros Hlt Hc Hperm. unfold mat.operator_eq, bind.
  rewrite (both_differ_shape _ _ _ _ _ _ Ha Hb).
  destruct (Nat.eqb_spec ca cb); [|done]. rewrite andb_false_r.
  unfold mat.rows. unfold_method.
  pose proof Ha as (Hra & _). rewrite Hra.
  unfold for_return.
  rewrite (for_return_reads_past _ ra 0 rb (a, b)); [done|lia| |].
  - intros i Hi.
    destruct (compare_rows_step i) as (rowa & rowb & res & Hrowa & Hrowb
                                       & Hres & Hrun); [lia..|].
    unfold_method in Hrun. simpl. rewrite Hrun.
    destruct (Hperm i) as (ra' & rb' & Ha' & Hb' & Hp); [lia|].
    rewrite Hrowa in Ha'. rewrite Hrowb in Hb'.
    injection Ha' as <-. injection Hb' as <-.
    apply Hres in Hp. by rewrite Hp.
  - destruct (shape_row _ _ _ rb Ha Hlt) as (rowa & la & Hrowa & _).
    destruct Hb as (_ & _ & Hlen & _).
    simpl. rewrite Hrowa. simpl. by rewrite lookup_ge_None_2 by lia.
Qed.
End matrix_equality.

(** X18. For a matrix a of ra rows and ca columns and a matrix b of rb
    rows and cb columns:
    - when a has no more rows than b, a == b returns true exactly when
      the row counts or the column counts agree and each of the ra rows
      of a holds the cells of the row of b at its place in some order;
      the rows of b below the first ra are not looked at, and a != b is
      the negation;
    - when a has more rows than b, the column counts agree and the first
      rb rows agree in this sense, the comparison reads row rb of b,
      outside its array, and has no defined result. *)
Theorem matrix_equality_compares_leading_rows {T} `{number_laws T}
    (a b : mat.basic_matrix T) (ra ca rb cb : nat) :
  mat_shape ra ca a → mat_shape rb cb b →
  (ra ≤ rb →
   ∃ res, mat.operator_eq (a, b) = Some (res, (a, b)) ∧
          mat.operator_ne (a, b) = Some (negb res, (a, b)) ∧
          (res = true ↔ (ra = rb ∨ ca = cb) ∧ rows_permuted ra a b)) ∧
  (rb < ra → ca = cb → rows_permuted rb a b →
   mat.operator_eq (a, b) = None ∧ mat.operator_ne (a, b) = None).
Proof.
  intros Ha Hb. split.
  - intros Hle.
    destruct (matrix_operator_eq_rows a b ra ca rb cb Ha Hb Hle)
      as (res & Hrun & Hres).
    exists res. split_and!; [done| |done].
    unfold mat.operator_ne, bind. by rewrite Hrun.
  - intros Hlt Hc Hperm.
    pose proof (matrix_operator_eq_past a b ra ca rb cb Ha Hb Hlt Hc Hperm)
      as Hrun.
    split; [done|]. unfold mat.operator_ne, bind. by rewrite Hrun.
Qed.

Lemma matrix_equality_compares_leading_rows_witness :
  let a := grid 2 [[Int 1; Int 2]] in
  let b := grid 2 [[Int 2; Int 1]; [Int 7; Int 8]] in
  mat.operator_eq (a, b) = Some (true, (a, b)) ∧
  mat.operator_eq (b, a) = None.
Proof.
  intros a b.
  assert (mat_shape 1 2 a) as Ha.
  { apply (grid_shape 2 [[Int 1; Int 2]]). by repeat constructor. }
  assert (mat_shape 2 2 b) as Hb.
  { apply (grid_shape 2 [[Int 2; Int 1]; [Int 7; Int 8]]).
    by repeat constructor. }
  assert (rows_permuted 1 a b) as Hab.
  { intros i Hi. assert (i = 0) as -> by lia.
    eexists _, _. split_and!; [reflexivity..|]. simpl. apply Permutation_swap. }
  assert (rows_permuted 1 b a) as Hba.
  { intros i Hi. assert (i = 0) as -> by lia.
    eexists _, _. split_and!; [reflexivity..|]. simpl. apply Permutation_swap. }
  split.
  - destruct (matrix_equality_compares_leading_rows a b 1 2 2 2 Ha Hb)
      as [Hle _].
    destruct Hle as (res & Hrun & _ & Hres); [lia|].
    assert (res = true) as -> by (apply Hres; split; [by right|done]).
    exact Hrun.
  - destruct (matrix_equality_compares_leading_rows b a 2 2 1 2 Hb Ha)
      as [_ Hgt].
    destruct Hgt as [Hrun _]; [lia|done|done|exact Hrun].
Defined.

(** ** The order of matrices *)

Section matrix_order.
Context {T : Type} {N : number T} {L : number_laws T}.
Implicit Types (m a b : mat.basic_matrix T).

Lemma total_eq rn cn m :
  mat_shape rn cn m → mat.total m = Some (matrix_total m, m).
Proof.
  intros Hm. pose proof Hm as (Hr & _ & Hlen & _).
  unfold mat.total, mat.rows. unfold_method. rewrite Hr.
  destruct (for_inv
    (λ i s, s.2 = m ∧
            s.1 = foldl (λ acc row,
                           num_add acc (foldl num_add num_zero (row_cells row)))
                        num_zero (take i (mat._Allocator m)))
    (λ row, bind (on (mat.outer_ (mat.row_ row)) vec.sum)
              (λ x, on mat.local_ (modify (λ sum, num_add sum x))))
    rn (num_zero, m)) as ([t m'] & Hrun & Hm' & Ht).
  - by rewrite take_0.
  - intros i [t s] Hi [Hs Ht]. simpl in Hs, Ht. subst s t.
    destruct (shape_row _ _ _ i Hm Hi) as (row & buf & Hrow & Hbuf & _).
    unfold_method. rewrite Hrow. simpl.
    rewrite (sum_holds _ _ Hbuf). simpl.
    eexists. split; [reflexivity|]. simpl. split.
    + destruct m. simpl in *. by rewrite list_insert_id.
    + rewrite (take_S_r _ _ _ Hrow), foldl_app. simpl.
      unfold row_cells. by destruct Hbuf as [-> _].
  - unfold_method in Hrun. rewrite Hrun. simpl in Hm', Ht. subst m' t.
    unfold matrix_total. by rewrite take_ge by lia.
Qed.

Lemma matrix_operator_lt_eq ra ca rb cb a b :
  mat_shape ra ca a → mat_shape rb cb b →
  mat.operator_lt (a, b)
  = Some (num_ltb (matrix_total a) (matrix_total b), (a, b)).
Proof.
  intros Ha Hb. unfold mat.operator_lt. unfold_method.
  rewrite (total_eq _ _ _ Ha). simpl. by rewrite (total_eq _ _ _ Hb).
Qed.

Lemma matrix_operator_gt_eq ra ca rb cb a b :
  mat_shape ra ca a → mat_shape rb cb b →
  mat.operator_gt (a, b)
  = Some (num_ltb (matrix_total b) (matrix_total a), (a, b)).
Proof.
  intros Ha Hb. unfold mat.operator_gt, swap_args. simpl.
  by rewrite (matrix_operator_lt_eq _ _ _ _ _ _ Hb Ha).
Qed.

Lemma rows_permuted_total `{!number_add_laws T} rn ca cb a b :
  mat_shape rn ca a → mat_shape rn cb b → rows_permuted rn a b →
  matrix_total a = matrix_total b.
Proof.
  intros (_ & _ & Hla & _) (_ & _ & Hlb & _) Hperm.
  unfold matrix_total. unfold rows_permuted in Hperm.
  set (g := λ (acc : T) row,
              num_add acc (foldl num_add num_zero (row_cells row))).
  generalize (num_zero : T). subst rn.
  revert Hlb Hperm.
  generalize (mat._Allocator b). generalize (mat._Allocator a).
  clear a b. intros rowsa.
  induction rowsa as [|rowa rowsa IH]; intros [|rowb rowsb] Hlen Hperm acc;
    simpl in *; [done|done|done|].
  unfold g at 2 4.
  destruct (Hperm 0) as (ra & rb & [= <-] & [= <-] & Hp); [lia|].
  rewrite (foldl_add_permutation _ _ Hp).
  apply IH; [lia|]. intros i Hi. apply (Hperm (S i)). lia.
Qed.
End matrix_order.

(** X19. The order of matrices is the order of their totals, whatever
    their shapes: with total(m) the sum of the sums of the rows of m, from
    the first row to the last, a < b compares total(a) with total(b),
    a > b is b < a, a <= b is the negation of a > b and a >= b the negation
    of a < b, and the operands are left as they were. So a < b and a > b
    are never both true, and matrices of the same row count whose rows hold
    the same cells in some order (the matrices that == takes for equal)
    have a <= b and a >= b both true. *)
Theorem matrix_order_is_the_order_of_totals
    {T} `{number_laws T} `{!number_add_laws T}
    (a b : mat.basic_matrix T) (ra ca rb cb : nat) :
  mat_shape ra ca a → mat_shape rb cb b →
  let x := matrix_total a in
  let y := matrix_total b in
  mat.operator_lt (a, b) = Some (num_ltb x y, (a, b)) ∧
  mat.operator_gt (a, b) = Some (num_ltb y x, (a, b)) ∧
  mat.operator_le (a, b) = Some (negb (num_ltb y x), (a, b)) ∧
  mat.operator_ge (a, b) = Some (negb (num_ltb x y), (a, b)) ∧
  ¬ (num_ltb x y = true ∧ num_ltb y x = true) ∧
  (ra = rb → rows_permuted ra a b →
   negb (num_ltb y x) = true ∧ negb (num_ltb x y) = true).
Proof.
  intros Ha Hb x y. split_and!.
  - by eapply matrix_operator_lt_eq.
  - by eapply matrix_operator_gt_eq.
  - unfold mat.operator_le, bind.
    by rewrite (matrix_operator_gt_eq _ _ _ _ _ _ Ha Hb).
  - unfold mat.operator_ge, bind.
    by rewrite (matrix_operator_lt_eq _ _ _ _ _ _ Ha Hb).
  - intros [Hab Hba]. pose proof (num_ltb_trans _ _ _ Hab Hba) as Haa.
    by rewrite num_ltb_irrefl in Haa.
  - intros <- Hperm.
    assert (x = y) as ->
      by by eapply (rows_permuted_total ra ca cb a b).
    rewrite !negb_true_iff. split; apply num_ltb_irrefl.
Qed.

Lemma matrix_order_is_the_order_of_totals_witness :
  let a := grid 2 [[Int 1; Int 2]; [Int 3; Int 4]] in
  let b := grid 1 [[Int 11]] in
  mat.operator_lt (a, b) = Some (true, (a, b)) ∧
  mat.operator_ge (a, b) = Some (false, (a, b)).
Proof.
  intros a b.
  assert (mat_shape 2 2 a) as Ha.
  { apply (grid_shape 2 [[Int 1; Int 2]; [Int 3; Int 4]]).
    by repeat constructor. }
  assert (mat_shape 1 1 b) as Hb.
  { apply (grid_shape 1 [[Int 11]]). by repeat constructor. }
  destruct (matrix_order_is_the_order_of_totals a b 2 2 1 1 Ha Hb)
    as (Hlt & _ & _ & Hge & _).
  split; [exact Hlt|exact Hge].
Defined.

(** ** The product of square matrices *)

Lemma keeps_for_from_bounded {St} (P : St → Prop) start count
    (body : nat → method St ()) :
  (∀ i, start ≤ i < start + count → keeps P (body i)) →
  keeps P (for_from start count body).
Proof.
  revert start. induction count as [|count IH]; intros start Hbody; simpl.
  - apply keeps_ret.
  - apply keeps_bind; [apply Hbody; lia|]. intros _. apply IH.
    intros i Hi. apply Hbody. lia.
Qed.

Lemma keeps_for_bounded {St} (P : St → Prop) n (body : nat → method St ()) :
  (∀ i, i < n → keeps P (body i)) → keeps P (for_ n body).
Proof.
  intros Hbody. apply keeps_for_from_bounded. intros i Hi. apply Hbody. lia.
Qed.

Lemma sum_of_products_ext {T} `{number T} (a a' b b' : nat → T) n :
  (∀ k, k < n → a k = a' k) → (∀ k, k < n → b k = b' k) →
  sum_of_products a b n = sum_of_products a' b' n.
Proof.
  induction n as [|n IH]; intros Ha Hb; [done|].
  unfold sum_of_products in *. rewrite !seq_S, !foldl_app. simpl.
  rewrite IH, Ha, Hb by (try intros k Hk; auto with lia). done.
Qed.

Section square_product.
Context {T : Type} {N : number T} {L : number_laws T}.
Context (lhs rhs : mat.basic_matrix T) (n : nat).
Context (Hl : mat_shape n n lhs) (Hr : mat_shape n n rhs).
Context (call_a : nat → nat → method (mat.basic_matrix T) (nat * nat)).
Context (Hcall : call_a = mat.operator_call).

(** With the three indices in range, the statement in the loops reads
    the factors where it is told to and writes to neither. *)
Lemma multiply_add_keeps_factors row col inner :
  row < n → col < n → inner < n →
  keeps (λ s, s.2 = (lhs, rhs)) (mat.multiply_add call_a row col inner).
Proof using Hl Hr Hcall.
  intros Hrow Hcol Hinner [m [l r]] u s' HP Hrun. simpl in HP.
  injection HP as -> ->. subst call_a.
  destruct (read_shape n n lhs (row, inner) Hl Hrow Hinner) as (x & _ & Hrx).
  destruct (read_shape n n rhs (inner, col) Hr Hinner Hcol) as (y & _ & Hry).
  unfold mat.multiply_add, mat.outer_, mat.local_ in Hrun.
  change (@mat.operator_call_const T) with (@mat.operator_call T) in Hrun.
  unfold_method in Hrun.
  rewrite (operator_call_in_range lhs n n row inner Hl Hrow Hinner) in Hrun.
  simpl in Hrun.
  rewrite (operator_call_in_range rhs n n inner col Hr Hinner Hcol) in Hrun.
  simpl in Hrun. rewrite Hrx in Hrun. simpl in Hrun.
  rewrite Hry in Hrun. simpl in Hrun.
  repeat case_match; simplify_eq; done.
Qed.

Lemma accumulate_keeps_factors :
  keeps (λ s, s.2 = (lhs, rhs)) (mat.accumulate call_a n n).
Proof using Hl Hr Hcall.
  unfold mat.accumulate.
  apply keeps_for_bounded. intros row Hrow.
  apply keeps_for_bounded. intros col Hcol.
  apply keeps_for_bounded. intros inner Hinner.
  by apply multiply_add_keeps_factors.
Qed.

Lemma cell_in_range (m : mat.basic_matrix T) rn cn i j x :
  i < rn → j < cn → entry m i j = Some x → cell m rn cn i j = x.
Proof.
  intros Hi Hj Hx. unfold cell, clamp.
  destruct (Nat.ltb_spec i rn); [|lia].
  destruct (Nat.ltb_spec j cn); [|lia]. simpl. by rewrite Hx.
Qed.
End square_product.

(** X20. For square matrices lhs and rhs of n >= 1 rows and columns, the
    loops of * and *= build the matrix product: a matrix of n rows and n
    columns with the status GOOD_ALLOCATOR whose entry (row, col) is the
    sum over inner in [0, n) of lhs[row][inner] * rhs[inner][col],
    accumulated from zero in this order. lhs *= rhs stores this matrix in
    lhs and leaves rhs as it was. lhs * rhs returns its copy: n rows, the
    same row vectors and the status GOOD_ALLOCATOR, but no column count,
    which the copy constructor does not assign. Every index of the loops
    is in range, so binary * leaves both operands exactly as they were,
    status members included. *)
Theorem square_matrix_product {T} `{number_laws T}
    (lhs rhs : mat.basic_matrix T) (n : nat) (a b : nat → nat → T) :
  mat_shape n n lhs → mat_shape n n rhs → 1 ≤ n →
  (∀ i j, i < n → j < n → entry lhs i j = Some (a i j)) →
  (∀ i j, i < n → j < n → entry rhs i j = Some (b i j)) →
  ∃ product,
    mat.operator_mul (lhs, rhs)
    = Some (mat.mk n None (mat._Allocator product) GOOD_ALLOCATOR,
            (lhs, rhs)) ∧
    mat.operator_mul_assign (lhs, rhs) = Some ((), (product, rhs)) ∧
    mat_shape n n product ∧
    mat._Status product = GOOD_ALLOCATOR ∧
    ∀ row col, row < n → col < n →
      entry product row col
      = Some (sum_of_products (a row) (λ inner, b inner col) n).
Proof.
  intros Hl Hr Hn Ha Hb.
  pose proof (incompatible_shape lhs rhs n n n n Hl Hr) as Htest.
  pose proof (product_size_shape lhs rhs n n n n Hl Hr) as Hsize.
  rewrite Nat.eqb_refl in Htest. simpl in Htest.
  rewrite Nat.leb_refl in Hsize.
  set (f := λ row col,
         sum_of_products (λ inner, cell lhs n n row inner)
                         (λ inner, cell rhs n n inner col) n).
  set (cells := (λ row, (λ col, f row col) <$> seq 0 n) <$> seq 0 n).
  set (product := grid n cells).
  assert (Forall (λ line, length line = n) cells) as Hcells.
  { apply Forall_fmap, Forall_forall. intros row _. simpl.
    by rewrite length_fmap, length_seq. }
  assert (length cells = n) as Hlen.
  { unfold cells. by rewrite length_fmap, length_seq. }
  assert (∀ call_a, call_a = mat.operator_call →
            mat.accumulate call_a n n
              (grid n (replicate n (replicate n num_zero)), (lhs, rhs))
            = Some ((), (product, (lhs, rhs)))) as Hloop.
  { intros call_a Hcall.
    destruct (row_loop lhs rhs n n n n Hl Hr Hn Hn Hn Hn call_a Hcall n n)
      as (l' & r' & Hrun & _).
    pose proof (accumulate_keeps_factors lhs rhs n Hl Hr call_a Hcall)
      as Hkeep.
    apply Hkeep in Hrun as Hsame; [|done].
    simpl in Hsame. injection Hsame as -> ->. exact Hrun. }
  exists product. split_and!.
  - unfold mat.operator_mul, bind. rewrite Htest, Hsize.
    unfold lift_option at 1. simpl. rewrite basic_matrix_fill_zero.
    unfold with_temp, with_local, bind.
    rewrite (Hloop mat.operator_call_const eq_refl).
    unfold product at 1.
    rewrite (return_grid n cells (lhs, rhs) Hcells).
    by rewrite Hlen.
  - unfold mat.operator_mul_assign, bind. rewrite Htest, Hsize.
    unfold_method. rewrite basic_matrix_fill_zero.
    pose proof (Hloop mat.operator_call eq_refl) as Hrun.
    unfold_method in Hrun. rewrite Hrun. simpl.
    unfold product at 1. by rewrite assign_grid.
  - apply tabulate_shape.
  - done.
  - intros row col Hrow Hcol. unfold product, cells.
    rewrite (entry_tabulate f) by done. f_equal. unfold f.
    apply sum_of_products_ext.
    + intros k Hk. apply cell_in_range; auto.
    + intros k Hk. apply cell_in_range; auto.
Qed.

Lemma square_matrix_product_witness :
  let lhs := grid 2 [[Int 1; Int 2]; [Int 3; Int 4]] in
  let rhs := grid 2 [[Int 0; Int 1]; [Int 1; Int 0]] in
  ∃ result,
    mat.operator_mul (lhs, rhs) = Some (result, (lhs, rhs)) ∧
    mat._Columns result = None ∧
    entry result 0 0 = Some (Int 2) ∧ entry result 1 1 = Some (Int 3).
Proof.
  intros lhs rhs.
  assert (mat_shape 2 2 lhs) as Hl.
  { apply (grid_shape 2 [[Int 1; Int 2]; [Int 3; Int 4]]).
    by repeat constructor. }
  assert (mat_shape 2 2 rhs) as Hr.
  { apply (grid_shape 2 [[Int 0; Int 1]; [Int 1; Int 0]]).
    by repeat constructor. }
  destruct (square_matrix_product lhs rhs 2
              (λ i j, default (Int 0) (entry lhs i j))
              (λ i j, default (Int 0) (entry rhs i j)) Hl Hr)
    as (product & Hrun & _ & _ & _ & Hcells).
  - lia.
  - intros i j Hi Hj.
    destruct i as [|[|i]]; [| |lia]; destruct j as [|[|j]]; try lia;
      reflexivity.
  - intros i j Hi Hj.
    destruct i as [|[|i]]; [| |lia]; destruct j as [|[|j]]; try lia;
      reflexivity.
  - eexists. split_and!; [exact Hrun|done| |].
    + change (entry product 0 0 = Some (Int 2)).
      rewrite (Hcells 0 0) by lia. reflexivity.
    + change (entry product 1 1 = Some (Int 3)).
      rewrite (Hcells 1 1) by lia. reflexivity.
Defined.

(** ** What the member functions of a matrix keep *)

Section matrix_invariants.
Context {T : Type} {N : number T}.
Implicit Types (m : mat.basic_matrix T).

Lemma keeps_shape_on_row {A} rn cn i (f : method (vec.basic_vector T) A) :
  keeps (vec_sized cn) f → keeps (mat_shape rn cn) (on (mat.row_ i) f).
Proof.
  intros Hf. apply (keeps_on _ (vec_sized cn)); [| |done].
  - intros m o (_ & _ & _ & Hrows) Hview. simpl in Hview.
    by eapply (Forall_lookup_1 _ _ _ _ Hrows).
  - intros m o' Hm Ho'. simpl. by apply shape_replace_row.
Qed.

Lemma shape_with_Status rn cn st m :
  mat_shape rn cn m → mat_shape rn cn (mat.with_Status st m).
Proof. by intros (? & ? & ? & ?). Qed.

Lemma keeps_shape_operator_call rn cn i j :
  keeps (mat_shape rn cn) (mat.operator_call (T:=T) i j).
Proof.
  intros m a m' Hm. unfold mat.operator_call, bind, get, put. simpl.
  destruct (i <? mat._Rows m).
  - destruct (on (mat.row_ i) (vec.operator_index j) m) as [[s m1]|] eqn:Hon;
      [|done].
    intros [= _ <-].
    eapply (keeps_shape_on_row rn cn i); [|exact Hm|exact Hon].
    apply keeps_sized_index.
  - unfold mat.columns_value, bind, get, lift_option. simpl.
    destruct (mat._Columns m) as [c|]; [|done].
    destruct (on (mat.row_ (size_sub (mat._Rows m) 1))
                 (vec.operator_index (size_sub c 1))
                 (mat.with_Status BOUND_ARRAY m)) as [[s m1]|] eqn:Hon;
      [|done].
    intros [= _ <-].
    eapply (keeps_shape_on_row rn cn); [|by apply shape_with_Status|exact Hon].
    apply keeps_sized_index.
Qed.

Lemma keeps_shape_set rn cn i j (x : T) :
  keeps (mat_shape rn cn) (mat.set i j x).
Proof.
  unfold mat.set, mat.write. apply keeps_bind.
  - apply keeps_shape_on_row, keeps_sized_index.
  - intros s. apply keeps_shape_on_row, keeps_sized_write.
Qed.

Lemma keeps_shape_div_assign rn cn (k : T) :
  keeps (mat_shape rn cn) (mat.operator_div_assign k).
Proof.
  unfold mat.operator_div_assign. destruct (num_eqb k num_zero).
  - apply keeps_modify. intros m. apply shape_with_Status.
  - apply keeps_bind; [apply keeps_get|]. intros this.
    apply keeps_for. intros i.
    apply keeps_shape_on_row, keeps_sized_div_assign.
Qed.

(** A compound operator on the rows, for [this] and for [other]. *)
Lemma keeps_shape_rows_fst rn cn i
    (op : method (vec.basic_vector T * vec.basic_vector T) ()) :
  keeps (of_fst (vec_sized cn)) op →
  keeps (of_fst (mat_shape rn cn))
        (on (pair_ (sub_ fst_ (mat.row_ i)) (sub_ snd_ (mat.row_ i))) op).
Proof.
  intros Hop. apply (keeps_on _ (of_fst (vec_sized cn))); [| |done].
  - intros [a b] [x y] (_ & _ & _ & Hrows) Hview. simpl in *.
    destruct (mat._Allocator a !! i) as [x'|] eqn:Hx; [|done]. simpl in Hview.
    destruct (mat._Allocator b !! i) as [y'|]; [|done].
    injection Hview as -> ->.
    by eapply (Forall_lookup_1 _ _ _ _ Hrows).
  - intros [a b] [x y] Hm Ho'. unfold of_fst in *. simpl in *.
    by apply shape_replace_row.
Qed.

Lemma keeps_shape_rows_snd rn cn i
    (op : method (vec.basic_vector T * vec.basic_vector T) ()) :
  keeps (of_snd (vec_sized cn)) op →
  keeps (of_snd (mat_shape rn cn))
        (on (pair_ (sub_ fst_ (mat.row_ i)) (sub_ snd_ (mat.row_ i))) op).
Proof.
  intros Hop. apply (keeps_on _ (of_snd (vec_sized cn))); [| |done].
  - intros [a b] [x y] (_ & _ & _ & Hrows) Hview. simpl in *.
    destruct (mat._Allocator a !! i) as [x'|]; [|done]. simpl in Hview.
    destruct (mat._Allocator b !! i) as [y'|] eqn:Hy; [|done].
    injection Hview as -> ->.
    by eapply (Forall_lookup_1 _ _ _ _ Hrows).
  - intros [a b] [x y] Hm Ho'. unfold of_snd in *. simpl in *.
    by apply shape_replace_row.
Qed.

Lemma keeps_shape_elementwise_assign_fst rn cn
    (op : method (vec.basic_vector T * vec.basic_vector T) ()) :
  keeps (of_fst (vec_sized cn)) op →
  keeps (of_fst (mat_shape rn cn)) (mat.elementwise_assign op).
Proof.
  intros Hop. unfold mat.elementwise_assign.
  apply keeps_bind; [unfold on_fst; eauto with keeps|]. intros this.
  apply keeps_bind; [apply keeps_readonly, readonly_both_differ|].
  intros [|]; [apply keeps_ret|].
  apply keeps_for. intros i. by apply keeps_shape_rows_fst.
Qed.

Lemma keeps_shape_elementwise_assign_snd rn cn
    (op : method (vec.basic_vector T * vec.basic_vector T) ()) :
  keeps (of_snd (vec_sized cn)) op →
  keeps (of_snd (mat_shape rn cn)) (mat.elementwise_assign op).
Proof.
  intros Hop. unfold mat.elementwise_assign.
  apply keeps_bind; [unfold on_fst; eauto with keeps|]. intros this.
  apply keeps_bind; [apply keeps_readonly, readonly_both_differ|].
  intros [|]; [apply keeps_ret|].
  apply keeps_for. intros i. by apply keeps_shape_rows_snd.
Qed.

Lemma keeps_sized_elementwise_assign_fst n (f : T → T → T) :
  keeps (of_fst (vec_sized n)) (vec.elementwise_assign f).
Proof. unfold vec.elementwise_assign. keeps_all. Qed.

Lemma keeps_sized_elementwise_assign_snd n (f : T → T → T) :
  keeps (of_snd (vec_sized n)) (vec.elementwise_assign f).
Proof. unfold vec.elementwise_assign. keeps_all. Qed.
End matrix_invariants.

(** X21. The shape of a matrix (its row count and column count, an array
    of that many rows, each a vector of columnCount cells that owns its
    buffer) is kept by the member functions that work on an existing
    matrix in place: the four accessors at and operator() with whatever
    indices, set, /=, and += and -= (for this and for other, whatever the
    shape of the other operand). Whenever such a call returns, a matrix of
    rn rows and cn columns is still one. *)
Theorem matrix_members_keep_the_shape {T} `{number T} (rn cn : nat) :
  (∀ i j, keeps (mat_shape rn cn) (mat.operator_call (T:=T) i j)) ∧
  (∀ i j, keeps (mat_shape rn cn) (mat.operator_call_const (T:=T) i j)) ∧
  (∀ i j, keeps (mat_shape rn cn) (mat.at_ (T:=T) i j)) ∧
  (∀ i j, keeps (mat_shape rn cn) (mat.at_const (T:=T) i j)) ∧
  (∀ i j x, keeps (mat_shape rn cn) (mat.set (T:=T) i j x)) ∧
  (∀ k, keeps (mat_shape rn cn) (mat.operator_div_assign (T:=T) k)) ∧
  keeps (of_fst (mat_shape rn cn)) (mat.operator_add_assign (T:=T)) ∧
  keeps (of_snd (mat_shape rn cn)) (mat.operator_add_assign (T:=T)) ∧
  keeps (of_fst (mat_shape rn cn)) (mat.operator_sub_assign (T:=T)) ∧
  keeps (of_snd (mat_shape rn cn)) (mat.operator_sub_assign (T:=T)).
Proof.
  split_and!.
  - intros i j. apply keeps_shape_operator_call.
  - intros i j. apply keeps_shape_operator_call.
  - intros i j. apply keeps_shape_operator_call.
  - intros i j. apply keeps_shape_operator_call.
  - intros i j x. apply keeps_shape_set.
  - intros k. apply keeps_shape_div_assign.
  - apply keeps_shape_elementwise_assign_fst,
      keeps_sized_elementwise_assign_fst.
  - apply keeps_shape_elementwise_assign_snd,
      keeps_sized_elementwise_assign_snd.
  - apply keeps_shape_elementwise_assign_fst,
      keeps_sized_elementwise_assign_fst.
  - apply keeps_shape_elementwise_assign_snd,
      keeps_sized_elementwise_assign_snd.
Qed.

Lemma matrix_members_keep_the_shape_witness :
  let m := grid 2 [[Int 1; Int 2]; [Int 3; Int 4]] in
  ∃ r m', mat.operator_call 5 7 m = Some (r, m') ∧ mat_shape 2 2 m'.
Proof.
  intros m. eexists _, _. split; [reflexivity|].
  destruct (matrix_members_keep_the_shape (T:=int) 2 2) as (Hcall & _).
  eapply (Hcall 5 7 m); [|reflexivity].
  apply (grid_shape 2 [[Int 1; Int 2]; [Int 3; Int 4]]).
  by repeat constructor.
Defined.

(** ** The status of a matrix *)

Section matrix_status.
Context {T : Type} {N : number T}.
Context (Q : STATUS → Prop).
Implicit Types (m : mat.basic_matrix T).

(** A call on a row does not touch the status of the matrix. *)
Lemma keeps_status_on_row {A} i (f : method (vec.basic_vector T) A) :
  keeps (λ m, Q (mat._Status m)) (on (mat.row_ i) f).
Proof.
  intros m a m' HQ. unfold on. simpl.
  destruct (mat._Allocator m !! i) as [o|]; [|done].
  destruct (f o) as [[a' o']|]; [|done]. by intros [= _ <-].
Qed.

Lemma keeps_status_rows_fst i
    (op : method (vec.basic_vector T * vec.basic_vector T) ()) :
  keeps (of_fst (λ m, Q (mat._Status m)))
        (on (pair_ (sub_ fst_ (mat.row_ i)) (sub_ snd_ (mat.row_ i))) op).
Proof.
  intros [a b] u s' HQ. unfold on, of_fst in *. simpl in *.
  destruct (mat._Allocator a !! i) as [x|]; [|done]. simpl.
  destruct (mat._Allocator b !! i) as [y|]; [|done]. simpl.
  destruct (op (x, y)) as [[u' o']|]; [|done]. by intros [= _ <-].
Qed.

Lemma keeps_status_rows_snd i
    (op : method (vec.basic_vector T * vec.basic_vector T) ()) :
  keeps (of_snd (λ m, Q (mat._Status m)))
        (on (pair_ (sub_ fst_ (mat.row_ i)) (sub_ snd_ (mat.row_ i))) op).
Proof.
  intros [a b] u s' HQ. unfold on, of_snd in *. simpl in *.
  destruct (mat._Allocator a !! i) as [x|]; [|done]. simpl.
  destruct (mat._Allocator b !! i) as [y|]; [|done]. simpl.
  destruct (op (x, y)) as [[u' o']|]; [|done]. by intros [= _ <-].
Qed.

Lemma keeps_status_set i j (x : T) :
  keeps (λ m, Q (mat._Status m)) (mat.set i j x).
Proof.
  unfold mat.set, mat.write. apply keeps_bind.
  - apply keeps_status_on_row.
  - intros s. apply keeps_status_on_row.
Qed.

Lemma keeps_status_elementwise_assign_fst
    (op : method (vec.basic_vector T * vec.basic_vector T) ()) :
  keeps (of_fst (λ m, Q (mat._Status m))) (mat.elementwise_assign op).
Proof.
  unfold mat.elementwise_assign.
  apply keeps_bind; [unfold on_fst; eauto with keeps|]. intros this.
  apply keeps_bind; [apply keeps_readonly, readonly_both_differ|].
  intros [|]; [apply keeps_ret|].
  apply keeps_for. intros i. apply keeps_status_rows_fst.
Qed.

Lemma keeps_status_elementwise_assign_snd
    (op : method (vec.basic_vector T * vec.basic_vector T) ()) :
  keeps (of_snd (λ m, Q (mat._Status m))) (mat.elementwise_assign op).
Proof.
  unfold mat.elementwise_assign.
  apply keeps_bind; [unfold on_fst; eauto with keeps|]. intros this.
  apply keeps_bind; [apply keeps_readonly, readonly_both_differ|].
  intros [|]; [apply keeps_ret|].
  apply keeps_for. intros i. apply keeps_status_rows_snd.
Qed.

(** The accessors may set BOUND_ARRAY and nothing else. *)
Lemma keeps_status_operator_call i j :
  Q BOUND_ARRAY → keeps (λ m, Q (mat._Status m)) (mat.operator_call (T:=T) i j).
Proof.
  intros Hbound m a m' Hm. unfold mat.operator_call, bind, get, put. simpl.
  destruct (i <? mat._Rows m).
  - destruct (on (mat.row_ i) (vec.operator_index j) m) as [[s m1]|] eqn:Hon;
      [|done].
    intros [= _ <-]. by eapply (keeps_status_on_row i); [exact Hm|exact Hon].
  - unfold mat.columns_value, bind, get, lift_option. simpl.
    destruct (mat._Columns m) as [c|]; [|done].
    destruct (on (mat.row_ (size_sub (mat._Rows m) 1))
                 (vec.operator_index (size_sub c 1))
                 (mat.with_Status BOUND_ARRAY m)) as [[s m1]|] eqn:Hon;
      [|done].
    intros [= _ <-].
    by eapply (keeps_status_on_row _ _ (mat.with_Status BOUND_ARRAY m));
      [|exact Hon].
Qed.

(** [/=] may set DIVIDED_ZERO and nothing else. *)
Lemma keeps_status_div_assign (k : T) :
  Q DIVIDED_ZERO → keeps (λ m, Q (mat._Status m)) (mat.operator_div_assign k).
Proof.
  intros Hzero. unfold mat.operator_div_assign.
  destruct (num_eqb k num_zero).
  - by apply keeps_modify.
  - apply keeps_bind; [apply keeps_get|]. intros this.
    apply keeps_for. intros i. apply keeps_status_on_row.
Qed.
End matrix_status.

(** X22. What the members that work on a matrix in place do to its status
    member, whenever they return:
    - set, += and -= leave the status of the matrix as it was, for this
      and for other and whatever the indices and shapes; in particular +=
      and -= report nothing when they return early on mismatching
      operands;
    - the accessors at and operator() leave it as it was or set it to
      BOUND_ARRAY, and /= leaves it as it was or sets it to DIVIDED_ZERO;
      so none of these calls clears a fault: a status that is not
      GOOD_ALLOCATOR before the call is not GOOD_ALLOCATOR after it. *)
Theorem matrix_status_is_kept {T} `{number T} (st : STATUS) :
  let same := λ m : mat.basic_matrix T, mat._Status m = st in
  let same_or s := λ m : mat.basic_matrix T,
                     mat._Status m = st ∨ mat._Status m = s in
  let F := λ m : mat.basic_matrix T, faulty (mat._Status m) in
  (∀ i j x, keeps same (mat.set i j x)) ∧
  keeps (of_fst same) mat.operator_add_assign ∧
  keeps (of_snd same) mat.operator_add_assign ∧
  keeps (of_fst same) mat.operator_sub_assign ∧
  keeps (of_snd same) mat.operator_sub_assign ∧
  (∀ i j, keeps (same_or BOUND_ARRAY) (mat.operator_call i j)) ∧
  (∀ i j, keeps (same_or BOUND_ARRAY) (mat.operator_call_const i j)) ∧
  (∀ i j, keeps (same_or BOUND_ARRAY) (mat.at_ i j)) ∧
  (∀ i j, keeps (same_or BOUND_ARRAY) (mat.at_const i j)) ∧
  (∀ k, keeps (same_or DIVIDED_ZERO) (mat.operator_div_assign k)) ∧
  (∀ i j, keeps F (mat.operator_call i j)) ∧
  (∀ k, keeps F (mat.operator_div_assign k)).
Proof.
  intros same same_or F. split_and!.
  - intros i j x. apply (keeps_status_set (λ s, s = st)).
  - apply (keeps_status_elementwise_assign_fst (λ s, s = st)).
  - apply (keeps_status_elementwise_assign_snd (λ s, s = st)).
  - apply (keeps_status_elementwise_assign_fst (λ s, s = st)).
  - apply (keeps_status_elementwise_assign_snd (λ s, s = st)).
  - intros i j.
    apply (keeps_status_operator_call (λ s, s = st ∨ s = BOUND_ARRAY)).
    by right.
  - intros i j.
    apply (keeps_status_operator_call (λ s, s = st ∨ s = BOUND_ARRAY)).
    by right.
  - intros i j.
    apply (keeps_status_operator_call (λ s, s = st ∨ s = BOUND_ARRAY)).
    by right.
  - intros i j.
    apply (keeps_status_operator_call (λ s, s = st ∨ s = BOUND_ARRAY)).
    by right.
  - intros k.
    apply (keeps_status_div_assign (λ s, s = st ∨ s = DIVIDED_ZERO)).
    by right.
  - intros i j. by apply (keeps_status_operator_call faulty).
  - intros k. by apply (keeps_status_div_assign faulty).
Qed.

Lemma matrix_status_is_kept_witness :
  let this := grid 2 [[Int 1; Int 2]; [Int 3; Int 4]] in
  let other := grid 3 [[Int 1; Int 2; Int 3]] in
  ∃ this' other',
    mat.operator_add_assign (this, other) = Some ((), (this', other')) ∧
    mat._Status this' = GOOD_ALLOCATOR.
Proof.
  intros this other. eexists _, _. split; [reflexivity|].
  destruct (matrix_status_is_kept (T:=int) GOOD_ALLOCATOR)
    as (_ & Hadd & _).
  by eapply (Hadd (this, other) ()).
Defined.
